(** * circles-core: the per-Safe transaction sequencer of [src/utils.js]

    The development embeds the part of [src/utils.js] that orders relayer
    submissions per Safe ([waitForPendingTransactions], [requestNonce],
    [executeSafeTx], [executeTokenSafeTx]) and the unit conversion
    ([toFreckles], [fromFreckles]).

    - [Queue] and [Poller] are the two helpers [utils.js] imports from
      [~/common/queue] and [~/common/loop]; their files are not among the
      sources, and they are modelled from the spec.
    - [Freckles] is the unit conversion, on decimal strings, with the
      JavaScript numbers it returns.
    - [Utils] is the code of [utils.js].  JavaScript's cooperative scheduling
      is rendered as a labelled step function on a world made of the shared
      [transactionQueue] object and one program counter per pending call: a
      step is the synchronous code that runs between two [await]s, and the
      label carries what the awaited call answered.
    - [Invariant] states what every reachable world satisfies; the proofs
      follow, then the properties of the sequencer, the poller and the
      conversion. *)

From stdpp Require Import gmap strings list fin_maps sorting.
From Stdlib Require Import NArith ZArith Lia Ascii.
From Stdlib Require String DecimalString DecimalN.

(* ===================================================================== *)
(** ** The transaction queue ([~/common/queue]) *)
(* ===================================================================== *)

Module Queue.

(** The record [lockTransaction] receives and [getCurrentTransaction] hands
    back in [utils.js]: [{ nonce, ticketId, txHash }]. *)
Record Transaction := mkTransaction {
  txHash : string;
  nonce : N;
  ticketId : nat
}.

#[global] Instance Transaction_eq_dec : EqDecision Transaction.
Proof. solve_decision. Defined.

(** Modelled from the spec: the class [TransactionQueue] of [~/common/queue]
    is imported by [utils.js] but its file is not among the sources.  The
    spec's data model gives, per key, [waiting] (the FIFO line of ticket ids)
    and an optional [lock] record, with ticket ids drawn from one
    monotonically increasing counter.  A key without a record has an empty
    line and no lock. *)
Record TransactionQueue := mkQueue {
  lastTicketId : nat;
  waiting : gmap string (list nat);
  locks : gmap string Transaction
}.

(** Modelled from the spec: the state of a fresh [new TransactionQueue()]. *)
Definition fresh : TransactionQueue := mkQueue 0 ∅ ∅.

(** Modelled from the spec: the waiting line of a key, empty until first use. *)
Definition line (safeAddress : string) (q : TransactionQueue) : list nat :=
  default [] (waiting q !! safeAddress).

(** Modelled from the spec: [enqueue(key) -> ticketId] "appends a fresh ticket
    to key's waiting line. Never fails."  ([transactionQueue.queue]). *)
Definition queue (safeAddress : string) (q : TransactionQueue)
  : nat * TransactionQueue :=
  let ticket := S (lastTicketId q) in
  (ticket,
   mkQueue ticket
           (<[safeAddress := line safeAddress q ++ [ticket]]> (waiting q))
           (locks q)).

(** Modelled from the spec: [retire(key, ticketId)], "idempotent removal of
    ... the ticket from waiting" ([transactionQueue.unqueue]). *)
Definition unqueue (safeAddress : string) (ticket : nat) (q : TransactionQueue)
  : TransactionQueue :=
  mkQueue (lastTicketId q)
          (alter (filter (λ t, t ≠ ticket)) safeAddress (waiting q))
          (locks q).

(** Modelled from the spec: [lock(key, { sequenceNumber, submissionHandle })]
    "sets lock for key" ([transactionQueue.lockTransaction]). *)
Definition lockTransaction (safeAddress : string) (tx : Transaction)
                           (q : TransactionQueue) : TransactionQueue :=
  mkQueue (lastTicketId q) (waiting q) (<[safeAddress := tx]> (locks q)).

(** Modelled from the spec: [unlock(key, ticketId)], "idempotent removal of the
    lock": the lock that names [ticketId] is removed; a key that is unlocked,
    or locked for another ticket, is left as it is
    ([transactionQueue.unlockTransaction]). *)
Definition unlockTransaction (safeAddress : string) (ticket : nat)
                             (q : TransactionQueue) : TransactionQueue :=
  match locks q !! safeAddress with
  | Some tx =>
      if decide (ticketId tx = ticket)
      then mkQueue (lastTicketId q) (waiting q) (delete safeAddress (locks q))
      else q
  | None => q
  end.

(** Modelled from the spec: "key is unlocked" / "locked"
    ([transactionQueue.isLocked]). *)
Definition isLocked (safeAddress : string) (q : TransactionQueue) : bool :=
  bool_decide (is_Some (locks q !! safeAddress)).

(** Modelled from the spec: "is head" of the key's waiting line
    ([transactionQueue.isNextInQueue]). *)
Definition isNextInQueue (safeAddress : string) (ticket : nat)
                         (q : TransactionQueue) : bool :=
  bool_decide (head (line safeAddress q) = Some ticket).

(** Modelled from the spec: the recorded in-flight handle of a locked key
    ([transactionQueue.getCurrentTransaction]). *)
Definition getCurrentTransaction (safeAddress : string) (q : TransactionQueue)
  : option Transaction :=
  locks q !! safeAddress.

End Queue.

(* ===================================================================== *)
(** ** The poller ([~/common/loop]) *)
(* ===================================================================== *)

Module Poller.

(** Modelled from the spec: what one invocation of [action()] does, "a
    result (possibly by contacting an external system and possibly failing)":
    it throws, or it yields a result; either way it takes some time. *)
Inductive Outcome (A : Type) :=
| Throws
| Yields (result : A).
Arguments Throws {A}.
Arguments Yields {A} result.

Record Attempt (A : Type) := mkAttempt {
  outcome : Outcome A;
  duration : nat            (* milliseconds spent inside action() *)
}.
Arguments mkAttempt {A} outcome duration.
Arguments outcome {A} _.
Arguments duration {A} _.

(** Modelled from the spec: [options], "{ intervalMs: wait between attempts,
    timeoutMs: optional overall deadline, label: diagnostic tag }". *)
Record Options := mkOptions {
  intervalMs : nat;
  timeoutMs : option nat;
  label : string
}.

(** Modelled from the spec: the terminal states of the loop, [Satisfied]
    (returns the result) and [TimedOut] (fails, carrying the label), each with
    the time elapsed since the call. *)
Inductive Result (A : Type) :=
| Satisfied (result : A) (elapsed : nat)
| TimedOut (tag : string) (elapsed : nat).
Arguments Satisfied {A} result elapsed.
Arguments TimedOut {A} tag elapsed.


(** Modelled from the spec: "If cumulative elapsed time exceeds timeoutMs
    (when configured)". *)
Definition exceeded (o : Options) (elapsed : nat) : bool :=
  match timeoutMs o with
  | Some limit => bool_decide (limit < elapsed)
  | None => false
  end.


(** Modelled from the spec: [poll(action, predicate, options)] of
    [~/common/loop], whose file is not among the sources.  The spec's state
    machine is [Idle -> Attempting -> {Satisfied | Retrying -> Attempting |
    TimedOut}]: attempt [action()]; a failure is a "not yet"; a result that
    satisfies the predicate is returned at once; otherwise the loop fails with
    the label when the elapsed time exceeds [timeoutMs], and else waits
    [intervalMs] and repeats.  The [n]-th invocation of the action is
    [action n]; [fuel] bounds the number of attempts unfolded, [None] meaning
    that the loop is still running after [fuel] attempts. *)
Fixpoint poll {A} (fuel : nat) (action : nat → Attempt A)
         (predicate : A → bool) (o : Options) (n elapsed : nat)
  : option (Result A) :=
  match fuel with
  | 0 => None
  | S fuel' =>
      let a := action n in
      let now := elapsed + duration a in
      match outcome a with
      | Yields r =>
          if predicate r then Some (Satisfied r now)
          else if exceeded o now then Some (TimedOut (label o) now)
          else poll fuel' action predicate o (S n) (now + intervalMs o)
      | Throws =>
          if exceeded o now then Some (TimedOut (label o) now)
          else poll fuel' action predicate o (S n) (now + intervalMs o)
      end
  end.


(** The same action with every throwing attempt replaced by one that takes as
    long and yields [notYet]. *)
Definition quiet {A} (notYet : A) (action : nat → Attempt A) : nat → Attempt A :=
  λ n, match outcome (action n) with
       | Throws => mkAttempt (Yields notYet) (duration (action n))
       | Yields _ => action n
       end.

End Poller.


(* ===================================================================== *)
(** ** [src/utils.js]: Circles and Freckles *)
(* ===================================================================== *)

Module Freckles.
Local Open Scope string_scope.

(** *** Decimal strings *)

Definition isDigit (c : ascii) : bool :=
  (48 <=? nat_of_ascii c)%nat && (nat_of_ascii c <=? 57)%nat.

Fixpoint allDigits (s : string) : bool :=
  match s with
  | "" => true
  | String c rest => isDigit c && allDigits rest
  end.

(** The longest prefix of decimal digits, and what follows it. *)
Fixpoint takeDigits (s : string) : string :=
  match s with
  | "" => ""
  | String c rest => if isDigit c then String c (takeDigits rest) else ""
  end.

Fixpoint dropDigits (s : string) : string :=
  match s with
  | "" => ""
  | String c rest => if isDigit c then dropDigits rest else s
  end.

(** [bn.toString(10)] of a non-negative big number. *)
Definition decimal (n : N) : string := DecimalString.NilZero.string_of_uint (N.to_uint n).

(** [new BN(digits, 10)] for a string of decimal digits (the empty string
    reads as zero). *)
Definition readDecimal (digits : string) : option N :=
  N.of_uint <$> DecimalString.NilEmpty.uint_of_string digits.

Definition showZ (z : Z) : string :=
  if (z <? 0)%Z then "-" ++ decimal (Z.abs_N z) else decimal (Z.abs_N z).

Fixpoint zeros (n : nat) : string :=
  match n with
  | 0 => ""
  | S n' => String "0" (zeros n')
  end.

(** A leading minus sign, and the rest. *)
Definition splitMinus (s : string) : bool * string :=
  match s with
  | String c rest => if Ascii.eqb c "-" then (true, rest) else (false, s)
  | "" => (false, s)
  end.

(** *** [web3.utils.toWei] and [web3.utils.fromWei] with unit ['ether'] *)

(** [unitMap.ether] is ['1000000000000000000']. *)
Definition base : N := 10 ^ 18.
Definition baseLength : nat := 18.

(** The library function [web3.utils.toWei(number, 'ether')] on a string, as
    [ethjs-unit] computes it: an optional minus sign, then digits with at
    most one dot; the whole part and the fraction padded on the right to 18
    digits are read as integers and combined.  [None] stands for a thrown
    error (a character that is neither digit nor dot, a lone dot, a second
    dot, more than 18 decimal places). *)
Definition toWei (etherInput : string) : option string :=
  let '(negative, ether) := splitMinus etherInput in
  if String.eqb ether "" || String.eqb ether "." then None
  else
    let whole := takeDigits ether in
    match dropDigits ether with
    | "" =>
        w ← readDecimal whole;
        Some (showZ (if negative then - Z.of_N (w * base) else Z.of_N (w * base)))
    | String c fraction =>
        if Ascii.eqb c "." && allDigits fraction
           && (String.length fraction <=? baseLength)%nat
        then
          w ← readDecimal whole;
          f ← readDecimal (fraction ++ zeros (baseLength - String.length fraction));
          Some (showZ (if negative then - Z.of_N (w * base + f)
                       else Z.of_N (w * base + f)))
        else None
    end.

(** The first group of the regular expression that [fromWei] matches the
    padded fraction against (digits up to the last one that is not zero, or
    else a single zero): the string without its trailing zeros, or ["0"] when
    it has nothing else. *)
Fixpoint withoutTrailingZeros (digits : string) : string :=
  match digits with
  | "" => ""
  | String c rest =>
      match withoutTrailingZeros rest with
      | "" => if Ascii.eqb c "0" then "" else String c ""
      | kept => String c kept
      end
  end.

Definition significant (fraction : string) : string :=
  match withoutTrailingZeros fraction with
  | "" => "0"
  | kept => kept
  end.

(** The library function [web3.utils.fromWei(number, 'ether')] on a string
    holding a decimal integer, with an optional minus sign.  The whole part
    is the quotient by [base]; the fraction is the remainder padded on the
    left to 18 digits, trailing zeros dropped, and left out when it is zero.
    [None] marks an input this model does not cover, not an error of the
    library: the empty string, a lone minus sign, hexadecimal digits, blanks
    around the number or a second sign, for which web3 has answers of its
    own.  Nothing below is stated about such input. *)
Definition fractionPart (remainder : N) : string :=
  let digits := decimal remainder in
  let fraction :=
    significant (zeros (baseLength - String.length digits) ++ digits) in
  if String.eqb fraction "0" then "" else "." ++ fraction.

Definition fromWei (weiInput : string) : option string :=
  let '(negative, digits) := splitMinus weiInput in
  if allDigits digits && negb (String.eqb digits "") then
    wei ← readDecimal digits;
    let value := decimal (wei / base) ++ fractionPart (wei mod base) in
    Some (if negative && negb (wei =? 0)%N then "-" ++ value else value)
  else None.

(** *** [parseInt(string, 10)] *)

(** A JavaScript number that holds an integer: the double nearest to a
    natural number, ties to even (magnitudes below [2^1024]). *)
Definition toNumber (n : N) : N :=
  if (n <? 2 ^ 53)%N then n
  else
    let e := (N.log2 n - 52)%N in
    let q := N.shiftr n e in
    let r := (n mod 2 ^ e)%N in
    let half := (2 ^ (e - 1))%N in
    let q' := if (r <? half)%N then q
              else if (half <? r)%N then (q + 1)%N
              else if N.even q then q else (q + 1)%N in
    N.shiftl q' e.

Inductive Number :=
| NaN
| Num (z : Z).

(** The builtin [parseInt(string, 10)]: an optional sign, then the longest
    run of decimal digits; what follows is ignored, and there is no number
    without a digit.  (Leading white space, which [fromWei] never produces,
    is left out.) *)
Definition parseInt (s : string) : Number :=
  let '(negative, body) :=
    match s with
    | String c rest =>
        if Ascii.eqb c "-" then (true, rest)
        else if Ascii.eqb c "+" then (false, rest)
        else (false, s)
    | "" => (false, s)
    end in
  match takeDigits body with
  | "" => NaN
  | digits =>
      match readDecimal digits with
      | Some n => Num (if negative then - Z.of_N (toNumber n) else Z.of_N (toNumber n))
      | None => NaN
      end
  end.

(** *** [toFreckles] and [fromFreckles] (lines 284-297) *)

(** [value] is the text of the template literal [`${value}`]: the argument
    itself when it is a string, its decimal digits when it is an integral
    number below [10^21]. *)
Definition toFreckles (value : string) : option string := toWei value.

Definition fromFreckles (value : string) : option Number :=
  parseInt <$> fromWei value.

End Freckles.
(* ===================================================================== *)
(** ** [src/utils.js]: waiting for one's turn, nonces, submission *)
(* ===================================================================== *)

Module Utils.
Export Queue.

(** What an awaited external call hands back to its caller: the promise is
    rejected, or it resolves to a body. *)
Inductive Response (A : Type) :=
| Threw
| Replied (body : A).
Arguments Threw {A}.
Arguments Replied {A} body.

#[global] Instance Response_eq_dec {A} `{EqDecision A} : EqDecision (Response A).
Proof. solve_decision. Defined.

(** *** The shared [transactionQueue] object and the calls made on it *)

(** The calls [utils.js] makes on [transactionQueue], and the moment
    [waitForPendingTransactions] returns for a ticket (its turn has come: the
    ticket is head of the line and the key is unlocked). *)
Inductive Event :=
| EvQueue (safeAddress : string) (ticket : nat)
| EvTurn (safeAddress : string) (ticket : nat)
| EvLock (safeAddress : string) (tx : Transaction)
| EvUnlock (safeAddress : string) (ticket : nat)
| EvUnqueue (safeAddress : string) (ticket : nat).

#[global] Instance Event_eq_dec : EqDecision Event.
Proof. solve_decision. Defined.

(** [const transactionQueue = new TransactionQueue()] (line 14), together with
    the history of what was done to it, newest event first.  The history is
    only written, never read, by the code below. *)
Record Sequencer := mkSequencer {
  transactionQueue : TransactionQueue;
  history : list Event
}.

Definition call_queue (k : string) (s : Sequencer) : nat * Sequencer :=
  let '(ticket, q) := queue k (transactionQueue s) in
  (ticket, mkSequencer q (EvQueue k ticket :: history s)).

Definition call_unqueue (k : string) (ticket : nat) (s : Sequencer) : Sequencer :=
  mkSequencer (unqueue k ticket (transactionQueue s))
              (EvUnqueue k ticket :: history s).

Definition call_lockTransaction (k : string) (tx : Transaction) (s : Sequencer)
  : Sequencer :=
  mkSequencer (lockTransaction k tx (transactionQueue s))
              (EvLock k tx :: history s).

Definition call_unlockTransaction (k : string) (ticket : nat) (s : Sequencer)
  : Sequencer :=
  mkSequencer (unlockTransaction k ticket (transactionQueue s))
              (EvUnlock k ticket :: history s).

(** *** [waitForPendingTransactions] (lines 172-220) *)

(** The loop action up to its first suspension point.  Lines 181-183: an
    unlocked key resolves the attempt with [isNextInQueue]; lines 186-203: a
    locked key makes the attempt read the current transaction and ask the
    relayer about it.  (A locked key always has a current transaction; were
    there none, the destructuring of line 186 would throw, which the loop
    takes for a "not yet".) *)
Inductive Attempt :=
| Resolved (isReady : bool)
| Asking (current : Transaction).

Definition attemptStart (safeAddress : string) (pendingTicketId : nat)
                        (q : TransactionQueue) : Attempt :=
  if negb (isLocked safeAddress q)
  then Resolved (isNextInQueue safeAddress pendingTicketId q)
  else match getCurrentTransaction safeAddress q with
       | Some current => Asking current
       | None => Resolved false
       end.

(** The rest of the loop action, run when the relayer's answer arrives
    (lines 193-214).  [Replied n] is a response whose [results] has length
    [n]; a rejected request or a malformed body ends in the [catch] of line
    210.  Either way the attempt returns [false] (line 214). *)
Definition attemptFinish (safeAddress : string) (current : Transaction)
                         (response : Response nat) (s : Sequencer)
  : bool * Sequencer :=
  match response with
  | Replied 1 =>
      let currentTicketId := ticketId current in
      (false,
       call_unqueue safeAddress currentTicketId
         (call_unlockTransaction safeAddress currentTicketId s))
  | Replied _ => (false, s)
  | Threw => (false, s)
  end.

(** *** [requestNonce] (lines 230-254) *)

(** The expression [parseInt(nonce, 10) + 1] of line 253, as the template
    literal around it prints it.  JavaScript computes it in doubles:
    [parseInt] reads the nonce of the relayer's JSON as the nearest double,
    and the sum is rounded to the nearest double again.  Below [2^53] the
    result is [nonce + 1]; from [2^53] on the sum is no longer exact: that of
    [2^53] and 1 is [2^53] again.  (The value kept is that of the double.  Up
    to [2^53] the template literal prints exactly its digits; above, it
    prints digits that read back as the same double, and from [10^21] on an
    exponent, which lies outside this model.) *)
Definition incremented (nonce : N) : N :=
  Freckles.toNumber (Freckles.toNumber nonce + 1).

(** [latest] is the relayer's answer to "the last transaction of this Safe":
    the nonce of [results[0]], if any; [contract] is what the Safe contract's
    [nonce()] call gives, asked only on the fallback path and returned as it
    is. *)
Definition requestNonce (latest : Response (option N)) (contract : Response N)
  : Response N :=
  match latest with
  | Replied (Some n) => Replied (incremented n)
  | Replied None => contract
  | Threw => contract
  end.

(** *** The relayer and the Safe contract *)

(** Neither is code of this repository: [utils.js] sees the relayer through
    [requestRelayer] and the Safe contract through [nonce().call()].  The
    ledger below is what the two hold between the calls; it is used only to
    say when their answers are truthful ([faithful]), and no step of the
    calls reads it. *)

(** The last transaction the relayer accepted for a Safe, and whether it has
    been executed. *)
Record Relayed := mkRelayed {
  relayedNonce : N;
  relayedHash : string;
  finished : bool
}.

(** The external collaborators as [utils.js] can observe them: per Safe, the
    latest transaction known to the relayer and the nonce stored in the Safe
    contract. *)
Record Ledger := mkLedger {
  relayed : gmap string Relayed;
  contractNonces : gmap string N
}.

Definition contractNonce (k : string) (lg : Ledger) : N :=
  default 0%N (contractNonces lg !! k).

(** The relayer accepts a POSTed transaction. *)
Definition accept (k : string) (n : N) (h : string) (lg : Ledger) : Ledger :=
  mkLedger (<[k := mkRelayed n h false]> (relayed lg)) (contractNonces lg).

(** The latest transaction of a Safe is executed: the contract's nonce moves
    past it. *)
Definition mine (k : string) (lg : Ledger) : Ledger :=
  match relayed lg !! k with
  | Some r =>
      mkLedger (<[k := mkRelayed (relayedNonce r) (relayedHash r) true]> (relayed lg))
               (<[k := (relayedNonce r + 1)%N]> (contractNonces lg))
  | None => lg
  end.

(** The Safe is used from elsewhere (another device, another process, a
    transaction sent to the chain directly): the relayer's latest
    transaction of the Safe and the nonce stored in its contract are what
    that leaves them. *)
Definition usedElsewhere (k : string) (latest : Relayed) (stored : N)
                         (lg : Ledger) : Ledger :=
  mkLedger (<[k := latest]> (relayed lg)) (<[k := stored]> (contractNonces lg)).

(** *** [executeSafeTx] and [executeTokenSafeTx] as resumable calls *)

Inductive Method := ExecuteSafeTx | ExecuteTokenSafeTx.

(** Where a pending call is suspended. *)
Inductive Pc :=
| Estimating                            (* before line 379 / 499: awaiting the estimate *)
| Funding (ticket : nat)                (* lines 507-514, executeSafeTx only *)
| Waiting (ticket : nat)                (* lines 178-219, between two attempts *)
| Probing (ticket : nat) (current : Transaction)  (* line 194, awaiting the relayer *)
| Noncing (ticket : nat)                (* line 390 / 525, awaiting requestNonce *)
| Posting (ticket : nat) (nonce : N)    (* line 411 / 546, awaiting the POST *)
| Returned (txHash : option string)     (* line 436 / 441: a hash, or null *)
| Rejected.                             (* the call threw *)

Record Task := mkTask {
  method : Method;
  safeAddress : string;
  pc : Pc
}.

Record World := mkWorld {
  sequencer : Sequencer;
  tasks : list Task;
  ledger : Ledger
}.

(** What resumes a suspended call, with what the outside world answered. *)
Inductive Label :=
| Estimated (i : nat) (ok : bool)
| Funded (i : nat) (enough : bool)
| Attempted (i : nat)
| Probed (i : nat) (response : Response nat)
| Nonced (i : nat) (latest : Response (option N)) (contract : Response N)
| Posted (i : nat) (response : Response string)
| Mined (k : string)
| Garbled (i : nat)
| Lost (i : nat) (txHash : string)
| Elsewhere (k : string) (latest : Relayed) (stored : N).

Definition advance (i : nat) (tk : Task) (p : Pc) (s : Sequencer) (lg : Ledger)
                   (w : World) : World :=
  mkWorld s (<[i := mkTask (method tk) (safeAddress tk) p]> (tasks w)) lg.

(** The ticket a suspended call holds. *)
Definition ticketOf (p : Pc) : option nat :=
  match p with
  | Funding t | Waiting t | Probing t _ | Noncing t | Posting t _ => Some t
  | Estimating | Returned _ | Rejected => None
  end.

(** One step: the synchronous stretch of code a call runs when it is resumed,
    up to its next [await].  [None] when the label does not fit the place the
    call is suspended at.

    - [Estimated]: the checks and the cost estimate are over; on success the
      call takes its ticket (line 379 / 499), otherwise it throws before any
      ticket exists.
    - [Funded]: one round of the balance loop of [executeSafeTx].
    - [Attempted], [Probed]: one attempt of the loop of
      [waitForPendingTransactions].  The loop itself is [~/common/loop], taken
      as the spec describes it and called without a timeout: attempts follow
      one another, [false] means another attempt, [true] ends the wait.
    - [Nonced]: [requestNonce] has its answers; the transaction is signed and
      POSTed.  If the contract call of the fallback path fails the call
      throws, its ticket still in the line.  (An exception of
      [formatTypedData] or [signTypedData], lines 393-407, leaves the call
      and the queue in that same state.)
    - [Posted]: the POST is answered (the [try] / [catch] of lines 410-442 and
      545-577).  An accepted transaction becomes the relayer's latest one of
      the Safe; the POST that fails here was not accepted.
    - [Mined]: the chain executes the latest transaction of a Safe; no call
      takes part.
    - [Garbled]: the estimate arrives with gas figures that are no numbers.
      The call takes its ticket all the same (line 379 / 499);
      [executeSafeTx] then throws in [web3.utils.toBN] (lines 502-505), its
      ticket still in the line, and [executeTokenSafeTx], which computes
      nothing from the figures, goes on to wait.
    - [Lost]: the relayer accepts the POST, with hash [txHash], but its answer
      never arrives and the request throws: the call takes the [catch] of
      lines 437-441 / 572-576, while the transaction is the relayer's latest
      one of the Safe.
    - [Elsewhere]: the Safe is used from elsewhere; no call takes part. *)
Definition step (l : Label) (w : World) : option World :=
  match l with
  | Estimated i ok =>
      tk ← tasks w !! i;
      match pc tk with
      | Estimating =>
          if ok then
            (* line 379 / 499 *)
            let '(ticket, s) := call_queue (safeAddress tk) (sequencer w) in
            let next := match method tk with
                        | ExecuteSafeTx => Funding ticket
                        | ExecuteTokenSafeTx => Waiting ticket
                        end in
            Some (advance i tk next s (ledger w) w)
          else Some (advance i tk Rejected (sequencer w) (ledger w) w)
      | _ => None
      end
  | Funded i enough =>
      tk ← tasks w !! i;
      match pc tk with
      | Funding ticket =>
          Some (advance i tk (if enough then Waiting ticket else Funding ticket)
                        (sequencer w) (ledger w) w)
      | _ => None
      end
  | Attempted i =>
      tk ← tasks w !! i;
      match pc tk with
      | Waiting ticket =>
          let k := safeAddress tk in
          match attemptStart k ticket (transactionQueue (sequencer w)) with
          | Resolved true =>
              Some (advance i tk (Noncing ticket)
                            (mkSequencer (transactionQueue (sequencer w))
                                         (EvTurn k ticket :: history (sequencer w)))
                            (ledger w) w)
          | Resolved false =>
              Some (advance i tk (Waiting ticket) (sequencer w) (ledger w) w)
          | Asking current =>
              Some (advance i tk (Probing ticket current) (sequencer w) (ledger w) w)
          end
      | _ => None
      end
  | Probed i response =>
      tk ← tasks w !! i;
      match pc tk with
      | Probing ticket current =>
          let k := safeAddress tk in
          let '(isReady, s) := attemptFinish k current response (sequencer w) in
          if isReady
          then Some (advance i tk (Noncing ticket)
                             (mkSequencer (transactionQueue s)
                                          (EvTurn k ticket :: history s))
                             (ledger w) w)
          else Some (advance i tk (Waiting ticket) s (ledger w) w)
      | _ => None
      end
  | Nonced i latest contract =>
      tk ← tasks w !! i;
      match pc tk with
      | Noncing ticket =>
          match requestNonce latest contract with
          | Replied n => Some (advance i tk (Posting ticket n) (sequencer w) (ledger w) w)
          | Threw => Some (advance i tk Rejected (sequencer w) (ledger w) w)
          end
      | _ => None
      end
  | Posted i response =>
      tk ← tasks w !! i;
      match pc tk with
      | Posting ticket n =>
          let k := safeAddress tk in
          match response with
          | Replied h =>
              (* lines 430-436 / 565-571 *)
              Some (advance i tk (Returned (Some h))
                            (call_lockTransaction k (mkTransaction h n ticket) (sequencer w))
                            (accept k n h (ledger w)) w)
          | Threw =>
              (* lines 437-441 / 572-576 *)
              Some (advance i tk (Returned None)
                            (call_unqueue k ticket
                               (call_unlockTransaction k ticket (sequencer w)))
                            (ledger w) w)
          end
      | _ => None
      end
  | Mined k =>
      Some (mkWorld (sequencer w) (tasks w) (mine k (ledger w)))
  | Garbled i =>
      tk ← tasks w !! i;
      match pc tk with
      | Estimating =>
          (* line 379 / 499, then lines 502-505 *)
          let '(ticket, s) := call_queue (safeAddress tk) (sequencer w) in
          let next := match method tk with
                      | ExecuteSafeTx => Rejected
                      | ExecuteTokenSafeTx => Waiting ticket
                      end in
          Some (advance i tk next s (ledger w) w)
      | _ => None
      end
  | Lost i h =>
      tk ← tasks w !! i;
      match pc tk with
      | Posting ticket n =>
          (* lines 437-441 / 572-576 *)
          let k := safeAddress tk in
          Some (advance i tk (Returned None)
                        (call_unqueue k ticket
                           (call_unlockTransaction k ticket (sequencer w)))
                        (accept k n h (ledger w)) w)
      | _ => None
      end
  | Elsewhere k latest stored =>
      Some (mkWorld (sequencer w) (tasks w)
                    (usedElsewhere k latest stored (ledger w)))
  end.

(** The call a label resumes ([Mined] and [Elsewhere] resume none). *)
Definition actor (l : Label) : option nat :=
  match l with
  | Estimated i _ | Funded i _ | Attempted i | Probed i _
  | Nonced i _ _ | Posted i _ | Garbled i | Lost i _ => Some i
  | Mined _ | Elsewhere _ _ _ => None
  end.

(** The relayer and the Safe contract answer truthfully: asked about the
    latest transaction of a Safe by hash and nonce, the relayer lists it only
    once it is executed; its answer to "last transaction" carries the nonce
    of the latest transaction it accepted; and the contract's [nonce()] is
    its stored nonce.  Requests may still fail, the POST may be refused, its
    answer may be lost, and the Safe may be in use elsewhere. *)
Definition faithful (w : World) (l : Label) : bool :=
  match l with
  | Probed i (Replied 1) =>
      match tasks w !! i with
      | Some (mkTask _ k (Probing _ current)) =>
          match relayed (ledger w) !! k with
          | Some r =>
              if decide (relayedNonce r = nonce current ∧ relayedHash r = txHash current)
              then finished r else true
          | None => true
          end
      | _ => true
      end
  | Nonced i latest contract =>
      match tasks w !! i with
      | Some tk =>
          let k := safeAddress tk in
          bool_decide ((latest = Threw ∨
                        latest = Replied (relayedNonce <$> relayed (ledger w) !! k)) ∧
                       (contract = Threw ∨
                        contract = Replied (contractNonce k (ledger w))))
      | None => true
      end
  | _ => true
  end.

(** Truthful answers; no answer to a POST is lost, so that a POST that
    throws was not accepted by the relayer; and the Safes are used through
    these calls only. *)
Definition reliable (w : World) (l : Label) : bool :=
  faithful w l &&
  match l with
  | Lost _ _ | Elsewhere _ _ _ => false
  | _ => true
  end.

(** Any answer at all. *)
Definition anything (w : World) (l : Label) : bool := true.

(** The process starts with a fresh queue and some calls about to be made;
    the relayer and the chain are in whatever state they are. *)
Definition initial (lg : Ledger) (calls : list (Method * string)) : World :=
  mkWorld (mkSequencer fresh [])
          ((λ c, mkTask (fst c) (snd c) Estimating) <$> calls)
          lg.

Inductive Reach (allowed : World → Label → bool) : World → Prop :=
| Reach_initial lg calls : Reach allowed (initial lg calls)
| Reach_step w l w' :
    Reach allowed w → allowed w l = true → step l w = Some w' →
    Reach allowed w'.

(** Every interleaving, whatever the collaborators answer. *)
Definition Reachable : World → Prop := Reach anything.

(** Every interleaving, the collaborators answering truthfully. *)
Definition FaithfullyReachable : World → Prop := Reach faithful.

(** Every interleaving, the collaborators answering truthfully, no answer
    to a POST lost, and the Safes used through these calls only. *)
Definition ReliablyReachable : World → Prop := Reach reliable.

Fixpoint run (allowed : World → Label → bool) (ls : list Label) (w : World)
  : option World :=
  match ls with
  | [] => Some w
  | l :: ls' =>
      if allowed w l then w' ← step l w; run allowed ls' w' else None
  end.

(** *** Reading the history *)

(** The lock records that are active according to the history alone: every
    [lockTransaction] adds one, every [unlockTransaction] removes those of
    its ticket. *)
Fixpoint activeLocks (k : string) (h : list Event) : list Transaction :=
  match h with
  | [] => []
  | EvLock k' tx :: h' =>
      if decide (k' = k) then tx :: activeLocks k h' else activeLocks k h'
  | EvUnlock k' t :: h' =>
      if decide (k' = k)
      then filter (λ tx, ticketId tx ≠ t) (activeLocks k h')
      else activeLocks k h'
  | _ :: h' => activeLocks k h'
  end.

(** The nonces recorded by the successive locks of a key, oldest first. *)
Fixpoint lockNonces (k : string) (h : list Event) : list N :=
  match h with
  | [] => []
  | EvLock k' tx :: h' =>
      if decide (k' = k) then lockNonces k h' ++ [nonce tx] else lockNonces k h'
  | _ :: h' => lockNonces k h'
  end.

(** Each element is its predecessor plus one. *)
Fixpoint gapless (ns : list N) : Prop :=
  match ns with
  | n1 :: (n2 :: _) as rest => n2 = (n1 + 1)%N ∧ gapless rest
  | _ => True
  end.

(** The safe integers of JavaScript ([Number.isSafeInteger]): the numbers
    below [2^53], to which 1 is added exactly. *)
Definition safeInteger (n : N) : Prop := (n < 2 ^ 53)%N.

(** Each element that is a safe integer is followed by itself plus one. *)
Fixpoint gaplessWhileSafe (ns : list N) : Prop :=
  match ns with
  | n1 :: (n2 :: _) as rest =>
      (safeInteger n1 → n2 = (n1 + 1)%N) ∧ gaplessWhileSafe rest
  | _ => True
  end.

(** [e1] happened strictly before [e2] (the history is newest first). *)
Definition precedes (e1 e2 : Event) (h : list Event) : Prop :=
  ∃ newer between older, h = newer ++ e2 :: between ++ e1 :: older.

(** The calls suspended between their turn and their outcome: after
    [waitForPendingTransactions] returned, before the POST is answered. *)
Definition submitting (p : Pc) : bool :=
  match p with
  | Noncing _ | Posting _ _ => true
  | _ => false
  end.

End Utils.

(* ===================================================================== *)
(** ** Invariants of the sequencer *)
(* ===================================================================== *)

Module Invariant.
Import Utils.

(** The steps of [Utils.step], one constructor per branch: the call of key
    [k] suspended at the first place moves to the second, taking the
    sequencer and the ledger from the first to the second state. *)
Inductive Move (i : nat) (k : string) (m : Method)
  : Label → Pc → Pc → Sequencer → Sequencer → Ledger → Ledger → Prop :=
| MvQueue s lg :
    Move i k m (Estimated i true) Estimating
         (match m with
          | ExecuteSafeTx => Funding (call_queue k s).1
          | ExecuteTokenSafeTx => Waiting (call_queue k s).1
          end)
         s (call_queue k s).2 lg lg
| MvRefused s lg :
    Move i k m (Estimated i false) Estimating Rejected s s lg lg
| MvFunded enough t s lg :
    Move i k m (Funded i enough) (Funding t)
         (if enough then Waiting t else Funding t) s s lg lg
| MvTurn t s lg :
    isLocked k (transactionQueue s) = false →
    isNextInQueue k t (transactionQueue s) = true →
    Move i k m (Attempted i) (Waiting t) (Noncing t)
         s (mkSequencer (transactionQueue s) (EvTurn k t :: history s)) lg lg
| MvNotYet t s lg :
    Move i k m (Attempted i) (Waiting t) (Waiting t) s s lg lg
| MvAsk t current s lg :
    locks (transactionQueue s) !! k = Some current →
    Move i k m (Attempted i) (Waiting t) (Probing t current) s s lg lg
| MvDone t current s lg :
    Move i k m (Probed i (Replied 1)) (Probing t current) (Waiting t)
         s (call_unqueue k (ticketId current)
              (call_unlockTransaction k (ticketId current) s)) lg lg
| MvPending t current r s lg :
    r ≠ Replied 1 →
    Move i k m (Probed i r) (Probing t current) (Waiting t) s s lg lg
| MvNonce t latest contract n s lg :
    requestNonce latest contract = Replied n →
    Move i k m (Nonced i latest contract) (Noncing t) (Posting t n) s s lg lg
| MvNonceFailed t latest contract s lg :
    requestNonce latest contract = Threw →
    Move i k m (Nonced i latest contract) (Noncing t) Rejected s s lg lg
| MvPosted t n h s lg :
    Move i k m (Posted i (Replied h)) (Posting t n) (Returned (Some h))
         s (call_lockTransaction k (mkTransaction h n t) s) lg (accept k n h lg)
| MvPostFailed t n s lg :
    Move i k m (Posted i Threw) (Posting t n) (Returned None)
         s (call_unqueue k t (call_unlockTransaction k t s)) lg lg
| MvGarbled s lg :
    Move i k m (Garbled i) Estimating
         (match m with
          | ExecuteSafeTx => Rejected
          | ExecuteTokenSafeTx => Waiting (call_queue k s).1
          end)
         s (call_queue k s).2 lg lg
| MvLost t n h s lg :
    Move i k m (Lost i h) (Posting t n) (Returned None)
         s (call_unqueue k t (call_unlockTransaction k t s)) lg (accept k n h lg).

(** The most recent lock recorded for a key. *)
Fixpoint lastLock (k : string) (h : list Event) : option Transaction :=
  match h with
  | [] => None
  | EvLock k' tx :: h' => if decide (k' = k) then Some tx else lastLock k h'
  | _ :: h' => lastLock k h'
  end.

(** What holds of the queue and its history alone. *)
Record SeqInv (s : Sequencer) : Prop := mkSeqInv {
  seq_sorted : ∀ k, StronglySorted lt (line k (transactionQueue s));
  seq_bound : ∀ k t,
    t ∈ line k (transactionQueue s) → t ≤ lastTicketId (transactionQueue s);
  seq_lock_head : ∀ k tx,
    locks (transactionQueue s) !! k = Some tx →
    head (line k (transactionQueue s)) = Some (ticketId tx);
  seq_lock_last : ∀ k tx,
    locks (transactionQueue s) !! k = Some tx → lastLock k (history s) = Some tx;
  seq_lock_bound : ∀ k tx,
    EvLock k tx ∈ history s → ticketId tx ≤ lastTicketId (transactionQueue s);
  seq_lock_unique : ∀ k k' tx tx',
    EvLock k tx ∈ history s → EvLock k' tx' ∈ history s →
    ticketId tx = ticketId tx' → tx = tx';
  seq_lock_turn : ∀ k tx,
    EvLock k tx ∈ history s → EvTurn k (ticketId tx) ∈ history s;
  seq_lock_retired : ∀ k tx,
    EvLock k tx ∈ history s →
    locks (transactionQueue s) !! k = Some tx ∨
    ticketId tx ∉ line k (transactionQueue s);
  seq_active : ∀ k,
    activeLocks k (history s) = option_list (locks (transactionQueue s) !! k);
  seq_queue_bound : ∀ k t,
    EvQueue k t ∈ history s → t ≤ lastTicketId (transactionQueue s);
  seq_queue_order : ∀ k k' a b,
    precedes (EvQueue k a) (EvQueue k' b) (history s) → a < b;
  seq_line_queued : ∀ k t,
    t ∈ line k (transactionQueue s) → EvQueue k t ∈ history s;
  seq_queued : ∀ k t,
    EvQueue k t ∈ history s →
    t ∈ line k (transactionQueue s) ∨ EvTurn k t ∈ history s;
  seq_turn_queued : ∀ k t,
    EvTurn k t ∈ history s → EvQueue k t ∈ history s;
  seq_fifo : ∀ k a b,
    precedes (EvQueue k a) (EvQueue k b) (history s) →
    EvTurn k b ∈ history s →
    precedes (EvTurn k a) (EvTurn k b) (history s)
}.

(** A call holds ticket [t] of key [k]: the ticket stands in the line and no
    lock was ever recorded for it. *)
Definition Holds (s : Sequencer) (k : string) (t : nat) : Prop :=
  t ∈ line k (transactionQueue s) ∧
  ∀ k' tx, EvLock k' tx ∈ history s → ticketId tx ≠ t.

(** The key is free and [t] is at the head of its line. *)
Definition Turn (s : Sequencer) (k : string) (t : nat) : Prop :=
  locks (transactionQueue s) !! k = None ∧
  head (line k (transactionQueue s)) = Some t ∧
  EvTurn k t ∈ history s.

(** What holds of a suspended call of key [k]. *)
Definition TaskOk (s : Sequencer) (k : string) (p : Pc) : Prop :=
  match p with
  | Funding t | Waiting t => Holds s k t
  | Probing t current => Holds s k t ∧ EvLock k current ∈ history s
  | Noncing t | Posting t _ => Holds s k t ∧ Turn s k t
  | Estimating | Returned _ | Rejected => True
  end.

Record Inv (w : World) : Prop := mkInv {
  inv_seq : SeqInv (sequencer w);
  inv_task : ∀ i tk,
    tasks w !! i = Some tk → TaskOk (sequencer w) (safeAddress tk) (pc tk);
  inv_distinct : ∀ i j tk tk' t,
    tasks w !! i = Some tk → tasks w !! j = Some tk' →
    ticketOf (pc tk) = Some t → ticketOf (pc tk') = Some t → i = j
}.

(** What truthful collaborators add when no answer to a POST is lost and the
    Safes are used through these calls only ([Utils.reliable]): the
    relayer's latest transaction of a key is the one of the key's last lock;
    once executed the contract's nonce is one past it; it is executed as
    soon as the lock is gone; and a call about to POST carries the next
    nonce, as long as the last one is a safe integer. *)
Record LedgerInv (w : World) : Prop := mkLedgerInv {
  led_latest : ∀ k tx,
    lastLock k (history (sequencer w)) = Some tx →
    ∃ r, relayed (ledger w) !! k = Some r ∧
         relayedNonce r = nonce tx ∧ relayedHash r = txHash tx;
  led_contract : ∀ k tx r,
    lastLock k (history (sequencer w)) = Some tx →
    relayed (ledger w) !! k = Some r → finished r = true →
    contractNonce k (ledger w) = (nonce tx + 1)%N;
  led_finished : ∀ k tx r,
    lastLock k (history (sequencer w)) = Some tx →
    locks (transactionQueue (sequencer w)) !! k = None →
    relayed (ledger w) !! k = Some r → finished r = true;
  led_posting : ∀ i tk t n tx,
    tasks w !! i = Some tk → pc tk = Posting t n →
    lastLock (safeAddress tk) (history (sequencer w)) = Some tx →
    safeInteger (nonce tx) → n = (nonce tx + 1)%N;
  led_nonces : ∀ k,
    gaplessWhileSafe (lockNonces k (history (sequencer w))) ∧
    last (lockNonces k (history (sequencer w)))
    = nonce <$> lastLock k (history (sequencer w))
}.

End Invariant.

(* ===================================================================== *)
(** ** A run of three calls on one Safe, and one on another *)
(* ===================================================================== *)

Module Scenario.
Import Utils.
Local Open Scope string_scope.

Definition safeX : string := "0x5AfE0000000000000000000000000000000000A1".
Definition safeY : string := "0x5AfE0000000000000000000000000000000000B2".

(** The relayer last saw nonce 9 of [safeX], executed since. *)
Definition ledger0 : Ledger :=
  mkLedger {[ safeX := mkRelayed 9 "0xh0" true ]} {[ safeX := 10%N ]}.

Definition calls0 : list (Method * string) :=
  [ (ExecuteTokenSafeTx, safeX); (ExecuteTokenSafeTx, safeX);
    (ExecuteSafeTx, safeX); (ExecuteSafeTx, safeY) ].

Definition tx1 : Transaction := mkTransaction "0xh1" 10 1.
Definition tx2 : Transaction := mkTransaction "0xh2" 11 2.

(** Tickets 1, 2, 3 are taken on [safeX] and 4 on [safeY]; ticket 1 gets its
    turn and its nonce. *)
Definition opening : list Label :=
  [ Estimated 0 true; Estimated 1 true; Estimated 2 true; Estimated 3 true;
    Attempted 0; Attempted 1;
    Nonced 0 (Replied (Some 9%N)) (Replied 10%N) ].

(** Ticket 1 is submitted and locks [safeX]. *)
Definition justLocked : list Label :=
  opening ++ [ Posted 0 (Replied "0xh1") ].

(** Tickets 2 and 3 ask the relayer about it. *)
Definition submitted : list Label :=
  justLocked ++ [ Funded 2 true; Attempted 1; Attempted 2 ].

(** The relayer confirms to ticket 2, and fails to answer ticket 3. *)
Definition confirmed : list Label :=
  submitted ++ [ Probed 1 (Replied 0); Mined safeX; Attempted 1;
                 Probed 1 (Replied 1); Probed 2 Threw ].

(** Ticket 2 gets its turn, its nonce from the contract, and locks. *)
Definition handover : list Label :=
  confirmed ++ [ Attempted 1; Nonced 1 Threw (Replied 11%N);
                 Posted 1 (Replied "0xh2") ].

(** As [handover], but the relayer names 50 as the nonce of its latest
    transaction of [safeX], which is 10. *)
Definition misinformed : list Label :=
  confirmed ++ [ Attempted 1; Nonced 1 (Replied (Some 50%N)) (Replied 11%N);
                 Posted 1 (Replied "0xh2") ].

(** As [handover], but the answer to the POST of ticket 2 is lost: the
    relayer holds its transaction, of nonce 11, and the call returns [null];
    ticket 3 gets its turn, its nonce, and locks. *)
Definition unanswered : list Label :=
  confirmed ++ [ Attempted 1; Nonced 1 (Replied (Some 10%N)) (Replied 11%N);
                 Lost 1 "0xh2";
                 Attempted 2; Nonced 2 (Replied (Some 11%N)) (Replied 11%N);
                 Posted 2 (Replied "0xh3") ].

(** As [handover], but in between the Safe is used from elsewhere: the
    relayer's latest transaction of [safeX] is one of nonce 11, executed. *)
Definition interfered : list Label :=
  confirmed ++ [ Elsewhere safeX (mkRelayed 11 "0xe1" true) 12;
                 Attempted 1; Nonced 1 (Replied (Some 11%N)) (Replied 12%N);
                 Posted 1 (Replied "0xh2") ].

Definition start : World := initial ledger0 calls0.

Definition after (ls : list Label) : World :=
  default start (run faithful ls start).

Definition afterMisinformed : World :=
  default start (run anything misinformed start).

Definition afterUnanswered : World :=
  default start (run faithful unanswered start).

Definition afterInterfered : World :=
  default start (run faithful interfered start).

(** Two calls on a Safe whose next nonce is [2^53]: the relayer last saw
    nonce [2^53 - 1], executed since.  The first call locks with [2^53]; the
    chain executes its transaction and the second call, told so, takes its
    turn, its nonce and locks. *)
Definition ledgerAtLimit : Ledger :=
  mkLedger {[ safeX := mkRelayed 9007199254740991 "0xh0" true ]}
           {[ safeX := 9007199254740992%N ]}.

Definition startAtLimit : World :=
  initial ledgerAtLimit [ (ExecuteTokenSafeTx, safeX); (ExecuteTokenSafeTx, safeX) ].

Definition atLimit : list Label :=
  [ Estimated 0 true; Estimated 1 true; Attempted 0;
    Nonced 0 (Replied (Some 9007199254740991%N)) (Replied 9007199254740992%N);
    Posted 0 (Replied "0xh1");
    Mined safeX; Attempted 1; Probed 1 (Replied 1); Attempted 1;
    Nonced 1 (Replied (Some 9007199254740992%N)) (Replied 9007199254740993%N);
    Posted 1 (Replied "0xh2") ].

Definition afterLimit : World :=
  default startAtLimit (run reliable atLimit startAtLimit).

(** A queue with tickets 1 and 2 in the line of [safeX], locked for
    ticket 1. *)
Definition lockedQueue : TransactionQueue :=
  mkQueue 2 {[ safeX := [1; 2] ]} {[ safeX := tx1 ]}.

Definition lockedSequencer : Sequencer :=
  mkSequencer lockedQueue
    [ EvLock safeX tx1; EvTurn safeX 1; EvQueue safeX 2; EvQueue safeX 1 ].

End Scenario.

(* ===================================================================== *)
(** ** Tickets left behind, and who owns a lock *)
(* ===================================================================== *)

Module Blocking.
Import Utils.

(** Ticket [t] of key [k] has been left behind by its call: it is first in
    the line of an unlocked key, no suspended call holds it, and no lock was
    ever recorded for it.  This is where [executeSafeTx] and
    [executeTokenSafeTx] leave their ticket when [requestNonce] throws
    (line 390 / 525): the exception leaves the call before the [try] of
    line 410 / 545, whose [catch] is the only place that unqueues one's own
    ticket. *)
Record Abandoned (k : string) (t : nat) (w : World) : Prop := mkAbandoned {
  abandoned_unlocked :
    locks (transactionQueue (sequencer w)) !! k = None;
  abandoned_head :
    head (line k (transactionQueue (sequencer w))) = Some t;
  abandoned_unheld :
    ∀ j tk, tasks w !! j = Some tk → ticketOf (pc tk) ≠ Some t;
  abandoned_never_locked :
    ∀ k' tx, EvLock k' tx ∈ history (sequencer w) → ticketId tx ≠ t
}.

(** Every [lockTransaction] on record was made by a call that has returned
    the hash it locked with (lines 430-436 / 565-571). *)
Definition LocksReturned (w : World) : Prop :=
  ∀ k tx, EvLock k tx ∈ history (sequencer w) →
    ∃ i tk, tasks w !! i = Some tk ∧ safeAddress tk = k ∧
            pc tk = Returned (Some (txHash tx)).

(** The call is over: it returned or threw. *)
Definition settled (p : Pc) : bool :=
  match p with
  | Returned _ | Rejected => true
  | _ => false
  end.

(** Three calls on [safeX] and one on [safeY] have their tickets; ticket 1 has
    its turn and waits for its nonce. *)
Definition admitted : list Label :=
  [ Estimated 0 true; Estimated 1 true; Estimated 2 true; Estimated 3 true;
    Attempted 0 ].

(** What the others do while ticket 1 lies abandoned: they poll, the call of
    [safeY] goes all the way. *)
Definition meanwhile : list Label :=
  [ Attempted 1; Funded 2 true; Attempted 2; Funded 3 true; Attempted 3;
    Nonced 3 Threw (Replied 0%N); Posted 3 (Replied "0xh4");
    Attempted 1; Attempted 2 ].

(** [requestNonce] fails for ticket 1: the relayer does not answer and the
    contract call is rejected. *)
Definition abandoned : World :=
  default Scenario.start
    (step (Nonced 0 Threw Threw) (Scenario.after admitted)).

Definition stalled : World :=
  default abandoned (run anything meanwhile abandoned).

End Blocking.

(* ===================================================================== *)
(** ** [src/utils.js]: requests to the relayer, the graph node and the API *)
(* ===================================================================== *)

Module Http.
Import Utils.
Local Open Scope string_scope.

(** [Array.prototype.join] on an array of strings. *)
Fixpoint join (separator : string) (elements : list string) : string :=
  match elements with
  | [] => ""
  | first :: rest =>
      match rest with
      | [] => first
      | _ :: _ => first ++ separator ++ join separator rest
      end
  end.

(** Every element with a slash before it. *)
Definition slashed (elements : list string) : string :=
  foldr (λ element rest, "/" ++ element ++ rest) "" elements.

(** [String.prototype.includes]. *)
Fixpoint includes (searchString s : string) : bool :=
  String.prefix searchString s
  || match s with
     | "" => false
     | String _ rest => includes searchString rest
     end.

(** *** What is passed to [request], and to [fetch] *)

(** The object literals that the sources pass as [data]: none at all (the
    default [{}]), the one of [estimateTransactionCosts] (lines 152-159) and
    the one of [requestGraph] (lines 127-130), whose [variables] are left
    [undefined] when there are none. *)
Inductive Data (Value : Type) :=
| EmptyObject
| Estimate (safe data to : string) (value : Z) (operation : N) (gasToken : string)
| GraphQuery (query : list N) (variables : option (list (string * Value))).
Arguments EmptyObject {Value}.
Arguments Estimate {Value} safe data to value operation gasToken.
Arguments GraphQuery {Value} query variables.

(** The options of [request] (lines 17-33): [path] is required, the others
    have defaults. *)
Record RequestOptions (Value : Type) := mkRequestOptions {
  path : list string;
  method : option string;
  data : option (Data Value);
  isTrailingSlash : option bool
}.
Arguments mkRequestOptions {Value} path method data isTrailingSlash.
Arguments path {Value} _.
Arguments method {Value} _.
Arguments data {Value} _.
Arguments isTrailingSlash {Value} _.

(** The options of [requestRelayer] (lines 81-97). *)
Record RelayerOptions (Value : Type) := mkRelayerOptions {
  relayerPath : list string;
  version : option N;
  relayerMethod : option string;
  relayerData : option (Data Value)
}.
Arguments mkRelayerOptions {Value} relayerPath version relayerMethod relayerData.
Arguments relayerPath {Value} _.
Arguments version {Value} _.
Arguments relayerMethod {Value} _.
Arguments relayerData {Value} _.

(** The options of [requestAPI] (lines 591-603). *)
Record ApiOptions (Value : Type) := mkApiOptions {
  apiPath : list string;
  apiMethod : option string;
  apiData : option (Data Value)
}.
Arguments mkApiOptions {Value} apiPath apiMethod apiData.
Arguments apiPath {Value} _.
Arguments apiMethod {Value} _.
Arguments apiData {Value} _.

(** The second argument of [fetch] (lines 37-42, 48). *)
Record Init := mkInit {
  initMethod : string;
  contentType : string;
  body : option string
}.

(** What [request] looks at in the response of [fetch]. *)
Record FetchResponse (Json Body : Type) := mkFetchResponse {
  status : nat;
  contentTypeHeader : option string;   (* response.headers.get('Content-Type') *)
  json : Response Json;                (* response.json() *)
  responseBody : Body                  (* response.body *)
}.
Arguments mkFetchResponse {Json Body} status contentTypeHeader json responseBody.
Arguments status {Json Body} _.
Arguments contentTypeHeader {Json Body} _.
Arguments json {Json Body} _.
Arguments responseBody {Json Body} _.

(** [fetch(url, request)] throws on the spot, or returns a promise that is
    rejected or resolves to a response. *)
Inductive Fetched (Json Body : Type) :=
| FetchThrows (message : string)
| FetchRejects
| FetchResolves (response : FetchResponse Json Body).
Arguments FetchThrows {Json Body} message.
Arguments FetchRejects {Json Body}.
Arguments FetchResolves {Json Body} response.

(** What a [RequestError] is built from besides the URL. *)
Inductive ErrorBody (Json Body : Type) :=
| OfJson (json : Json)
| OfBody (body : Body)
| OfMessage (message : string).
Arguments OfJson {Json Body} json.
Arguments OfBody {Json Body} body.
Arguments OfMessage {Json Body} message.

(** How a call of [request] and of its callers ends: with a value, with a
    [RequestError], or with the rejection of [fetch], of [response.json()]
    or of a property access, passed on as it is. *)
Inductive Outcome (Json Body Value : Type) :=
| Resolves (value : Value)
| RequestError (url : string) (body : ErrorBody Json Body) (status : option nat)
| Rejects.
Arguments Resolves {Json Body Value} value.
Arguments RequestError {Json Body Value} url body status.
Arguments Rejects {Json Body Value}.

Section Requests.
Context {Value Json Body GraphData : Type}.

(** [~/common/parameterize], which is not among the sources: the query string
    of an object. *)
Variable parameterize : Data Value → string.
(** [JSON.stringify]. *)
Variable stringify : Data Value → string.
(** [response.data] (line 134): the property of whatever [request] resolved
    to; the access throws on [null]. *)
Variable dataOf : Json + Body → Response GraphData.
(** [~/common/constants]. *)
Variable CALL_OP : N.
Variable ZERO_ADDRESS : string.
(** [isomorphic-fetch]. *)
Variable fetch : string → Init → Fetched Json Body.

(** *** [request] (lines 16-78) *)

(** Lines 35-53: the URL. *)
Definition urlOf (endpoint : string) (userOptions : RequestOptions Value)
  : string :=
  let method := default "GET" (method userOptions) in
  let data := default EmptyObject (data userOptions) in
  let paramsStr := if String.eqb method "GET" then parameterize data else "" in
  let slash := if default true (isTrailingSlash userOptions) then "/" else "" in
  endpoint ++ "/" ++ join "/" (path userOptions) ++ slash ++ paramsStr.

(** Lines 37-49: the request. *)
Definition initOf (userOptions : RequestOptions Value) : Init :=
  let method := default "GET" (method userOptions) in
  let data := default EmptyObject (data userOptions) in
  mkInit method "application/json"
         (if String.eqb method "GET" then None else Some (stringify data)).

(** Line 59: the response announces JSON. *)
Definition isJson (response : FetchResponse Json Body) : bool :=
  match contentTypeHeader response with
  | Some contentType => includes "application/json" contentType
  | None => false
  end.

(** Lines 56-74: the callback of [then]. *)
Definition respond (url : string) (response : FetchResponse Json Body)
  : Outcome Json Body (Json + Body) :=
  if isJson response then
    match json response with
    | Replied json =>
        if (400 <=? status response)%nat
        then RequestError url (OfJson json) (Some (status response))
        else Resolves (inl json)
    | Threw => Rejects
    end
  else
    if (400 <=? status response)%nat
    then RequestError url (OfBody (responseBody response)) (Some (status response))
    else Resolves (inr (responseBody response)).

(** Lines 55-77: [fetch] and what becomes of its answer. *)
Definition exchange (url : string) (init : Init)
  : Outcome Json Body (Json + Body) :=
  match fetch url init with
  | FetchResolves response => respond url response
  | FetchRejects => Rejects
  | FetchThrows message => RequestError url (OfMessage message) None
  end.

Definition request (endpoint : string) (userOptions : RequestOptions Value)
  : Outcome Json Body (Json + Body) :=
  exchange (urlOf endpoint userOptions) (initOf userOptions).

(** *** [requestRelayer] (lines 80-106) *)

Definition requestRelayer (endpoint : string)
                          (userOptions : RelayerOptions Value)
  : Outcome Json Body (Json + Body) :=
  let path := relayerPath userOptions in
  let method := default "GET" (relayerMethod userOptions) in
  let data := default EmptyObject (relayerData userOptions) in
  let version := default 1%N (version userOptions) in
  request endpoint
    (mkRequestOptions (["api"; "v" ++ Freckles.decimal version] ++ path)
                      (Some method) (Some data) None).

(** *** [requestGraph] (lines 108-135) *)

(** What the regular expression class [\s] matches: the white space and line
    terminator code units of ECMAScript. *)
Definition isWhiteSpace (c : N) : bool :=
  match c with
  | 9 | 10 | 11 | 12 | 13 | 32 | 160 | 5760 | 8232 | 8233 | 8239 | 8287
  | 12288 | 65279 => true
  | _ => (8192 <=? c) && (c <=? 8202)
  end%N.

(** [query.replace(/\s\s+/g, ' ')] on the code units of the query, read from
    the left: a white-space unit followed by another starts a match, which
    takes every white-space unit that follows and is replaced by one space;
    a white-space unit on its own is kept.  [inMatch] says that the units
    just read belong to a match. *)
Fixpoint replaceRuns (inMatch : bool) (query : list N) : list N :=
  match query with
  | [] => []
  | c :: rest =>
      if isWhiteSpace c then
        if inMatch then replaceRuns true rest
        else match rest with
             | d :: _ =>
                 if isWhiteSpace d then 32%N :: replaceRuns true rest
                 else c :: replaceRuns false rest
             | [] => [c]
             end
      else c :: replaceRuns false rest
  end.

(** The options of [requestGraph] (lines 109-117); [variables] is an object,
    given by its entries. *)
Record GraphOptions := mkGraphOptions {
  graphQuery : list N;
  graphVariables : option (list (string * Value))
}.

(** Lines 119-132: the options handed to [request]. *)
Definition graphRequest (subgraphName : string) (userOptions : GraphOptions)
  : RequestOptions Value :=
  let query := replaceRuns false (graphQuery userOptions) in
  let given := default [] (graphVariables userOptions) in
  let variables := if (length given =? 0)%nat then None else Some given in
  mkRequestOptions ["subgraphs"; "name"; subgraphName] (Some "POST")
                   (Some (GraphQuery query variables)) (Some false).

Definition requestGraph (endpoint subgraphName : string)
                        (userOptions : GraphOptions)
  : Outcome Json Body GraphData :=
  match request endpoint (graphRequest subgraphName userOptions) with
  | Resolves response =>
      match dataOf response with
      | Replied data => Resolves data
      | Threw => Rejects
      end
  | RequestError url body status => RequestError url body status
  | Rejects => Rejects
  end.

(** *** [estimateTransactionCosts] (lines 137-161) *)

Record EstimateOptions := mkEstimateOptions {
  estimateSafeAddress : string;
  estimateTo : string;
  estimateTxData : string;
  estimateValue : option Z;
  estimateGasToken : option string;
  estimateOperation : option N
}.

Definition estimateTransactionCosts (endpoint : string) (o : EstimateOptions)
  : Outcome Json Body (Json + Body) :=
  let safeAddress := estimateSafeAddress o in
  let value := default 0%Z (estimateValue o) in
  let gasToken := default ZERO_ADDRESS (estimateGasToken o) in
  let operation := default CALL_OP (estimateOperation o) in
  requestRelayer endpoint
    (mkRelayerOptions ["safes"; safeAddress; "transactions"; "estimate"]
                      (Some 2%N) (Some "POST")
                      (Some (Estimate safeAddress (estimateTxData o) (estimateTo o)
                                      value operation gasToken))).

(** *** The estimates of [executeTokenSafeTx] and [executeSafeTx] *)

(** How the part of a call that comes before its ticket ends: with the error
    of line 357, with the rejection of [hub.methods.userToToken], or with
    whatever the estimate request comes to. *)
Inductive Estimation :=
| TokenNotFound
| HubRejects
| Requested (outcome : Outcome Json Body (Json + Body)).

(** [executeTokenSafeTx] up to its ticket (lines 348-376); [userToToken] is
    what [hub.methods.userToToken(safeAddress).call()] answers. *)
Definition executeTokenSafeTxEstimate (relayServiceEndpoint : string)
    (userToToken : Response string) (safeAddress to txData : string)
  : Estimation :=
  let operation := CALL_OP in
  let value := 0%Z in
  match userToToken with
  | Threw => HubRejects
  | Replied tokenAddress =>
      if String.eqb tokenAddress ZERO_ADDRESS then TokenNotFound
      else
        let gasToken := tokenAddress in
        Requested
          (estimateTransactionCosts relayServiceEndpoint
             (mkEstimateOptions safeAddress to txData (Some value)
                                (Some gasToken) (Some operation)))
  end.

(** [executeSafeTx] up to its ticket (lines 461-496): [gasToken], [txData]
    and [value] have the defaults [ZERO_ADDRESS], ['0x'] and [0]. *)
Definition executeSafeTxEstimate (relayServiceEndpoint : string)
    (safeAddress to : string) (gasToken txData : option string)
    (value : option Z)
  : Estimation :=
  let operation := CALL_OP in
  Requested
    (estimateTransactionCosts relayServiceEndpoint
       (mkEstimateOptions safeAddress to (default "0x" txData)
                          (Some (default 0%Z value))
                          (Some (default ZERO_ADDRESS gasToken))
                          (Some operation))).

(** *** [requestAPI] (lines 590-610) *)

Definition requestAPI (usernameServiceEndpoint : string)
                      (userOptions : ApiOptions Value)
  : Outcome Json Body (Json + Body) :=
  let method := default "GET" (apiMethod userOptions) in
  let data := default EmptyObject (apiData userOptions) in
  request usernameServiceEndpoint
    (mkRequestOptions (["api"] ++ apiPath userOptions) (Some method) (Some data)
                      None).

(** *** [src/safe.js]: [deployForOrganization] (lines 529-545) *)

(** [utils.requestRelayer] is [requestRelayer] at the relayer's endpoint
    (lines 308-310). *)
Definition deployForOrganization (relayServiceEndpoint safeAddress : string)
  : Outcome Json Body bool :=
  match requestRelayer relayServiceEndpoint
          (mkRelayerOptions ["safes"; safeAddress; "organization"]
                            (Some 2%N) (Some "PUT") None) with
  | Resolves _ => Resolves true
  | RequestError url body status => RequestError url body status
  | Rejects => Rejects
  end.

End Requests.

(** The first code unit is white space. *)
Definition startsSpaced (query : list N) : bool :=
  match query with
  | c :: _ => isWhiteSpace c
  | [] => false
  end.

(** No two white-space code units in a row. *)
Fixpoint singleSpaced (query : list N) : bool :=
  match query with
  | c :: (d :: _) as rest =>
      negb (isWhiteSpace c && isWhiteSpace d) && singleSpaced rest
  | _ => true
  end.

End Http.

(* ===================================================================== *)
(** ** The Safe module ([src/unnamed/part_000], [src/safe.js]) and
       [src/organization.js] *)
(* ===================================================================== *)

Module Script.

(** What is thrown: the errors the sources construct, a [TypeError] of the
    language, the timeout of [~/common/loop], or whatever a collaborator
    rejects with ([code] is the [code] property of the error, if any). *)
Inductive ErrorCode := INSUFFICIENT_FUNDS.

Inductive Error :=
| CoreError (message : string) (code : option ErrorCode)
| SafeDeployedError (message : string)
| SafeAlreadyDeployedError (message : string)
| SafeNotTrustError (message : string)
| LoopTimeout (label : string)
| TypeError
| External (code : option Z).

(** [error.code]. *)
Definition codeOf (error : Error) : option Z :=
  match error with
  | External code => code
  | _ => None
  end.

(** The calls that change something outside the process.  [data] and [raw]
    are hexadecimal strings. *)
Inductive Effect :=
| SendSignedTransaction (raw : string)                 (* web3.eth.sendSignedTransaction *)
| UtilsSendTransaction (target : string) (data : string) (* utils.sendTransaction *)
| TrustAddConnection (user canSendTo : string).        (* trust.addConnection *)

#[global] Instance Effect_eq_dec : EqDecision Effect.
Proof. solve_decision. Defined.

(** How an async function ends: the outside calls it has made, in order, and
    the value it resolved to or the error it was rejected with. *)
Definition Script (A : Type) : Type := list Effect * (Error + A).

#[global] Instance Script_ret : MRet Script := λ A a, ([], inr a).

#[global] Instance Script_bind : MBind Script := λ A B f m,
  match m with
  | (effects, inr a) => let '(more, result) := f a in (effects ++ more, result)
  | (effects, inl e) => (effects, inl e)
  end.

Definition throw {A} (e : Error) : Script A := ([], inl e).

(** [await] of a call that only reads: its rejection is thrown on. *)
Definition await {A} (answer : Error + A) : Script A := ([], answer).

(** [await] of a call that acts on the outside. *)
Definition perform {A} (effect : Effect) (answer : Error + A) : Script A :=
  ([effect], answer).

(** [promise.catch(handler)]. *)
Definition catch {A} (m : Script A) (handler : Error → Script A) : Script A :=
  match m with
  | (effects, inl e) => let '(more, result) := handler e in (effects ++ more, result)
  | (effects, inr a) => (effects, inr a)
  end.

Definition effects {A} (m : Script A) : list Effect := m.1.
Definition result {A} (m : Script A) : Error + A := m.2.

End Script.

Module Safe.
Import Script.
Local Open Scope string_scope.

(** The contract calls the sources encode with [encodeABI()]. *)
Inductive ContractCall :=
| OrganizationSignup
| TransferThrough (tokenOwners sources destinations values : list string)
| Setup (owners : list string) (threshold : N) (to data fallbackHandler : string)
        (paymentToken : string) (payment : N) (paymentReceiver : string)
| CreateProxyWithNonce (masterCopy initializer : string) (saltNonce : N)
| ChangeMasterCopy (masterCopy : string)
| SetFallbackHandler (handler : string).

(** The [transactionData] object of the callers of [sendTransaction]. *)
Record TransactionData := mkTransactionData {
  txTo : string;
  txData : string;
  txValue : option Z
}.

(** What [safeSdk.createTransaction] is given as [safeTransactionData]. *)
Record SafeTransactionData := mkSafeTransactionData {
  to : string;
  value : Z;
  data : string
}.

(** The transaction [deploySafe] signs with the owner's key. *)
Record OwnTransaction := mkOwnTransaction {
  ownFrom : string;
  ownTo : string;
  ownValue : Z;
  ownData : string
}.

Section Module.
Context {Receipt : Type}.

(** What the collaborators of the Safe module answer: the protocol kit, web3
    and the [utils] module. *)
Record Collaborators := mkCollaborators {
  (* safeFactory.predictSafeAddress({ owners: [owner], threshold: 1 }, nonce) *)
  predictSafeAddress : string → N → Error + string;
  (* ethAdapter.isContractDeployed(safeAddress) *)
  isContractDeployed : string → Error + bool;
  (* the first safeSdk.getContractVersion() of updateToLastVersion *)
  getContractVersion : string → Error + string;
  (* the same call, as the n-th action of the loop *)
  polledVersion : string → nat → Poller.Attempt string;
  (* Safe.create, safeSdk.createTransaction, safeSdk.signTransaction and the
     encoding of execTransaction: signer, Safe, transaction *)
  prepare : string → string → SafeTransactionData → Error + string;
  (* web3.eth.getTransactionCount(address) *)
  getTransactionCount : string → Error + N;
  (* web3.eth.signTransaction(transaction, address): the raw transaction *)
  signTransaction : OwnTransaction → string → Error + string;
  (* web3.eth.sendSignedTransaction(raw) *)
  sendSignedTransaction : string → Error + unit;
  (* utils.requestIndexedDB('trust_network', address): the trusts of the
     response, if there is a response (an object or undefined) and it has
     any *)
  trustNetwork : string → Error + option (list string);
  (* utils.sendTransaction({ target, data }) *)
  sendTransaction : string → string → Error + Receipt
}.

(** [~/common/constants] and the options of the module. *)
Variable ZERO_ADDRESS : string.
Variable SAFE_LAST_VERSION : string.
Variable DEFAULT_TRUST_LIMIT : nat.
Variable proxyFactoryAddress safeMasterAddress fallbackHandlerAddress : string.
(** [safeMaster.options.address]. *)
Variable safeMasterContractAddress : string.
(** [contract.methods.f(...).encodeABI()] and [String.prototype.toLowerCase]. *)
Variable encodeABI : ContractCall → string.
Variable toLowerCase : string → string.
(** The waiting time and the deadline [~/common/loop] uses when its options
    name none. *)
Variable loopIntervalMs : nat.
Variable loopTimeoutMs : option nat.

Variable env : Collaborators.

(** [_createTransaction] ([part_000], lines 135-156): the transaction is
    created with [{ value: 0, ...transactionData }], signed and encoded. *)
Definition _createTransaction (signerAddress safeAddress : string)
                              (transactionData : TransactionData)
  : Script string :=
  await (prepare env signerAddress safeAddress
           (mkSafeTransactionData (txTo transactionData)
                                  (default 0%Z (txValue transactionData))
                                  (txData transactionData))).

(** [target || safeAddress]: a target that is missing or the empty string
    gives way to the Safe. *)
Definition targetOr (target : option string) (safeAddress : string) : string :=
  match target with
  | Some address => if String.eqb address "" then safeAddress else address
  | None => safeAddress
  end.

(** [_sendTransaction] ([part_000], lines 168-183). *)
Definition _sendTransaction (signerAddress safeAddress : string)
                            (target : option string)
                            (transactionData : TransactionData)
  : Script Receipt :=
  data ← _createTransaction signerAddress safeAddress transactionData;
  perform (UtilsSendTransaction (targetOr target safeAddress) data)
          (sendTransaction env (targetOr target safeAddress) data).

(** [sendTransaction] ([part_000], lines 562-584); [account] is
    [account.address], [userTarget] the option [target], whose default is
    [ZERO_ADDRESS] and which is handed on only when it is another address. *)
Definition sendTransactionOf (account safeAddress : string)
                             (userTarget : option string)
                             (transactionData : TransactionData)
  : Script Receipt :=
  let target := default ZERO_ADDRESS userTarget in
  _sendTransaction account safeAddress
    (if String.eqb target ZERO_ADDRESS then None else Some target)
    transactionData.

(** The transaction the owner signs and sends in [deploySafe] ([part_000],
    lines 343-356). *)
Definition sendOwnTransaction (account data : string) : Script unit :=
  _ ← await (getTransactionCount env account);
  raw ← await (signTransaction env
                 (mkOwnTransaction account proxyFactoryAddress 0 data) account);
  perform (SendSignedTransaction raw) (sendSignedTransaction env raw).

(** The data of the deployment ([part_000], lines 327-341). *)
Definition deploymentData (account : string) (nonce : N) : string :=
  let initializer :=
    encodeABI (Setup [account] 1 ZERO_ADDRESS "0x" fallbackHandlerAddress
                     ZERO_ADDRESS 0 ZERO_ADDRESS) in
  encodeABI (CreateProxyWithNonce safeMasterAddress initializer nonce).

(** [deploySafe] of [src/safe.js] (lines 232-272), under another name since
    [part_000] has a [deploySafe] of its own: the deployment always goes
    through [utils.sendTransaction].  [_predictAddress] and [_isDeployed]
    answer as [predictSafeAddress] and [isContractDeployed] of the
    collaborators. *)
Definition deploySafeRelayed (account : string) (nonce : N) : Script string :=
  safeAddress ← await (predictSafeAddress env account nonce);
  isSafeDeployed ← await (isContractDeployed env safeAddress);
  if isSafeDeployed : bool then
    throw (SafeDeployedError
             ("Safe with nonce " ++ Freckles.decimal nonce ++ " is already deployed."))
  else
    let data := deploymentData account nonce in
    _ ← perform (UtilsSendTransaction proxyFactoryAddress data)
                (sendTransaction env proxyFactoryAddress data);
    mret safeAddress.

(** [deploySafe] ([part_000], lines 309-383). *)
Definition deploySafe (account : string) (nonce : N) : Script string :=
  safeAddress ← await (predictSafeAddress env account nonce);
  isSafeDeployed ← await (isContractDeployed env safeAddress);
  if isSafeDeployed : bool then
    throw (SafeAlreadyDeployedError
             ("Safe with nonce " ++ Freckles.decimal nonce ++ " is already deployed."))
  else
    let data := deploymentData account nonce in
    _ ← catch
          (sendOwnTransaction account data)
          (λ error,
             if bool_decide (codeOf error = Some (-32003)%Z) then
               trusts ← await (trustNetwork env (toLowerCase safeAddress));
               let isTrusted :=
                 (DEFAULT_TRUST_LIMIT <=? length (default [] trusts))%nat in
               if isTrusted then
                 _ ← perform (UtilsSendTransaction proxyFactoryAddress data)
                             (sendTransaction env proxyFactoryAddress data);
                 mret ()
               else
                 throw (SafeNotTrustError
                          "The Safe has no minimun required trusts to be fund.")
             else throw error);
    mret safeAddress.

(** [updateToLastVersion] ([part_000], lines 595-646; [src/safe.js], lines
    437-512).  The loop is [Poller.poll], unfolded for [fuel] attempts:
    [None] says that it is still polling after that many. *)
Definition updateToLastVersion (fuel : nat) (account safeAddress : string)
  : option (Script string) :=
  match getContractVersion env safeAddress with
  | inl error => Some (throw error)
  | inr safeVersion =>
      if String.eqb safeVersion SAFE_LAST_VERSION then Some (mret safeVersion)
      else
        let upgrade : Script Receipt :=
          _ ← _sendTransaction account safeAddress None
                (mkTransactionData safeAddress
                   (encodeABI (ChangeMasterCopy safeMasterContractAddress)) None);
          _sendTransaction account safeAddress None
            (mkTransactionData safeAddress
               (encodeABI (SetFallbackHandler fallbackHandlerAddress)) None) in
        match upgrade with
        | (sent, inl error) => Some (sent, inl error)
        | (sent, inr _) =>
            match Poller.poll fuel (polledVersion env safeAddress)
                    (λ version, String.eqb version SAFE_LAST_VERSION)
                    (Poller.mkOptions loopIntervalMs loopTimeoutMs
                       "Waiting for CRC Safe to upgrade version") 0 0 with
            | Some (Poller.Satisfied version _) => Some (sent, inr version)
            | Some (Poller.TimedOut label _) => Some (sent, inl (LoopTimeout label))
            | None => None
            end
        end
  end.

End Module.
End Safe.

Module Organization.
Import Script Safe.
Local Open Scope string_scope.

(** What [utils.requestIndexedDB('organization_status', owner)] resolves to
    (lines 196-211): nothing, or an object whose [user], if any, has an [id]
    and [safes], each with an [id] and the flag [organization]. *)
Record SafeEntry := mkSafeEntry {
  safeId : string;
  organization : bool
}.

Record User := mkUser {
  userId : string;
  safes : list SafeEntry
}.

Record Status := mkStatus {
  user : option User
}.

(** An element of the list [getMembers] returns. *)
Record Member := mkMember {
  ownerAddress : string;
  safeAddresses : list string
}.

Section Module.
Context {Receipt : Type}.

(** What the collaborators of the organization module answer, besides those
    of the Safe module. *)
Record Collaborators := mkCollaborators {
  safe : Safe.Collaborators (Receipt := Receipt);
  (* hub.methods.organizations(address).call() *)
  organizations : string → Error + bool;
  (* hub.methods.userToToken(address).call() *)
  userToToken : string → Error + string;
  (* tokenContract.methods.balanceOf(owner).call() of the token at an
     address, read as a number *)
  balanceOf : string → string → Error + Z;
  (* trust.addConnection(account, { user, canSendTo }) *)
  addConnection : string → string → Error + unit;
  (* utils.loop(() => hub.methods.limits(to, from).call(),
                (trustLimit) => trustLimit === '100') *)
  awaitFullTrust : string → string → Error + unit;
  (* safe.getOwners(account, { safeAddress }) *)
  getOwners : string → Error + list string;
  (* utils.requestIndexedDB('organization_status', ownerAddress) *)
  organizationStatus : string → Error + option Status
}.

Variable ZERO_ADDRESS : string.
Variable hubAddress : string.
Variable encodeABI : ContractCall → string.
Variable toChecksumAddress : string → string.

Variable env : Collaborators.

(** [safe.sendTransaction] of the Safe module. *)
Definition safeSendTransaction : string → string → option string
                                 → TransactionData → Script Receipt :=
  Safe.sendTransactionOf ZERO_ADDRESS (safe env).

(** [deploy] (lines 29-45); [account] is [account.address]. *)
Definition deploy (account safeAddress : string) : Script Receipt :=
  safeSendTransaction account safeAddress None
    (mkTransactionData hubAddress (encodeABI OrganizationSignup) None).

(** [isOrganization] (lines 55-65). *)
Definition isOrganization (safeAddress : string) : Script bool :=
  await (organizations env safeAddress).

(** [prefund] (lines 85-167); [value] is the number held by the [BN]
    [userOptions.value]. *)
Definition prefund (account from to : string) (value : Z) : Script Receipt :=
  isOrganization ← await (organizations env to);
  if negb isOrganization then
    throw (CoreError "Given address is not an organization" None)
  else
    tokenAddress ← await (userToToken env from);
    if String.eqb tokenAddress ZERO_ADDRESS then
      throw (CoreError "No token given to pay transaction"
                       (Some INSUFFICIENT_FUNDS))
    else
      balance ← await (balanceOf env tokenAddress from);
      if negb (value <=? balance)%Z then
        throw (CoreError "No sufficient funds to pay transaction"
                         (Some INSUFFICIENT_FUNDS))
      else
        _ ← perform (TrustAddConnection from to) (addConnection env from to);
        _ ← await (awaitFullTrust env to from);
        let txData :=
          encodeABI (TransferThrough [from] [from] [to] [Freckles.showZ value]) in
        safeSendTransaction account from None
          (mkTransactionData hubAddress txData None).

(** The inner [reduce] of [getMembers] (lines 203-209). *)
Definition safeAddressesOf (user : User) : list string :=
  foldl (λ acc safe,
           if negb (organization safe)
           then (acc ++ [toChecksumAddress (safeId safe)])%list
           else acc)
        [] (safes user).

(** The object pushed for a user (lines 201-210). *)
Definition memberOf (user : User) : Member :=
  mkMember (toChecksumAddress (userId user)) (safeAddressesOf user).

(** The callback of the outer [reduce] (lines 196-212).  The accumulator is
    an array or [undefined]; [push] on [undefined] is a [TypeError]. *)
Definition collectMember (acc : option (list Member)) (result : option Status)
  : Error + option (list Member) :=
  match result with
  | None => inr None
  | Some status =>
      match user status with
      | None => inr None
      | Some user =>
          match acc with
          | None => inl TypeError
          | Some members =>
              inr (Some (members ++ [memberOf user])%list)
          end
      end
  end.

(** [Array.prototype.reduce] with an initial value. *)
Fixpoint reduce (results : list (option Status)) (acc : option (list Member))
  : Error + option (list Member) :=
  match results with
  | [] => inr acc
  | result :: rest =>
      match collectMember acc result with
      | inl error => inl error
      | inr acc' => reduce rest acc'
      end
  end.

(** [Promise.all]: the results in order, or the rejection of one of the
    promises (here, of the first in the list that is rejected). *)
Fixpoint all {A} (promises : list (Error + A)) : Error + list A :=
  match promises with
  | [] => inr []
  | inl error :: _ => inl error
  | inr a :: rest =>
      match all rest with
      | inl error => inl error
      | inr results => inr (a :: results)
      end
  end.

(** [getMembers] (lines 177-213). *)
Definition getMembers (safeAddress : string) : Script (option (list Member)) :=
  owners ← await (getOwners env safeAddress);
  results ← await (all (organizationStatus env <$> owners));
  await (reduce results (Some [])).

End Module.
End Organization.

(* ===================================================================== *)
(** ** An owner without funds, and an organization with two owners *)
(* ===================================================================== *)

Module SafeScenario.
Import Script Safe Organization.
Local Open Scope string_scope.

Definition zero : string := "0x0000000000000000000000000000000000000000".
Definition factory : string := "0xFactory".
Definition master : string := "0xMaster".
Definition handler : string := "0xHandler".
Definition lastVersion : string := "1.3.0".

(** The calls by name, for want of the real encoding. *)
Definition encode (call : ContractCall) : string :=
  match call with
  | OrganizationSignup => "organizationSignup"
  | TransferThrough _ _ _ _ => "transferThrough"
  | Setup _ _ _ _ _ _ _ _ => "setup"
  | CreateProxyWithNonce _ _ _ => "createProxyWithNonce"
  | ChangeMasterCopy _ => "changeMasterCopy"
  | SetFallbackHandler _ => "setFallbackHandler"
  end.

(** The predicted Safe is not deployed; the owner cannot pay for the
    deployment (error code -32003); the Safe has three trusts; it is at
    version 1.1.1 and reaches the last version at the third poll. *)
Definition safeModule : Safe.Collaborators (Receipt := string) :=
  Safe.mkCollaborators
    (λ _ _, inr "0xSafe")
    (λ _, inr false)
    (λ _, inr "1.1.1")
    (λ _ n, Poller.mkAttempt
              (Poller.Yields (if (n <? 2)%nat then "1.1.1" else "1.3.0")) 5)
    (λ _ _ transaction, inr ("exec:" ++ data transaction))
    (λ _, inr 7%N)
    (λ _ _, inr "0xraw")
    (λ _, inl (External (Some (-32003)%Z)))
    (λ _, inr (Some ["0xA"; "0xB"; "0xC"]))
    (λ _ _, inr "0xreceipt").

Definition alice : User :=
  mkUser "0xa" [mkSafeEntry "0xs1" false; mkSafeEntry "0xorg" true;
                mkSafeEntry "0xs2" false].

(** [0xOrg] is an organization owned by [0xA]; any other Safe is owned by
    [0xA] and [0xB], and the index knows [0xA] only. *)
Definition organizationModule : Organization.Collaborators (Receipt := string) :=
  Organization.mkCollaborators safeModule
    (λ address, inr (String.eqb address "0xOrg"))
    (λ _, inr "0xToken")
    (λ _ _, inr 5%Z)
    (λ _ _, inr ())
    (λ _ _, inr ())
    (λ safeAddress, if String.eqb safeAddress "0xOrg"
                    then inr ["0xA"] else inr ["0xA"; "0xB"])
    (λ owner, if String.eqb owner "0xA"
              then inr (Some (mkStatus (Some alice))) else inr None).

End SafeScenario.

(* ===================================================================== *)
(** ** Facts about the queue operations *)
(* ===================================================================== *)

Module QueueFacts.
Import Queue.

Implicit Types (q : TransactionQueue) (k : string) (t : nat) (tx : Transaction).

Lemma line_unqueue q k k' t :
  line k' (unqueue k t q)
  = if decide (k = k') then filter (λ x, x ≠ t) (line k' q) else line k' q.
Proof.
  unfold line, unqueue; simpl. rewrite lookup_alter.
  case_decide; [subst | done]. now destruct (waiting q !! k').
Qed.

Lemma line_queue q k k' :
  line k' (queue k q).2
  = if decide (k = k') then line k' q ++ [S (lastTicketId q)] else line k' q.
Proof.
  unfold line at 1, queue; simpl. rewrite lookup_insert.
  case_decide; now subst.
Qed.

Lemma line_lockTransaction q k k' tx : line k' (lockTransaction k tx q) = line k' q.
Proof. done. Qed.

Lemma line_unlockTransaction q k k' t : line k' (unlockTransaction k t q) = line k' q.
Proof. unfold unlockTransaction. now repeat case_match. Qed.

Lemma locks_unqueue q k t : locks (unqueue k t q) = locks q.
Proof. done. Qed.

Lemma locks_queue q k : locks (queue k q).2 = locks q.
Proof. done. Qed.

Lemma locks_unlockTransaction q k k' t :
  locks (unlockTransaction k t q) !! k'
  = match locks q !! k' with
    | Some tx => if decide (k = k' ∧ ticketId tx = t) then None else Some tx
    | None => None
    end.
Proof.
  unfold unlockTransaction.
  destruct (locks q !! k) as [tx|] eqn:Hk.
  - case_decide as Ht; simpl.
    + rewrite lookup_delete. case_decide as Hkk.
      * subst k'. rewrite Hk. now rewrite decide_True.
      * destruct (locks q !! k'); [|done]. rewrite decide_False; [done|]. now intros [? _].
    + destruct (locks q !! k') as [tx'|] eqn:Hk'; [|done].
      rewrite decide_False; [done|]. intros [-> ?]. congruence.
  - destruct (locks q !! k') as [tx'|] eqn:Hk'; [|done].
    rewrite decide_False; [done|]. intros [-> ?]. congruence.
Qed.

Lemma lastTicketId_unlockTransaction q k t :
  lastTicketId (unlockTransaction k t q) = lastTicketId q.
Proof. unfold unlockTransaction. now repeat case_match. Qed.

Lemma waiting_unlockTransaction q k t :
  waiting (unlockTransaction k t q) = waiting q.
Proof. unfold unlockTransaction. now repeat case_match. Qed.

Lemma unlockTransaction_unlocked q k t :
  locks q !! k = None → unlockTransaction k t q = q.
Proof. unfold unlockTransaction. now intros ->. Qed.

Lemma unlockTransaction_idem q k t :
  unlockTransaction k t (unlockTransaction k t q) = unlockTransaction k t q.
Proof.
  unfold unlockTransaction at 2 3.
  destruct (locks q !! k) as [tx|] eqn:Hk.
  - case_decide.
    + apply unlockTransaction_unlocked. simpl. apply lookup_delete_eq.
    + unfold unlockTransaction. rewrite Hk. now rewrite decide_False.
  - now apply unlockTransaction_unlocked.
Qed.

Lemma filter_ne_idem (l : list nat) t :
  filter (λ x, x ≠ t) (filter (λ x, x ≠ t) l) = filter (λ x, x ≠ t) l.
Proof.
  induction l as [|x l IH]; [done|].
  rewrite filter_cons. case_decide; [|done].
  rewrite filter_cons, decide_True by done. now f_equal.
Qed.

Lemma unqueue_idem q k t : unqueue k t (unqueue k t q) = unqueue k t q.
Proof.
  unfold unqueue; simpl. f_equal.
  apply map_eq; intros k'. destruct (decide (k = k')) as [<-|Hne].
  - rewrite !lookup_alter_eq. destruct (waiting q !! k); simpl; [|done].
    now rewrite filter_ne_idem.
  - now rewrite !lookup_alter_ne.
Qed.

Lemma unqueue_unlockTransaction_comm q k t k' t' :
  unqueue k t (unlockTransaction k' t' q) = unlockTransaction k' t' (unqueue k t q).
Proof.
  unfold unlockTransaction, unqueue; simpl.
  destruct (locks q !! k'); [case_decide|]; done.
Qed.

Lemma isLocked_false q k : isLocked k q = false ↔ locks q !! k = None.
Proof.
  unfold isLocked. rewrite bool_decide_eq_false, <- eq_None_not_Some. done.
Qed.

Lemma isLocked_true q k : isLocked k q = true ↔ is_Some (locks q !! k).
Proof. unfold isLocked. now rewrite bool_decide_eq_true. Qed.

Lemma isNextInQueue_true q k t :
  isNextInQueue k t q = true ↔ head (line k q) = Some t.
Proof. unfold isNextInQueue. now rewrite bool_decide_eq_true. Qed.

End QueueFacts.

(* ===================================================================== *)
(** ** Facts about histories and steps *)
(* ===================================================================== *)

Module HistoryFacts.
Import Utils Invariant.

Implicit Types (h : list Event) (e : Event) (k : string) (t : nat).

Lemma precedes_nil e1 e2 : ¬ precedes e1 e2 [].
Proof. intros (newer & between & older & H). now destruct newer. Qed.

Lemma precedes_cons e1 e2 e h :
  precedes e1 e2 (e :: h) ↔ (e = e2 ∧ e1 ∈ h) ∨ precedes e1 e2 h.
Proof.
  split.
  - intros (newer & between & older & H). destruct newer as [|e' newer].
    + injection H as -> ->. left. split; [done|].
      apply elem_of_app. right. left.
    + injection H as -> ->. right. now exists newer, between, older.
  - intros [[-> Hin] | (newer & between & older & ->)].
    + apply list_elem_of_split in Hin as (between & older & ->).
      now exists [], between, older.
    + now exists (e :: newer), between, older.
Qed.

Lemma precedes_elem_of e1 e2 h : precedes e1 e2 h → e1 ∈ h ∧ e2 ∈ h.
Proof.
  intros (newer & between & older & ->). split.
  - apply elem_of_app. right. right. apply elem_of_app. right. left.
  - apply elem_of_app. right. left.
Qed.

Lemma lastLock_elem_of k tx h : lastLock k h = Some tx → EvLock k tx ∈ h.
Proof.
  induction h as [|e h IH]; [done|]. simpl.
  destruct e; try (intros ?; right; now auto).
  case_decide as Hk.
  - intros [= ->]. subst. left.
  - intros ?. right. auto.
Qed.

Lemma lockNonces_app_last k h tx :
  lockNonces k (EvLock k tx :: h) = lockNonces k h ++ [nonce tx].
Proof. simpl. now rewrite decide_True. Qed.

Lemma gaplessWhileSafe_snoc (ns : list N) (n : N) :
  gaplessWhileSafe ns →
  (∀ m, last ns = Some m → safeInteger m → n = (m + 1)%N) →
  gaplessWhileSafe (ns ++ [n]).
Proof.
  induction ns as [|a [|b ns] IH]; simpl.
  - done.
  - intros _ H. split; [|done]. now apply H.
  - intros [Hab Hg] H. split; [done|]. apply IH; [done|]. intros m Hm. now apply H.
Qed.

(** Among safe integers the two readings of "no gaps" agree. *)
Lemma gaplessWhileSafe_gapless (ns : list N) :
  gaplessWhileSafe ns → Forall safeInteger ns → gapless ns.
Proof.
  induction ns as [|a [|b ns] IH]; [done..|].
  intros [Hab Hg] [Ha Hrest]%Forall_cons. split; [exact (Hab Ha)|exact (IH Hg Hrest)].
Qed.

End HistoryFacts.

Module StepFacts.
Import Utils Invariant.

(** [Utils.step] takes exactly the moves of [Invariant.Move]. *)
Lemma step_Move l w w' :
  step l w = Some w' →
  (∃ k, l = Mined k ∧ w' = mkWorld (sequencer w) (tasks w) (mine k (ledger w))) ∨
  (∃ k latest stored,
      l = Elsewhere k latest stored ∧
      w' = mkWorld (sequencer w) (tasks w) (usedElsewhere k latest stored (ledger w))) ∨
  (∃ i tk p s lg,
      tasks w !! i = Some tk ∧
      Move i (safeAddress tk) (method tk) l (pc tk) p (sequencer w) s (ledger w) lg ∧
      w' = advance i tk p s lg w).
Proof.
  destruct l as [i ok|i enough|i|i r|i latest contract|i r|k|i|i h|k latest stored];
    simpl;
    [| | | | | |intros [= <-]; left; eauto| | |intros [= <-]; right; left; eauto];
    (destruct (tasks w !! i) as [tk|] eqn:Htk; simpl; [|done]);
    (destruct (pc tk) as [|t|t|t cur|t|t n|res|] eqn:Hpc; try done);
    intros Hstep; right; right; exists i, tk.
  - destruct ok; injection Hstep as <-; eexists _, _, _;
      (split; [done|]); (split; [|reflexivity]); rewrite Hpc.
    + apply MvQueue.
    + apply MvRefused.
  - injection Hstep as <-. eexists _, _, _.
    split; [done|]. split; [|reflexivity]. rewrite Hpc. apply MvFunded.
  - unfold attemptStart in Hstep.
    destruct (isLocked (safeAddress tk) (transactionQueue (sequencer w))) eqn:Hl;
      simpl in Hstep.
    + unfold getCurrentTransaction in Hstep.
      destruct (locks (transactionQueue (sequencer w)) !! safeAddress tk)
        as [cur|] eqn:Hc;
        injection Hstep as <-; eexists _, _, _;
        (split; [done|]); (split; [|reflexivity]); rewrite Hpc.
      * now apply MvAsk.
      * apply MvNotYet.
    + destruct (isNextInQueue (safeAddress tk) t (transactionQueue (sequencer w)))
        eqn:Hn;
        injection Hstep as <-; eexists _, _, _;
        (split; [done|]); (split; [|reflexivity]); rewrite Hpc.
      * now apply MvTurn.
      * apply MvNotYet.
  - destruct r as [|[|[|n]]]; simpl in Hstep; injection Hstep as <-;
      eexists _, _, _; (split; [done|]); (split; [|reflexivity]); rewrite Hpc;
      first [apply MvDone | now apply MvPending].
  - destruct (requestNonce latest contract) as [|n] eqn:Hn; injection Hstep as <-;
      eexists _, _, _; (split; [done|]); (split; [|reflexivity]); rewrite Hpc.
    + now apply MvNonceFailed.
    + now apply MvNonce.
  - destruct r as [|h]; injection Hstep as <-;
      eexists _, _, _; (split; [done|]); (split; [|reflexivity]); rewrite Hpc.
    + apply MvPostFailed.
    + apply MvPosted.
  - injection Hstep as <-. eexists _, _, _.
    split; [done|]. split; [|reflexivity]. rewrite Hpc. apply MvGarbled.
  - injection Hstep as <-. eexists _, _, _.
    split; [done|]. split; [|reflexivity]. rewrite Hpc. apply MvLost.
Qed.

Lemma step_Attempted_turn w j tk t :
  tasks w !! j = Some tk → pc tk = Waiting t →
  isLocked (safeAddress tk) (transactionQueue (sequencer w)) = false →
  isNextInQueue (safeAddress tk) t (transactionQueue (sequencer w)) = true →
  step (Attempted j) w
  = Some (advance j tk (Noncing t)
            (mkSequencer (transactionQueue (sequencer w))
                         (EvTurn (safeAddress tk) t :: history (sequencer w)))
            (ledger w) w).
Proof.
  intros Hj Hpc Hfree Hnext. unfold step. rewrite Hj. simpl. rewrite Hpc.
  unfold attemptStart. now rewrite Hfree, Hnext.
Qed.

End StepFacts.

Module SeqInvFacts.
Import Utils Invariant QueueFacts HistoryFacts.

Implicit Types (s : Sequencer) (k : string) (t : nat) (tx : Transaction).

Lemma sorted_filter_ne (l : list nat) t :
  StronglySorted lt l → StronglySorted lt (filter (λ x, x ≠ t) l).
Proof.
  induction l as [|x l IH]; [done|].
  rewrite StronglySorted_cons. intros [Hall Hs].
  rewrite filter_cons. case_decide as Hdec; [|auto].
  apply StronglySorted_cons. split; [|auto].
  apply Forall_forall. intros y Hy. apply list_elem_of_filter in Hy as [_ Hy].
  rewrite Forall_forall in Hall. auto.
Qed.

Lemma sorted_head_le (l : list nat) a b :
  StronglySorted lt l → head l = Some b → a ∈ l → b ≤ a.
Proof.
  destruct l as [|x l]; [done|]. simpl. intros Hs [= ->] Ha.
  apply StronglySorted_cons in Hs as [Hall _]. rewrite Forall_forall in Hall.
  apply elem_of_cons in Ha as [->|Ha]; [lia|]. specialize (Hall _ Ha). lia.
Qed.

Lemma head_filter_ne (l : list nat) t x :
  head l = Some x → x ≠ t → head (filter (λ y, y ≠ t) l) = Some x.
Proof.
  destruct l; [done|]. simpl. intros [= ->] ?. now rewrite filter_cons_True.
Qed.

Lemma head_snoc_Some (l : list nat) x t :
  head l = Some x → head (l ++ [t]) = Some x.
Proof. now destruct l. Qed.

Lemma precedes_cons_ne e1 e2 e h :
  e ≠ e2 → precedes e1 e2 (e :: h) ↔ precedes e1 e2 h.
Proof.
  intros Hne. rewrite precedes_cons. split; [|now right].
  now intros [[? _]|?].
Qed.

Lemma call_queue_eq s k :
  call_queue k s
  = (S (lastTicketId (transactionQueue s)),
     mkSequencer (queue k (transactionQueue s)).2
                 (EvQueue k (S (lastTicketId (transactionQueue s))) :: history s)).
Proof. done. Qed.

(** [transactionQueue.queue] keeps the invariant. *)
Lemma SeqInv_queue s k : SeqInv s → SeqInv (call_queue k s).2.
Proof.
  intros [Hsort Hbound Hhead Hlast Hlbound Huniq Hlturn Hret Hact Hqbound Hqord
          Hlq Hq Htq Hfifo].
  rewrite call_queue_eq.
  split; cbn [snd transactionQueue history lastLock activeLocks];
    change (lastTicketId (queue k (transactionQueue s)).2)
      with (S (lastTicketId (transactionQueue s)));
    change (locks (queue k (transactionQueue s)).2)
      with (locks (transactionQueue s)).
  - intros k'. rewrite line_queue. case_decide as Hdec; [subst k'|done].
    apply StronglySorted_app_2; [|done|repeat constructor].
    intros x1 x2 H1 ->%list_elem_of_singleton. apply Hbound in H1. lia.
  - intros k' t. rewrite line_queue. case_decide as Hdec.
    + intros [H| ->%list_elem_of_singleton]%elem_of_app; [|lia].
      apply Hbound in H. lia.
    + intros H%Hbound. lia.
  - intros k' tx Hl. rewrite line_queue. specialize (Hhead _ _ Hl).
    case_decide as Hdec; [subst|done]. now apply head_snoc_Some.
  - done.
  - intros k' tx [?|H]%elem_of_cons; [done|]. apply Hlbound in H. lia.
  - intros k1 k2 tx tx' [?|H1]%elem_of_cons [?|H2]%elem_of_cons; try done. eauto.
  - intros k' tx [?|H]%elem_of_cons; [done|]. right. eauto.
  - intros k' tx [?|H]%elem_of_cons; [done|].
    destruct (Hret _ _ H) as [?|Hout]; [now left|right].
    rewrite line_queue. case_decide as Hdec; [subst k'|done].
    intros [?|Heq%list_elem_of_singleton]%elem_of_app; [done|].
    apply Hlbound in H. lia.
  - done.
  - intros k' t [[= -> ->]|H]%elem_of_cons; [lia|]. apply Hqbound in H. lia.
  - intros k1 k2 a b [[[= <- <-] H]|H]%precedes_cons.
    + apply Hqbound in H. lia.
    + eauto.
  - intros k' t. rewrite line_queue. case_decide as Hdec.
    + subst k'. intros [H| ->%list_elem_of_singleton]%elem_of_app; [right; auto|left].
    + right. auto.
  - intros k' t [[= -> ->]|H]%elem_of_cons.
    + left. rewrite line_queue, decide_True by done. apply elem_of_app. right. left.
    + destruct (Hq _ _ H) as [Hin|Ht]; [left|right; now right].
      rewrite line_queue. case_decide as Hdec; [|done]. subst. apply elem_of_app. now left.
  - intros k' t [?|H]%elem_of_cons; [done|]. right. auto.
  - intros k' a b [[[= <- <-] Ha]|Hp]%precedes_cons [?|Hb]%elem_of_cons; try done.
    + apply Htq, Hqbound in Hb. lia.
    + apply precedes_cons. right. auto.
Qed.

(** Recording that a ticket's turn has come keeps the invariant. *)
Lemma SeqInv_turn s k t :
  SeqInv s → head (line k (transactionQueue s)) = Some t →
  SeqInv (mkSequencer (transactionQueue s) (EvTurn k t :: history s)).
Proof.
  intros [Hsort Hbound Hhead Hlast Hlbound Huniq Hlturn Hret Hact Hqbound Hqord
          Hlq Hq Htq Hfifo] Ht.
  split; simpl; try done.
  - intros k' tx [?|H]%elem_of_cons; [done|]. eauto.
  - intros k1 k2 tx tx' [?|H1]%elem_of_cons [?|H2]%elem_of_cons; try done. eauto.
  - intros k' tx [?|H]%elem_of_cons; [done|]. right. eauto.
  - intros k' tx [?|H]%elem_of_cons; [done|]. eauto.
  - intros k' t' [?|H]%elem_of_cons; [done|]. eauto.
  - intros k1 k2 a b H%precedes_cons_ne; [|done]. eauto.
  - intros k' t' H. right. auto.
  - intros k' t' [?|H]%elem_of_cons; [done|].
    destruct (Hq _ _ H); [now left|right; now right].
  - intros k' t' [[= -> ->]|H]%elem_of_cons.
    + right. apply Hlq. now apply head_Some_elem_of.
    + right. auto.
  - intros k' a b Hp%precedes_cons_ne [[= -> ->]|Hb]%elem_of_cons; try done.
    + apply precedes_cons. left. split; [done|].
      pose proof (Hqord _ _ _ _ Hp) as Hlt.
      destruct (precedes_elem_of _ _ _ Hp) as [Ha _].
      destruct (Hq _ _ Ha) as [Hin|?]; [|done].
      pose proof (sorted_head_le _ _ _ (Hsort k) Ht Hin). lia.
    + apply precedes_cons. right. auto.
Qed.

(** Unlocking and unqueueing a ticket whose turn has come keeps the
    invariant. *)
Lemma SeqInv_retire s k t :
  SeqInv s → EvTurn k t ∈ history s →
  SeqInv (call_unqueue k t (call_unlockTransaction k t s)).
Proof.
  intros [Hsort Hbound Hhead Hlast Hlbound Huniq Hlturn Hret Hact Hqbound Hqord
          Hlq Hq Htq Hfifo] Ht.
  assert (Hline : ∀ k', line k' (unqueue k t (unlockTransaction k t (transactionQueue s)))
                  = if decide (k = k')
                    then filter (λ x, x ≠ t) (line k' (transactionQueue s))
                    else line k' (transactionQueue s)).
  { intros k'. rewrite line_unqueue. now rewrite !line_unlockTransaction. }
  split; simpl.
  - intros k'. rewrite Hline. case_decide as Hdec; [|done]. now apply sorted_filter_ne.
  - intros k' t'. rewrite Hline, lastTicketId_unlockTransaction.
    case_decide as Hdec; [|now eauto]. intros [_ H]%list_elem_of_filter. eauto.
  - intros k' tx. rewrite Hline, locks_unlockTransaction.
    destruct (locks (transactionQueue s) !! k') as [tx'|] eqn:Hl; [|done].
    case_decide as Hd; [done|]. intros [= ->]. specialize (Hhead _ _ Hl).
    case_decide as Hdec; [|done]. subst k'. apply head_filter_ne; [done|]. tauto.
  - intros k' tx. rewrite locks_unlockTransaction.
    destruct (locks (transactionQueue s) !! k') as [tx'|] eqn:Hl; [|done].
    case_decide as Hd; [done|]. intros [= ->]. auto.
  - intros k' tx [?|[?|H]%elem_of_cons]%elem_of_cons; try done.
    rewrite lastTicketId_unlockTransaction. eauto.
  - intros k1 k2 tx tx' [?|[?|H1]%elem_of_cons]%elem_of_cons
           [?|[?|H2]%elem_of_cons]%elem_of_cons; try done. eauto.
  - intros k' tx [?|[?|H]%elem_of_cons]%elem_of_cons; try done.
    right. right. eauto.
  - intros k' tx [?|[?|H]%elem_of_cons]%elem_of_cons; try done.
    rewrite Hline, locks_unlockTransaction.
    destruct (Hret _ _ H) as [Hl|Hout].
    + rewrite Hl. case_decide as Hd; [right|now left].
      destruct Hd as [-> <-]. rewrite decide_True by done.
      intros [? _]%list_elem_of_filter. done.
    + right. case_decide as Hdec; [|done].
      intros [_ ?]%list_elem_of_filter. done.
  - intros k'. rewrite locks_unlockTransaction, Hact.
    destruct (locks (transactionQueue s) !! k') as [tx'|] eqn:Hl; simpl.
    + destruct (decide (k = k')) as [->|Hne].
      * rewrite filter_cons, filter_nil. case_decide as Hdec.
        -- rewrite decide_False; [done|]. tauto.
        -- rewrite decide_True; [done|]. split; [done|]. now apply dec_stable.
      * rewrite decide_False; [done|]. tauto.
    + now case_decide as Hdec.
  - intros k' t' [?|[?|H]%elem_of_cons]%elem_of_cons; try done.
    rewrite lastTicketId_unlockTransaction. eauto.
  - intros k1 k2 a b H%precedes_cons_ne; [|done].
    apply precedes_cons_ne in H; [|done]. eauto.
  - intros k' t'. rewrite Hline. intros H. right. right.
    case_decide as Hdec; [apply list_elem_of_filter in H as [_ H]|]; auto.
  - intros k' t' [?|[?|H]%elem_of_cons]%elem_of_cons; try done.
    rewrite Hline.
    destruct (Hq _ _ H) as [Hin|?]; [|right; right; now right].
    destruct (decide (k = k')) as [->|Hne]; [|now left].
    destruct (decide (t' = t)) as [->|Hnet]; [right; right; now right|].
    left. now apply list_elem_of_filter.
  - intros k' t' [?|[?|H]%elem_of_cons]%elem_of_cons; try done. right. right. auto.
  - intros k' a b Hp%precedes_cons_ne; [|done].
    apply precedes_cons_ne in Hp; [|done].
    intros [?|[?|Hb]%elem_of_cons]%elem_of_cons; try done.
    apply precedes_cons. right. apply precedes_cons. right. auto.
Qed.

(** Locking a free key for the ticket at the head of its line keeps the
    invariant. *)
Lemma SeqInv_lock s k tx :
  SeqInv s →
  locks (transactionQueue s) !! k = None →
  head (line k (transactionQueue s)) = Some (ticketId tx) →
  EvTurn k (ticketId tx) ∈ history s →
  (∀ k' tx', EvLock k' tx' ∈ history s → ticketId tx' ≠ ticketId tx) →
  SeqInv (call_lockTransaction k tx s).
Proof.
  intros [Hsort Hbound Hhead Hlast Hlbound Huniq Hlturn Hret Hact Hqbound Hqord
          Hlq Hq Htq Hfifo] Hfree Hd Ht Hnew.
  split; simpl; try done.
  - intros k' tx'. rewrite line_lockTransaction, lookup_insert.
    case_decide as Hdec; [|now auto]. intros [= <-]. now subst.
  - intros k' tx'. rewrite lookup_insert.
    case_decide as Hk; [done|auto].
  - intros k' tx' [[= -> ->]|H]%elem_of_cons; [|eauto].
    apply head_Some_elem_of in Hd. eauto.
  - intros k1 k2 tx1 tx2 [[= -> ->]|H1]%elem_of_cons [[= -> ->]|H2]%elem_of_cons;
      try done.
    + intros E. symmetry in E. now apply Hnew in H2.
    + intros E. now apply Hnew in H1.
    + eauto.
  - intros k' tx' [[= -> ->]|H]%elem_of_cons; right; eauto.
  - intros k' tx' [[= -> ->]|H]%elem_of_cons; rewrite lookup_insert.
    + left. now rewrite decide_True.
    + case_decide as Hk; [subst k'; right|now apply Hret].
      destruct (Hret _ _ H) as [Hl|Hout]; [congruence|done].
  - intros k'. rewrite lookup_insert.
    case_decide as Hk.
    + subst k'. rewrite Hact, Hfree. done.
    + apply Hact.
  - intros k' t' [?|H]%elem_of_cons; [done|]. eauto.
  - intros k1 k2 a b H%precedes_cons_ne; [|done]. eauto.
  - intros k' t' H. right. auto.
  - intros k' t' [?|H]%elem_of_cons; [done|].
    destruct (Hq _ _ H); [now left|right; now right].
  - intros k' t' [?|H]%elem_of_cons; [done|]. right. auto.
  - intros k' a b Hp%precedes_cons_ne [?|Hb]%elem_of_cons; try done.
    apply precedes_cons. right. auto.
Qed.

Lemma SeqInv_fresh : SeqInv (mkSequencer fresh []).
Proof.
  split; simpl; try done.
  - intros k. unfold line. simpl. rewrite lookup_empty. constructor.
  - intros k t. unfold line. simpl. rewrite lookup_empty. simpl. now intros ?%elem_of_nil.
  - intros k t ?%elem_of_nil. done.
  - intros k k' tx tx' ?%elem_of_nil. done.
  - intros k tx ?%elem_of_nil. done.
  - intros k tx ?%elem_of_nil. done.
  - intros k t ?%elem_of_nil. done.
  - intros k k' a b ?%precedes_nil. done.
  - intros k t. unfold line. simpl. rewrite lookup_empty. now intros ?%elem_of_nil.
  - intros k t ?%elem_of_nil. done.
  - intros k t ?%elem_of_nil. done.
  - intros k a b ?%precedes_nil. done.
Qed.

End SeqInvFacts.

Module InvFacts.
Import Utils Invariant QueueFacts HistoryFacts StepFacts SeqInvFacts.

Implicit Types (s : Sequencer) (k : string) (t : nat) (tx : Transaction) (p : Pc).

Lemma TaskOk_ticket s k p t :
  TaskOk s k p → ticketOf p = Some t → Holds s k t.
Proof. destruct p; simpl; intros H [= <-]; tauto. Qed.

Lemma TaskOk_queue s k kj p : TaskOk s kj p → TaskOk (call_queue k s).2 kj p.
Proof.
  rewrite call_queue_eq. cbn [snd].
  assert (Hh : ∀ t, Holds s kj t →
    Holds (mkSequencer (queue k (transactionQueue s)).2
             (EvQueue k (S (lastTicketId (transactionQueue s))) :: history s)) kj t).
  { intros t [Hin Hno]. split; cbn [transactionQueue history].
    - rewrite line_queue. case_decide as Hdec; [|done]. apply elem_of_app. now left.
    - intros k' tx [?|H]%elem_of_cons; [done|]. eauto. }
  assert (Ht : ∀ t, Turn s kj t →
    Turn (mkSequencer (queue k (transactionQueue s)).2
            (EvQueue k (S (lastTicketId (transactionQueue s))) :: history s)) kj t).
  { intros t (Hfree & Hhd & Hev). split_and!; cbn [transactionQueue history].
    - done.
    - rewrite line_queue. case_decide as Hdec; [|done]. subst. now apply head_snoc_Some.
    - now right. }
  destruct p; cbn [TaskOk]; try done; auto.
  - intros [? ?]. split; [auto|]. now right.
  - intros [? ?]. split; auto.
  - intros [? ?]. split; auto.
Qed.

Lemma TaskOk_turn s k t kj p :
  TaskOk s kj p →
  TaskOk (mkSequencer (transactionQueue s) (EvTurn k t :: history s)) kj p.
Proof.
  assert (Hh : ∀ t', Holds s kj t' →
    Holds (mkSequencer (transactionQueue s) (EvTurn k t :: history s)) kj t').
  { intros t' [Hin Hno]. split; [done|]; cbn [transactionQueue history].
    intros k' tx [?|H]%elem_of_cons; [done|]. eauto. }
  assert (Ht : ∀ t', Turn s kj t' →
    Turn (mkSequencer (transactionQueue s) (EvTurn k t :: history s)) kj t').
  { intros t' (Hfree & Hhd & Hev). split_and!; [done..|]. now right. }
  destruct p; cbn [TaskOk]; try done; auto.
  - intros [? ?]. split; [auto|]. now right.
  - intros [? ?]. split; auto.
  - intros [? ?]. split; auto.
Qed.

Lemma TaskOk_retire s k t kj p :
  TaskOk s kj p → ticketOf p ≠ Some t →
  TaskOk (call_unqueue k t (call_unlockTransaction k t s)) kj p.
Proof.
  assert (Hline : ∀ k', line k' (unqueue k t (unlockTransaction k t (transactionQueue s)))
                  = if decide (k = k')
                    then filter (λ x, x ≠ t) (line k' (transactionQueue s))
                    else line k' (transactionQueue s)).
  { intros k'. rewrite line_unqueue. now rewrite !line_unlockTransaction. }
  assert (Hh : ∀ t', t' ≠ t → Holds s kj t' →
    Holds (call_unqueue k t (call_unlockTransaction k t s)) kj t').
  { intros t' Hne [Hin Hno]. split; simpl.
    - rewrite Hline. case_decide as Hdec; [|done]. now apply list_elem_of_filter.
    - intros k' tx [?|[?|H]%elem_of_cons]%elem_of_cons; try done. eauto. }
  assert (Ht : ∀ t', t' ≠ t → Turn s kj t' →
    Turn (call_unqueue k t (call_unlockTransaction k t s)) kj t').
  { intros t' Hne (Hfree & Hhd & Hev). split_and!; simpl.
    - rewrite locks_unlockTransaction. now rewrite Hfree.
    - rewrite Hline. case_decide as Hdec; [|done]. now apply head_filter_ne.
    - right. now right. }
  destruct p; cbn [TaskOk ticketOf]; intros H Hne; try done;
    (assert (ticket ≠ t) by congruence); auto.
  - destruct H. split; [auto|]. right. now right.
  - destruct H. split; auto.
  - destruct H. split; auto.
Qed.

Lemma TaskOk_lock s k tx kj p :
  TaskOk s kj p → ticketOf p ≠ Some (ticketId tx) →
  head (line k (transactionQueue s)) = Some (ticketId tx) →
  TaskOk (call_lockTransaction k tx s) kj p.
Proof.
  intros H Hne Hhd.
  assert (Hh : ∀ t', t' ≠ ticketId tx → Holds s kj t' →
    Holds (call_lockTransaction k tx s) kj t').
  { intros t' Hne' [Hin Hno]. split; [done|]. simpl.
    intros k' tx' [[= -> ->]|H']%elem_of_cons; [congruence|eauto]. }
  assert (Ht : ∀ t', t' ≠ ticketId tx → Turn s kj t' →
    Turn (call_lockTransaction k tx s) kj t').
  { intros t' Hne' (Hfree & Hhd' & Hev). split_and!; simpl.
    - rewrite lookup_insert. case_decide as Hdec; [|done]. subst. congruence.
    - done.
    - now right. }
  destruct p; cbn [TaskOk ticketOf] in *; try done;
    (assert (ticket ≠ ticketId tx) by congruence); auto.
  - destruct H. split; [auto|]. now right.
  - destruct H. split; auto.
  - destruct H. split; auto.
Qed.

(** How [advance] keeps the invariant. *)
Lemma Inv_advance w i tk p s lg :
  Inv w → tasks w !! i = Some tk →
  SeqInv s →
  TaskOk s (safeAddress tk) p →
  (∀ j tk', j ≠ i → tasks w !! j = Some tk' →
            TaskOk s (safeAddress tk') (pc tk')) →
  (∀ t, ticketOf p = Some t →
        ticketOf (pc tk) = Some t ∨
        ∀ j tk', tasks w !! j = Some tk' → ticketOf (pc tk') ≠ Some t) →
  Inv (advance i tk p s lg w).
Proof.
  intros [Hseq Htask Hdist] Hi Hs Hp Hothers Hticket.
  assert (Hlen : i < length (tasks w)) by (eapply lookup_lt_Some; exact Hi).
  split; simpl.
  - done.
  - intros j tk'. destruct (decide (i = j)) as [<-|Hne].
    + rewrite list_lookup_insert_eq by done. now intros [= <-].
    + rewrite list_lookup_insert_ne by done. intros Hj. eapply Hothers; [|done]. auto.
  - intros j1 j2 tk1 tk2 t.
    destruct (decide (i = j1)) as [<-|Hne1]; destruct (decide (i = j2)) as [<-|Hne2];
      try done.
    + rewrite list_lookup_insert_eq, list_lookup_insert_ne by done.
      intros [= <-] H2 Ht1 Ht2. simpl in Ht1.
      destruct (Hticket _ Ht1) as [Hold|Hnew]; [eauto|]. now apply Hnew in H2.
    + rewrite list_lookup_insert_ne, list_lookup_insert_eq by done.
      intros H1 [= <-] Ht1 Ht2. simpl in Ht2.
      destruct (Hticket _ Ht2) as [Hold|Hnew]; [eauto|]. now apply Hnew in H1.
    + rewrite !list_lookup_insert_ne by done. eauto.
Qed.

Lemma Inv_initial lg calls : Inv (initial lg calls).
Proof.
  split; simpl.
  - apply SeqInv_fresh.
  - intros i tk Hi. apply list_lookup_fmap_Some in Hi as (c & -> & _). done.
  - intros i j tk tk' t Hi. apply list_lookup_fmap_Some in Hi as (c & -> & _). done.
Qed.

(** Every step keeps the invariant. *)
Lemma Inv_step l w w' : Inv w → step l w = Some w' → Inv w'.
Proof.
  intros HI Hstep. pose proof HI as [Hseq Htask Hdist].
  apply step_Move in Hstep
    as [(k & -> & ->)|[(k & r & n & -> & ->)|(i & tk & p & s & lg & Hi & Hmv & ->)]].
  { now split. }
  { now split. }
  pose proof (Htask _ _ Hi) as Hme.
  assert (Hother : ∀ j tk' t, j ≠ i → tasks w !! j = Some tk' →
                   ticketOf (pc tk) = Some t → ticketOf (pc tk') ≠ Some t).
  { intros j tk' t Hne Hj Ht Ht'. apply Hne. eauto. }
  inversion Hmv as
    [s0 lg0|s0 lg0|enough t s0 lg0|t s0 lg0 Hfree Hnext|t s0 lg0|t cur s0 lg0 Hcur
    |t cur s0 lg0|t cur r s0 lg0 Hr|t latest contract n s0 lg0 Hn
    |t latest contract s0 lg0 Hn|t n h s0 lg0|t n s0 lg0|s0 lg0|t n h s0 lg0];
    subst; match goal with H : _ = pc tk |- _ => rename H into Hpc end;
    rewrite <- Hpc in Hme; simpl in Hme.
  - (* queue *)
    apply Inv_advance; try done.
    + now apply SeqInv_queue.
    + assert (Holds (call_queue (safeAddress tk) (sequencer w)).2 (safeAddress tk)
                    (call_queue (safeAddress tk) (sequencer w)).1) as Hh.
      { rewrite call_queue_eq. split; cbn [fst snd transactionQueue history].
        - rewrite line_queue, decide_True by done. apply elem_of_app. right. left.
        - intros k' tx [?|H]%elem_of_cons; [done|].
          apply (seq_lock_bound _ Hseq) in H. lia. }
      now destruct (method tk).
    + intros j tk' _ Hj. apply TaskOk_queue. eauto.
    + intros t Ht. right. intros j tk' Hj Ht'.
      pose proof (TaskOk_ticket _ _ _ _ (Htask _ _ Hj) Ht') as [Hin _].
      apply (seq_bound _ Hseq) in Hin.
      rewrite call_queue_eq in Ht. cbn [fst] in Ht.
      destruct (method tk); injection Ht as <-; lia.
  - (* the estimate failed *)
    apply Inv_advance; try done. eauto.
  - (* funds *)
    apply Inv_advance; try done; [now destruct enough|eauto|].
    intros t' Ht'. left. rewrite <- Hpc. now destruct enough.
  - (* the ticket's turn *)
    apply isLocked_false in Hfree. apply isNextInQueue_true in Hnext.
    apply Inv_advance; try done.
    + now apply SeqInv_turn.
    + simpl. split.
      * pose proof (TaskOk_turn _ (safeAddress tk) t _ (Waiting t) Hme) as H. exact H.
      * split_and!; simpl; [done|done|left].
    + intros j tk' _ Hj. apply TaskOk_turn. eauto.
    + intros t' Ht'. left. now rewrite <- Hpc.
  - (* not yet *)
    apply Inv_advance; try done; [eauto|]. intros t' Ht'. left. now rewrite <- Hpc.
  - (* ask the relayer *)
    apply Inv_advance; try done; [|eauto|].
    + simpl. split; [done|]. apply lastLock_elem_of. now apply (seq_lock_last _ Hseq).
    + intros t' Ht'. left. now rewrite <- Hpc.
  - (* the relayer confirms *)
    destruct Hme as [Hh Hev].
    assert (Hno : ∀ j tk', tasks w !! j = Some tk' →
                           ticketOf (pc tk') ≠ Some (ticketId cur)).
    { intros j tk' Hj Ht'.
      pose proof (TaskOk_ticket _ _ _ _ (Htask _ _ Hj) Ht') as [_ Hnl].
      now apply Hnl in Hev. }
    apply Inv_advance; try done.
    + apply SeqInv_retire; [done|]. now apply (seq_lock_turn _ Hseq).
    + apply (TaskOk_retire _ _ _ _ (Waiting t)); [done|].
      specialize (Hno _ _ Hi). now rewrite <- Hpc in Hno.
    + intros j tk' _ Hj. apply TaskOk_retire; eauto.
    + intros t' Ht'. left. now rewrite <- Hpc.
  - (* the relayer does not confirm *)
    apply Inv_advance; try done; [tauto|eauto|].
    intros t' Ht'. left. now rewrite <- Hpc.
  - (* nonce *)
    apply Inv_advance; try done; [eauto|]. intros t' Ht'. left. now rewrite <- Hpc.
  - (* no nonce *)
    apply Inv_advance; try done. eauto.
  - (* POST accepted *)
    destruct Hme as [[Hin Hnl] (Hfree & Hhd & Hev)].
    apply Inv_advance; try done.
    + now apply SeqInv_lock.
    + intros j tk' Hne Hj. apply TaskOk_lock; [eauto| |done]. simpl.
      eapply Hother; [done..|]. now rewrite <- Hpc.
  - (* POST rejected *)
    destruct Hme as [[Hin Hnl] (Hfree & Hhd & Hev)].
    apply Inv_advance; try done.
    + now apply SeqInv_retire.
    + intros j tk' Hne Hj. apply TaskOk_retire; [eauto|].
      eapply Hother; [done..|]. now rewrite <- Hpc.
  - (* the estimate is garbled *)
    apply Inv_advance; try done.
    + now apply SeqInv_queue.
    + assert (Holds (call_queue (safeAddress tk) (sequencer w)).2 (safeAddress tk)
                    (call_queue (safeAddress tk) (sequencer w)).1) as Hh.
      { rewrite call_queue_eq. split; cbn [fst snd transactionQueue history].
        - rewrite line_queue, decide_True by done. apply elem_of_app. right. left.
        - intros k' tx [?|H]%elem_of_cons; [done|].
          apply (seq_lock_bound _ Hseq) in H. lia. }
      now destruct (method tk).
    + intros j tk' _ Hj. apply TaskOk_queue. eauto.
    + intros t Ht. right. intros j tk' Hj Ht'.
      pose proof (TaskOk_ticket _ _ _ _ (Htask _ _ Hj) Ht') as [Hin _].
      apply (seq_bound _ Hseq) in Hin.
      rewrite call_queue_eq in Ht. cbn [fst] in Ht.
      destruct (method tk); [done|]. injection Ht as <-. lia.
  - (* the answer to the POST is lost *)
    destruct Hme as [[Hin Hnl] (Hfree & Hhd & Hev)].
    apply Inv_advance; try done.
    + now apply SeqInv_retire.
    + intros j tk' Hne Hj. apply TaskOk_retire; [eauto|].
      eapply Hother; [done..|]. now rewrite <- Hpc.
Qed.

Lemma Reach_Inv allowed w : Reach allowed w → Inv w.
Proof.
  induction 1 as [lg calls|w l w' _ IH _ Hstep]; [apply Inv_initial|].
  eapply Inv_step; eauto.
Qed.

Lemma Reach_anything allowed w : Reach allowed w → Reachable w.
Proof.
  induction 1 as [lg calls|w l w' _ IH _ Hstep]; [constructor|].
  now apply (Reach_step anything w l w').
Qed.

Lemma run_Reach allowed ls w w' :
  Reach allowed w → run allowed ls w = Some w' → Reach allowed w'.
Proof.
  revert w. induction ls as [|l ls IH]; simpl; intros w Hw.
  - now intros [= <-].
  - destruct (allowed w l) eqn:Hal; [|done].
    destruct (step l w) as [w1|] eqn:Hstep; simpl; [|done].
    apply IH. now apply (Reach_step allowed w l w1).
Qed.

End InvFacts.

Module LedgerFacts.
Import Utils Invariant QueueFacts HistoryFacts StepFacts SeqInvFacts InvFacts.

Implicit Types (s : Sequencer) (k : string) (t : nat) (tx : Transaction) (p : Pc).

(** A move that records no lock and leaves the ledger alone. *)
Lemma LedgerInv_same_ledger w i tk p s :
  LedgerInv w → tasks w !! i = Some tk →
  (∀ k, lastLock k (history s) = lastLock k (history (sequencer w))) →
  (∀ k, lockNonces k (history s) = lockNonces k (history (sequencer w))) →
  (∀ k tx r, lastLock k (history s) = Some tx →
             locks (transactionQueue s) !! k = None →
             relayed (ledger w) !! k = Some r → finished r = true) →
  (∀ t n tx, p = Posting t n →
             lastLock (safeAddress tk) (history s) = Some tx →
             safeInteger (nonce tx) → n = (nonce tx + 1)%N) →
  LedgerInv (advance i tk p s (ledger w) w).
Proof.
  intros [Hlat Hcon Hfin Hpost Hnon] Hi Hlast Hnonces Hfin' Hpost'.
  assert (Hlen : i < length (tasks w)) by (eapply lookup_lt_Some; exact Hi).
  split; simpl.
  - intros k tx. rewrite Hlast. apply Hlat.
  - intros k tx r. rewrite Hlast. apply Hcon.
  - done.
  - intros j tk' t n tx. destruct (decide (i = j)) as [<-|Hne].
    + rewrite list_lookup_insert_eq by done. intros [= <-]. simpl. eauto.
    + rewrite list_lookup_insert_ne by done. rewrite Hlast. eauto.
  - intros k. rewrite Hnonces, Hlast. apply Hnon.
Qed.

(** Below [2^53] the addition of line 253 is exact. *)
Lemma incremented_safe (n : N) : safeInteger n → incremented n = (n + 1)%N.
Proof.
  unfold safeInteger, incremented, Freckles.toNumber. intros Hn.
  destruct (N.ltb_spec n (2 ^ 53)) as [_|]; [|lia].
  destruct (N.ltb_spec (n + 1) (2 ^ 53)) as [|Hle]; [done|].
  assert (n + 1 = 2 ^ 53)%N as -> by lia. reflexivity.
Qed.

Lemma requestNonce_faithful latest contract n (relayedLatest : option N) (stored : N) :
  (latest = Threw ∨ latest = Replied relayedLatest) →
  (contract = Threw ∨ contract = Replied stored) →
  requestNonce latest contract = Replied n →
  (∃ m, relayedLatest = Some m ∧ n = incremented m) ∨ n = stored.
Proof.
  unfold requestNonce. intros [->| ->] [->| ->]; try done.
  - intros [= <-]. now right.
  - destruct relayedLatest as [m|]; [|done]. intros [= <-]. left. eauto.
  - destruct relayedLatest as [m|]; intros [= <-]; [left; eauto|now right].
Qed.

Lemma contractNonce_mine k k' lg r :
  relayed lg !! k = Some r →
  contractNonce k' (mine k lg)
  = if decide (k = k') then (relayedNonce r + 1)%N else contractNonce k' lg.
Proof.
  intros Hr. unfold contractNonce, mine. rewrite Hr. simpl.
  rewrite lookup_insert. now case_decide.
Qed.

Lemma LedgerInv_initial lg calls : LedgerInv (initial lg calls).
Proof.
  split; simpl; try done.
Qed.

(** Every step answered truthfully, no answer to a POST being lost, keeps
    the ledger invariant. *)
Lemma LedgerInv_step l w w' :
  Inv w → LedgerInv w → reliable w l = true → step l w = Some w' → LedgerInv w'.
Proof.
  intros HI HL [Hfaith Hkept]%andb_true_iff Hstep. pose proof HI as [Hseq Htask Hdist].
  pose proof HL as [Hlat Hcon Hfin Hpost Hnon].
  apply step_Move in Hstep
    as [(k & -> & ->)|[(k & r & n & -> & ->)|(i & tk & p & s & lg & Hi & Hmv & ->)]];
    [|done|].
  { (* the chain executes the latest transaction of [k] *)
    destruct (relayed (ledger w) !! k) as [r0|] eqn:Hr0;
      [|unfold mine; rewrite Hr0; now destruct w].
    split; simpl.
    - intros k' tx Hl. destruct (Hlat _ _ Hl) as (r & Hr & Hn & Hh).
      unfold mine. rewrite Hr0. simpl. rewrite lookup_insert.
      case_decide as Hk; [subst k'|eauto].
      rewrite Hr0 in Hr. injection Hr as <-. eauto.
    - intros k' tx r Hl. rewrite (contractNonce_mine _ _ _ _ Hr0).
      unfold mine. rewrite Hr0. simpl. rewrite lookup_insert.
      case_decide as Hk; [subst k'|now apply Hcon].
      intros _ _. destruct (Hlat _ _ Hl) as (r1 & Hr1 & Hn & _).
      rewrite Hr0 in Hr1. injection Hr1 as <-. now rewrite Hn.
    - intros k' tx r Hl Hfree. unfold mine. rewrite Hr0. simpl. rewrite lookup_insert.
      case_decide as Hk; [now intros [= <-]|eauto].
    - done.
    - done. }
  pose proof (Htask _ _ Hi) as Hme.
  inversion Hmv as
    [s0 lg0|s0 lg0|enough t s0 lg0|t s0 lg0 Hfree Hnext|t s0 lg0|t cur s0 lg0 Hcur
    |t cur s0 lg0|t cur r s0 lg0 Hr|t latest contract n s0 lg0 Hn
    |t latest contract s0 lg0 Hn|t n h s0 lg0|t n s0 lg0|s0 lg0|t n h s0 lg0];
    subst; match goal with H : _ = pc tk |- _ => rename H into Hpc end;
    rewrite <- Hpc in Hme; cbn [TaskOk] in Hme.
  - apply LedgerInv_same_ledger; try done;
      try (intros ? ? ?; now destruct (method tk)).
  - now apply LedgerInv_same_ledger.
  - apply LedgerInv_same_ledger; try done. now destruct enough.
  - now apply LedgerInv_same_ledger.
  - now apply LedgerInv_same_ledger.
  - now apply LedgerInv_same_ledger.
  - (* the relayer confirms *)
    destruct Hme as [Hh Hev].
    apply LedgerInv_same_ledger; try done.
    intros k tx r Hl. simpl in Hl. simpl. rewrite locks_unlockTransaction.
    destruct (locks (transactionQueue (sequencer w)) !! k) as [tx0|] eqn:Hlk;
      [|now eauto].
    case_decide as Hd; [|done]. destruct Hd as [<- Hd]. intros _ Hr.
    pose proof (seq_lock_last _ Hseq _ _ Hlk) as Hl0.
    rewrite Hl in Hl0. injection Hl0 as <-.
    pose proof (lastLock_elem_of _ _ _ Hl) as Hev'.
    assert (tx = cur) as -> by (eapply (seq_lock_unique _ Hseq); eauto).
    destruct (Hlat _ _ Hl) as (r1 & Hr1 & Hn1 & Hh1).
    rewrite Hr in Hr1. injection Hr1 as <-.
    unfold faithful in Hfaith. rewrite Hi in Hfaith.
    destruct tk as [m k p]. simpl in *. subst p. rewrite Hr in Hfaith.
    now rewrite decide_True in Hfaith.
  - now apply LedgerInv_same_ledger.
  - (* the nonce *)
    destruct Hme as [Hh (Hfree & Hhd & Hev)].
    apply LedgerInv_same_ledger; try done.
    intros t' n' tx [= <- <-] Hl Hsafe.
    unfold faithful in Hfaith. rewrite Hi in Hfaith.
    apply bool_decide_eq_true in Hfaith as [Hlatest Hcontract].
    destruct (Hlat _ _ Hl) as (r & Hr & Hnr & _).
    destruct (requestNonce_faithful _ _ _ _ _ Hlatest Hcontract Hn)
      as [(m & Hm & ->)| ->].
    + rewrite Hr in Hm. simpl in Hm. injection Hm as <-.
      rewrite Hnr. now apply incremented_safe.
    + eapply Hcon; eauto.
  - now apply LedgerInv_same_ledger.
  - (* POST accepted *)
    destruct Hme as [[Hin Hnl] (Hfree & Hhd & Hev)].
    assert (Hlen : i < length (tasks w)) by (eapply lookup_lt_Some; exact Hi).
    split; simpl.
    + intros k tx. rewrite lookup_insert. case_decide as Hk.
      * intros [= <-]. eauto.
      * apply Hlat.
    + intros k tx r. rewrite lookup_insert. case_decide as Hk.
      * now intros _ [= <-].
      * apply Hcon.
    + intros k tx r. rewrite !lookup_insert. case_decide as Hk; [done|]. apply Hfin.
    + intros j tk' t' n' tx. destruct (decide (i = j)) as [<-|Hne].
      * rewrite list_lookup_insert_eq by done. now intros [= <-].
      * rewrite list_lookup_insert_ne by done. intros Hj Hpc'.
        case_decide as Hk; [|now eauto]. exfalso. apply Hne.
        pose proof (Htask _ _ Hj) as Hok. rewrite Hpc' in Hok.
        destruct Hok as [_ (_ & Hhd' & _)]. rewrite <- Hk, Hhd in Hhd'.
        injection Hhd' as ->.
        eapply Hdist; eauto; [now rewrite <- Hpc|now rewrite Hpc'].
    + intros k. case_decide as Hk; [subst k|apply Hnon].
      destruct (Hnon (safeAddress tk)) as [Hg Hlast]. split.
      * apply gaplessWhileSafe_snoc; [done|]. intros m Hm. rewrite Hlast in Hm.
        destruct (lastLock (safeAddress tk) (history (sequencer w))) as [tx|] eqn:Hl;
          [|done].
        injection Hm as <-. eapply Hpost; eauto.
      * now rewrite last_snoc.
  - (* POST rejected *)
    destruct Hme as [[Hin Hnl] (Hfree & Hhd & Hev)].
    apply LedgerInv_same_ledger; try done.
    intros k tx r Hl. simpl in Hl. simpl. rewrite locks_unlockTransaction.
    destruct (locks (transactionQueue (sequencer w)) !! k) as [tx0|] eqn:Hlk;
      [|now eauto].
    case_decide as Hd; [|done]. destruct Hd as [<- Hd]. congruence.
  - (* the estimate is garbled *)
    apply LedgerInv_same_ledger; try done;
      try (intros ? ? ?; now destruct (method tk)).
  - (* the answer to the POST is lost: not in a reliable run *)
    done.
Qed.

Lemma Reliable_LedgerInv w : ReliablyReachable w → LedgerInv w.
Proof.
  induction 1 as [lg calls|w l w' Hw IH Hal Hstep]; [apply LedgerInv_initial|].
  eapply LedgerInv_step; eauto. eapply Reach_Inv; eauto.
Qed.

End LedgerFacts.

(* ===================================================================== *)
(** ** The sequencer's guarantees *)
(* ===================================================================== *)

Import Utils Invariant Scenario.
Import QueueFacts HistoryFacts StepFacts SeqInvFacts InvFacts LedgerFacts.

Lemma lockNonces_app k (h1 h2 : list Event) :
  lockNonces k (h1 ++ h2) = lockNonces k h2 ++ lockNonces k h1.
Proof.
  induction h1 as [|e h1 IH]; simpl; [now rewrite app_nil_r|].
  destruct e; try done. case_decide; [|done]. now rewrite IH, app_assoc.
Qed.

Lemma gapless_app_r (l1 l2 : list N) : gapless (l1 ++ l2) → gapless l2.
Proof.
  induction l1 as [|a [|b l1] IH]; simpl; [done| |].
  - destruct l2; [done|]. now intros [_ ?].
  - intros [_ H]. now apply IH.
Qed.

Lemma gaplessWhileSafe_app_r (l1 l2 : list N) :
  gaplessWhileSafe (l1 ++ l2) → gaplessWhileSafe l2.
Proof.
  induction l1 as [|a [|b l1] IH]; simpl; [done| |].
  - destruct l2; [done|]. now intros [_ ?].
  - intros [_ H]. now apply IH.
Qed.

(** The nonces of the locks of a key when two of them are singled out. *)
Lemma lockNonces_between k (newer between older : list Event)
      (earlier later : Transaction) :
  lockNonces k (newer ++ EvLock k later :: between ++ EvLock k earlier :: older)
  = lockNonces k older
    ++ nonce earlier :: lockNonces k between ++ nonce later :: lockNonces k newer.
Proof.
  rewrite lockNonces_app, lockNonces_app_last, lockNonces_app, lockNonces_app_last.
  now rewrite <- !app_assoc.
Qed.

Lemma gapless_cons_lt (a : N) (l : list N) x :
  gapless (a :: l) → x ∈ l → (a < x)%N.
Proof.
  revert a. induction l as [|b l IH]; intros a; [now intros _ ?%elem_of_nil|].
  intros [-> Hg] [->|Hx]%elem_of_cons; [lia|].
  specialize (IH _ Hg Hx). lia.
Qed.

Lemma sorted_filter_head (t : nat) (l : list nat) :
  StronglySorted lt (t :: l) → filter (λ x, x ≠ t) (t :: l) = l.
Proof.
  intros [Hall _]%StronglySorted_cons. rewrite filter_cons_False by (intros ?; done).
  induction l as [|x l IH]; [done|].
  apply Forall_cons in Hall as [Hx Hall].
  rewrite filter_cons_True by lia. f_equal. auto.
Qed.

Ltac by_computation := vm_compute; reflexivity.

Ltac reached_by_run :=
  lazymatch goal with
  | |- Reachable (after ?ls) =>
      apply (Reach_anything faithful), (run_Reach faithful ls start (after ls));
      [apply Reach_initial | by_computation]
  | |- FaithfullyReachable (after ?ls) =>
      apply (run_Reach faithful ls start (after ls));
      [apply Reach_initial | by_computation]
  | |- ReliablyReachable (after ?ls) =>
      apply (run_Reach reliable ls start (after ls));
      [apply Reach_initial | by_computation]
  end.

(** C3 — FIFO admission.  In every world reachable by interleaving any
    number of [executeSafeTx] / [executeTokenSafeTx] calls on any keys,
    whatever the relayer answers: if ticket [a] was taken
    ([transactionQueue.queue]) on key [k] before ticket [b] on the same key,
    and [waitForPendingTransactions] has returned for [b], then it returned
    for [a] strictly earlier. *)
Theorem fifo_admission (w : World) (k : string) (a b : nat) :
  Reachable w →
  precedes (EvQueue k a) (EvQueue k b) (history (sequencer w)) →
  EvTurn k b ∈ history (sequencer w) →
  precedes (EvTurn k a) (EvTurn k b) (history (sequencer w)).
Proof.
  intros Hw. apply (seq_fifo _ (inv_seq _ (Reach_Inv _ _ Hw))).
Qed.

Lemma fifo_admission_witness :
  precedes (EvTurn safeX 1) (EvTurn safeX 2) (history (sequencer (after handover))).
Proof.
  apply fifo_admission.
  - reached_by_run.
  - exists (take 8 (history (sequencer (after handover)))), [], []. by_computation.
  - apply (bool_decide_unpack _). by_computation.
Defined.

(** C2 — mutual exclusion.  In every reachable world and for every key: the
    lock records that the calls to [lockTransaction] and [unlockTransaction]
    have left active are at most one, and it is the one the queue holds; at
    most one call of the key is suspended between its turn and the answer to
    its POST (the nonce request, the signing and the POST lie in between);
    while a call is there the key stays unlocked and its ticket stays head of
    the line, so no other call can get its turn or lock; and a locked key is
    locked for the head of its line. *)
Theorem mutual_exclusion (w : World) (k : string) :
  Reachable w →
  length (activeLocks k (history (sequencer w))) ≤ 1 ∧
  activeLocks k (history (sequencer w))
  = option_list (getCurrentTransaction k (transactionQueue (sequencer w))) ∧
  (∀ i j ti tj,
      tasks w !! i = Some ti → tasks w !! j = Some tj →
      safeAddress ti = k → safeAddress tj = k →
      submitting (pc ti) = true → submitting (pc tj) = true → i = j) ∧
  (∀ i ti,
      tasks w !! i = Some ti → safeAddress ti = k → submitting (pc ti) = true →
      isLocked k (transactionQueue (sequencer w)) = false ∧
      ∃ t, ticketOf (pc ti) = Some t ∧
           isNextInQueue k t (transactionQueue (sequencer w)) = true) ∧
  (∀ tx,
      getCurrentTransaction k (transactionQueue (sequencer w)) = Some tx →
      isNextInQueue k (ticketId tx) (transactionQueue (sequencer w)) = true).
Proof.
  intros Hw. pose proof (Reach_Inv _ _ Hw) as [Hseq Htask Hdist].
  assert (Hsub : ∀ i ti, tasks w !! i = Some ti → submitting (pc ti) = true →
            ∃ t, ticketOf (pc ti) = Some t ∧ Turn (sequencer w) (safeAddress ti) t).
  { intros i ti Hi Hs. specialize (Htask _ _ Hi).
    destruct (pc ti); try done; simpl in *; exists ticket; tauto. }
  split_and!.
  - rewrite (seq_active _ Hseq). destruct (locks _ !! k); simpl; lia.
  - apply (seq_active _ Hseq).
  - intros i j ti tj Hi Hj Hki Hkj Hsi Hsj.
    destruct (Hsub _ _ Hi Hsi) as (t & Ht & _ & Hhd & _).
    destruct (Hsub _ _ Hj Hsj) as (t' & Ht' & _ & Hhd' & _).
    rewrite Hki in Hhd. rewrite Hkj, Hhd in Hhd'. injection Hhd' as <-. eauto.
  - intros i ti Hi <- Hs. destruct (Hsub _ _ Hi Hs) as (t & Ht & Hfree & Hhd & _).
    split; [now apply isLocked_false|]. exists t. split; [done|].
    now apply isNextInQueue_true.
  - intros tx Htx. apply isNextInQueue_true. now apply (seq_lock_head _ Hseq).
Qed.

Lemma mutual_exclusion_witness :
  length (activeLocks safeX (history (sequencer (after submitted)))) ≤ 1 ∧
  activeLocks safeX (history (sequencer (after submitted)))
  = option_list (getCurrentTransaction safeX (transactionQueue (sequencer (after submitted)))) ∧
  (∀ i j ti tj,
      tasks (after submitted) !! i = Some ti → tasks (after submitted) !! j = Some tj →
      safeAddress ti = safeX → safeAddress tj = safeX →
      submitting (pc ti) = true → submitting (pc tj) = true → i = j) ∧
  (∀ i ti,
      tasks (after submitted) !! i = Some ti → safeAddress ti = safeX →
      submitting (pc ti) = true →
      isLocked safeX (transactionQueue (sequencer (after submitted))) = false ∧
      ∃ t, ticketOf (pc ti) = Some t ∧
           isNextInQueue safeX t (transactionQueue (sequencer (after submitted))) = true) ∧
  (∀ tx,
      getCurrentTransaction safeX (transactionQueue (sequencer (after submitted))) = Some tx →
      isNextInQueue safeX (ticketId tx) (transactionQueue (sequencer (after submitted))) = true).
Proof. apply mutual_exclusion. reached_by_run. Defined.

(** C5 — fail-fast.  In every reachable world, when the relayer's POST of a
    call fails (the call is suspended at the POST, so [lockTransaction] has
    not run for its ticket): the call returns [null]; the key is unlocked and
    the ticket, which was the head of the line, is gone from it, the rest of
    the line unchanged; no lock is recorded; whoever is head of the line now
    is admitted by its next attempt without any question to the relayer; the
    other keys are untouched and the world is again a reachable one. *)
Theorem fail_fast (w : World) (i : nat) (tk : Task) (t : nat) (n : N) :
  Reachable w → tasks w !! i = Some tk → pc tk = Posting t n →
  ∃ w',
    step (Posted i Threw) w = Some w' ∧
    pc <$> (tasks w' !! i) = Some (Returned None) ∧
    isLocked (safeAddress tk) (transactionQueue (sequencer w')) = false ∧
    (t ∉ line (safeAddress tk) (transactionQueue (sequencer w'))) ∧
    line (safeAddress tk) (transactionQueue (sequencer w))
    = t :: line (safeAddress tk) (transactionQueue (sequencer w')) ∧
    lockNonces (safeAddress tk) (history (sequencer w'))
    = lockNonces (safeAddress tk) (history (sequencer w)) ∧
    (∀ t', head (line (safeAddress tk) (transactionQueue (sequencer w'))) = Some t' →
           attemptStart (safeAddress tk) t' (transactionQueue (sequencer w'))
           = Resolved true) ∧
    (∀ j tkj t',
        tasks w' !! j = Some tkj → safeAddress tkj = safeAddress tk →
        pc tkj = Waiting t' →
        head (line (safeAddress tk) (transactionQueue (sequencer w'))) = Some t' →
        ∃ w'', step (Attempted j) w' = Some w'' ∧
               pc <$> (tasks w'' !! j) = Some (Noncing t')) ∧
    (∀ k', k' ≠ safeAddress tk →
        line k' (transactionQueue (sequencer w'))
        = line k' (transactionQueue (sequencer w)) ∧
        locks (transactionQueue (sequencer w')) !! k'
        = locks (transactionQueue (sequencer w)) !! k') ∧
    Reachable w'.
Proof.
  intros Hw Hi Hpc. pose proof (Reach_Inv _ _ Hw) as [Hseq Htask Hdist].
  pose proof (Htask _ _ Hi) as Hme. rewrite Hpc in Hme.
  destruct Hme as [[Hin Hnl] (Hfree & Hhd & Hev)].
  assert (Hlen : i < length (tasks w)) by (eapply lookup_lt_Some; exact Hi).
  set (k := safeAddress tk) in *.
  set (s' := call_unqueue k t (call_unlockTransaction k t (sequencer w))).
  assert (Hstep : step (Posted i Threw) w
                  = Some (advance i tk (Returned None) s' (ledger w) w)).
  { unfold step. rewrite Hi. simpl. now rewrite Hpc. }
  assert (Hline : ∀ k', line k' (transactionQueue s')
                  = if decide (k = k')
                    then filter (λ x, x ≠ t) (line k' (transactionQueue (sequencer w)))
                    else line k' (transactionQueue (sequencer w))).
  { intros k'. unfold s'. simpl. rewrite line_unqueue. now rewrite !line_unlockTransaction. }
  assert (Hlocks : locks (transactionQueue s') = locks (transactionQueue (sequencer w))).
  { unfold s'. simpl. now rewrite (unlockTransaction_unlocked _ _ _ Hfree). }
  assert (Hfree' : isLocked k (transactionQueue s') = false).
  { apply isLocked_false. now rewrite Hlocks. }
  eexists. split; [exact Hstep|]. cbn [advance sequencer tasks ledger].
  assert (Hhist : history s' = EvUnqueue k t :: EvUnlock k t :: history (sequencer w))
    by done.
  split_and!.
  - now rewrite list_lookup_insert_eq.
  - done.
  - rewrite Hline, decide_True by done. intros [? _]%list_elem_of_filter. done.
  - rewrite Hline, decide_True by done.
    pose proof (seq_sorted _ Hseq k) as Hs.
    destruct (line k (transactionQueue (sequencer w))) as [|x l]; [done|].
    injection Hhd as ->. now rewrite sorted_filter_head.
  - now rewrite Hhist.
  - intros t' Ht'. unfold attemptStart. rewrite Hfree'. simpl.
    f_equal. now apply isNextInQueue_true.
  - intros j tkj t' Hj Hk Hpcj Ht'.
    eexists. split.
    + apply (step_Attempted_turn _ j tkj t'); [exact Hj|done|..];
        rewrite Hk; [exact Hfree'|]. now apply isNextInQueue_true.
    + cbn [advance tasks]. rewrite list_lookup_insert_eq; [done|].
      eapply lookup_lt_Some. exact Hj.
  - intros k' Hne. rewrite Hline, decide_False by done. now rewrite Hlocks.
  - now apply (Reach_step anything w (Posted i Threw)).
Qed.

Lemma fail_fast_witness :
  ∃ w',
    step (Posted 0 Threw) (after opening) = Some w' ∧
    pc <$> (tasks w' !! 0) = Some (Returned None) ∧
    isLocked safeX (transactionQueue (sequencer w')) = false ∧
    (1 ∉ line safeX (transactionQueue (sequencer w'))) ∧
    line safeX (transactionQueue (sequencer (after opening)))
    = 1 :: line safeX (transactionQueue (sequencer w')) ∧
    lockNonces safeX (history (sequencer w'))
    = lockNonces safeX (history (sequencer (after opening))) ∧
    (∀ t', head (line safeX (transactionQueue (sequencer w'))) = Some t' →
           attemptStart safeX t' (transactionQueue (sequencer w')) = Resolved true) ∧
    (∀ j tkj t',
        tasks w' !! j = Some tkj → safeAddress tkj = safeX →
        pc tkj = Waiting t' →
        head (line safeX (transactionQueue (sequencer w'))) = Some t' →
        ∃ w'', step (Attempted j) w' = Some w'' ∧
               pc <$> (tasks w'' !! j) = Some (Noncing t')) ∧
    (∀ k', k' ≠ safeX →
        line k' (transactionQueue (sequencer w'))
        = line k' (transactionQueue (sequencer (after opening))) ∧
        locks (transactionQueue (sequencer w')) !! k'
        = locks (transactionQueue (sequencer (after opening))) !! k') ∧
    Reachable w'.
Proof.
  apply (fail_fast (after opening) 0 (mkTask ExecuteTokenSafeTx safeX (Posting 1 10)) 1 10).
  - reached_by_run.
  - by_computation.
  - reflexivity.
Defined.

(** C1 (as amended) — successive nonces.  In every world reachable by any
    interleaving of calls, the relayer and the Safe contract answering
    truthfully, no answer to a POST being lost and the Safes being used
    through these calls only (POSTs and queries may still fail): of two
    locks recorded for the same key with no lock of that key between them,
    the later one carries the nonce of the earlier one plus one, provided
    the earlier nonce is below [2^53], where [parseInt(nonce, 10) + 1] is
    exact; hence, as long as the nonces recorded for the key are below
    [2^53], a later lock carries a larger nonce than an earlier one and the
    nonces of the key's locks, in order, go up by one each. *)
Theorem successive_nonces (w : World) (k : string)
        (newer between older : list Event) (earlier later : Transaction) :
  ReliablyReachable w →
  history (sequencer w)
  = newer ++ EvLock k later :: between ++ EvLock k earlier :: older →
  (lockNonces k between = [] → safeInteger (nonce earlier) →
   nonce later = (nonce earlier + 1)%N) ∧
  (Forall safeInteger (lockNonces k (history (sequencer w))) →
   (nonce earlier < nonce later)%N ∧
   gapless (lockNonces k (history (sequencer w)))).
Proof.
  intros Hw Hh. pose proof (Reliable_LedgerInv _ Hw) as [_ _ _ _ Hnon].
  destruct (Hnon k) as [Hg _]. split.
  - intros Hb Hsafe. rewrite Hh, lockNonces_between, Hb in Hg.
    apply gaplessWhileSafe_app_r in Hg. simpl in Hg. tauto.
  - intros Hall. pose proof (gaplessWhileSafe_gapless _ Hg Hall) as Hgap.
    split; [|done]. rewrite Hh, lockNonces_between in Hgap.
    apply gapless_app_r in Hgap.
    eapply gapless_cons_lt; [exact Hgap|].
    apply elem_of_app. right. left.
Qed.

Lemma successive_nonces_witness :
  nonce tx2 = (nonce tx1 + 1)%N ∧
  (nonce tx1 < nonce tx2)%N ∧
  gapless (lockNonces safeX (history (sequencer (after handover)))).
Proof.
  destruct (successive_nonces (after handover) safeX []
              (take 3 (drop 1 (history (sequencer (after handover)))))
              (drop 5 (history (sequencer (after handover)))) tx1 tx2)
    as (Hnext & Hall).
  - reached_by_run.
  - by_computation.
  - assert (Hsafe : Forall safeInteger
                      (lockNonces safeX (history (sequencer (after handover))))).
    { replace (lockNonces safeX (history (sequencer (after handover))))
        with [10%N; 11%N] by by_computation.
      repeat constructor. }
    destruct (Hall Hsafe) as [Hlt Hgap].
    split_and!; [|exact Hlt|exact Hgap]. apply Hnext; [by_computation|reflexivity].
Defined.

(** C1, as first stated, fails: "whenever [lockTransaction] records nonce n1
    for one ticket and a later lock on the same key records nonce n2, then
    n2 = n1 + 1, for every interleaving".  Four runs in which ticket 1 locks
    [safeX], its transaction is executed and confirmed, and the next lock of
    [safeX] does not carry the next nonce:
    - the relayer names 50 as the nonce of its latest transaction, which is
      10: the locks carry 10 and 51;
    - the relayer and the contract answer truthfully, but the answer to the
      POST of ticket 2 is lost, and ticket 3 locks: the locks carry 10
      and 12;
    - the relayer and the contract answer truthfully, but the Safe is used
      from elsewhere in between: the locks carry 10 and 12;
    - the relayer and the contract answer truthfully, no answer is lost and
      nobody else uses the Safe, but the first lock carries [2^53]: the sum
      of line 253 is [2^53] again, and the locks carry the same nonce
      twice. *)
Lemma nonces_counterexample :
  (run anything misinformed start = Some afterMisinformed ∧
   Reachable afterMisinformed ∧
   lockNonces safeX (history (sequencer afterMisinformed)) = [10; 51]%N ∧
   ∃ between older,
     history (sequencer afterMisinformed)
     = [] ++ EvLock safeX (mkTransaction "0xh2" 51 2)
          :: between ++ EvLock safeX tx1 :: older ∧
     lockNonces safeX between = [] ∧
     nonce (mkTransaction "0xh2" 51 2) ≠ (nonce tx1 + 1)%N) ∧
  (run faithful unanswered start = Some afterUnanswered ∧
   FaithfullyReachable afterUnanswered ∧
   lockNonces safeX (history (sequencer afterUnanswered)) = [10; 12]%N ∧
   ∃ between older,
     history (sequencer afterUnanswered)
     = [] ++ EvLock safeX (mkTransaction "0xh3" 12 3)
          :: between ++ EvLock safeX tx1 :: older ∧
     lockNonces safeX between = [] ∧
     nonce (mkTransaction "0xh3" 12 3) ≠ (nonce tx1 + 1)%N) ∧
  (run faithful interfered start = Some afterInterfered ∧
   FaithfullyReachable afterInterfered ∧
   lockNonces safeX (history (sequencer afterInterfered)) = [10; 12]%N ∧
   ∃ between older,
     history (sequencer afterInterfered)
     = [] ++ EvLock safeX (mkTransaction "0xh2" 12 2)
          :: between ++ EvLock safeX tx1 :: older ∧
     lockNonces safeX between = [] ∧
     nonce (mkTransaction "0xh2" 12 2) ≠ (nonce tx1 + 1)%N) ∧
  (run reliable atLimit startAtLimit = Some afterLimit ∧
   ReliablyReachable afterLimit ∧
   lockNonces safeX (history (sequencer afterLimit)) = [2 ^ 53; 2 ^ 53]%N ∧
   requestNonce (Replied (Some (2 ^ 53)%N)) (Replied (2 ^ 53 + 1)%N)
   = Replied (2 ^ 53)%N ∧
   ∃ between older,
     history (sequencer afterLimit)
     = [] ++ EvLock safeX (mkTransaction "0xh2" (2 ^ 53) 2)
          :: between
          ++ EvLock safeX (mkTransaction "0xh1" (2 ^ 53) 1) :: older ∧
     lockNonces safeX between = [] ∧
     nonce (mkTransaction "0xh2" (2 ^ 53) 2)
     ≠ (nonce (mkTransaction "0xh1" (2 ^ 53) 1) + 1)%N).
Proof.
  split_and!.
  - by_computation.
  - apply (run_Reach anything misinformed start); [apply Reach_initial|by_computation].
  - by_computation.
  - exists [EvTurn safeX 2; EvUnqueue safeX 1; EvUnlock safeX 1],
           (drop 5 (history (sequencer afterMisinformed))).
    split_and!; [by_computation|by_computation|done].
  - by_computation.
  - apply (run_Reach faithful unanswered start); [apply Reach_initial|by_computation].
  - by_computation.
  - exists [EvTurn safeX 3; EvUnqueue safeX 2; EvUnlock safeX 2;
            EvTurn safeX 2; EvUnqueue safeX 1; EvUnlock safeX 1],
           (drop 8 (history (sequencer afterUnanswered))).
    split_and!; [by_computation|by_computation|done].
  - by_computation.
  - apply (run_Reach faithful interfered start); [apply Reach_initial|by_computation].
  - by_computation.
  - exists [EvTurn safeX 2; EvUnqueue safeX 1; EvUnlock safeX 1],
           (drop 5 (history (sequencer afterInterfered))).
    split_and!; [by_computation|by_computation|done].
  - by_computation.
  - apply (run_Reach reliable atLimit startAtLimit); [apply Reach_initial|by_computation].
  - by_computation.
  - by_computation.
  - exists [EvTurn safeX 2; EvUnqueue safeX 1; EvUnlock safeX 1],
           (drop 5 (history (sequencer afterLimit))).
    split_and!; [by_computation|by_computation|].
    cbn [nonce]. intros H. apply (f_equal N.even) in H. vm_compute in H. discriminate.
Qed.

(* ===================================================================== *)
(** ** One poll attempt of [waitForPendingTransactions] *)
(* ===================================================================== *)

Lemma step_Attempted_ask w i tk t cur :
  tasks w !! i = Some tk → pc tk = Waiting t →
  getCurrentTransaction (safeAddress tk) (transactionQueue (sequencer w)) = Some cur →
  step (Attempted i) w
  = Some (advance i tk (Probing t cur) (sequencer w) (ledger w) w).
Proof.
  intros Hi Hpc Hcur. unfold step. rewrite Hi. simpl. rewrite Hpc.
  unfold attemptStart. rewrite Hcur.
  assert (isLocked (safeAddress tk) (transactionQueue (sequencer w)) = true) as ->; [|done].
  apply isLocked_true. unfold getCurrentTransaction in Hcur. now rewrite Hcur.
Qed.

Lemma step_Probed w i tk t cur r :
  tasks w !! i = Some tk → pc tk = Probing t cur →
  step (Probed i r) w
  = Some (advance i tk (Waiting t)
            (attemptFinish (safeAddress tk) cur r (sequencer w)).2 (ledger w) w).
Proof.
  intros Hi Hpc. unfold step. rewrite Hi. simpl. rewrite Hpc.
  now destruct r as [|[|[|n]]].
Qed.

Lemma advance_lookup w i tk p s lg :
  tasks w !! i = Some tk →
  tasks (advance i tk p s lg w) !! i = Some (mkTask (method tk) (safeAddress tk) p).
Proof.
  intros Hi. simpl. apply list_lookup_insert_eq. eapply lookup_lt_Some. exact Hi.
Qed.

Lemma filter_ne_absent (l : list nat) t : t ∉ l → filter (λ x, x ≠ t) l = l.
Proof.
  induction l as [|x l IH]; [done|].
  intros Hx. rewrite filter_cons_True.
  - f_equal. apply IH. intros ?. apply Hx. now right.
  - intros ->. apply Hx. left.
Qed.

Lemma unqueue_absent q k t : t ∉ line k q → unqueue k t q = q.
Proof.
  intros Hout. destruct q as [n wt lk]. unfold unqueue, line in *. simpl in *.
  f_equal. apply map_eq. intros k'. rewrite lookup_alter.
  case_decide as Hk; [subst k'|done].
  destruct (wt !! k) as [l|]; simpl in *; [|done]. now rewrite filter_ne_absent.
Qed.

(** C4 (as amended) — piggy-backed completion detection.  An attempt made
    while the key is locked asks the relayer about the recorded transaction
    (hash and nonce) and waits for the answer.  In every reachable world,
    when the relayer confirms to a call waiting with ticket [t]: the attempt
    calls [unlockTransaction] and [unqueue] for the recorded ticket and
    returns [false], so the call is still waiting; if the key was still
    locked for that transaction it is now unlocked and the locked ticket,
    the head of the line, is gone from it; if another attempt had retired
    the transaction already, nothing changes.  "Is head" is not evaluated by
    this attempt: it is the call's next attempt that, finding the key
    unlocked and [t] at the head, lets the call through. *)
Theorem piggyback_completion (w : World) (i : nat) (tk : Task) (t : nat)
        (current : Transaction) :
  Reachable w → tasks w !! i = Some tk → pc tk = Probing t current →
  EvLock (safeAddress tk) current ∈ history (sequencer w) ∧
  (∀ w0 j tkj tj cur0,
      tasks w0 !! j = Some tkj → pc tkj = Waiting tj →
      getCurrentTransaction (safeAddress tkj) (transactionQueue (sequencer w0))
      = Some cur0 →
      step (Attempted j) w0
      = Some (advance j tkj (Probing tj cur0) (sequencer w0) (ledger w0) w0)) ∧
  ∃ w2,
    step (Probed i (Replied 1)) w = Some w2 ∧
    attemptFinish (safeAddress tk) current (Replied 1) (sequencer w)
    = (false, sequencer w2) ∧
    pc <$> (tasks w2 !! i) = Some (Waiting t) ∧
    (if decide (getCurrentTransaction (safeAddress tk) (transactionQueue (sequencer w))
                = Some current)
     then isLocked (safeAddress tk) (transactionQueue (sequencer w2)) = false ∧
          line (safeAddress tk) (transactionQueue (sequencer w))
          = ticketId current :: line (safeAddress tk) (transactionQueue (sequencer w2))
     else transactionQueue (sequencer w2) = transactionQueue (sequencer w)) ∧
    (isLocked (safeAddress tk) (transactionQueue (sequencer w2)) = false →
     isNextInQueue (safeAddress tk) t (transactionQueue (sequencer w2)) = true →
     ∃ w3, step (Attempted i) w2 = Some w3 ∧
           pc <$> (tasks w3 !! i) = Some (Noncing t)).
Proof.
  intros Hw Hi Hpc. pose proof (Reach_Inv _ _ Hw) as [Hseq Htask Hdist].
  pose proof (Htask _ _ Hi) as Hme. rewrite Hpc in Hme. destruct Hme as [_ Hev].
  set (k := safeAddress tk) in *.
  set (s2 := call_unqueue k (ticketId current)
               (call_unlockTransaction k (ticketId current) (sequencer w))).
  set (w2 := advance i tk (Waiting t) s2 (ledger w) w).
  assert (Hi2 : tasks w2 !! i = Some (mkTask (method tk) k (Waiting t)))
    by now apply advance_lookup.
  split_and!; [done| |].
  { intros w0 j tkj tj cur0. apply step_Attempted_ask. }
  exists w2. split_and!.
  - now rewrite (step_Probed w i tk t current).
  - done.
  - now rewrite Hi2.
  - unfold getCurrentTransaction. case_decide as Hcur.
    + split.
      * apply isLocked_false. unfold w2, s2. simpl.
        rewrite locks_unlockTransaction, Hcur. now rewrite decide_True.
      * unfold w2, s2. simpl. rewrite line_unqueue, decide_True by done.
        rewrite line_unlockTransaction.
        pose proof (seq_sorted _ Hseq k) as Hs.
        pose proof (seq_lock_head _ Hseq _ _ Hcur) as Hhd.
        destruct (line k (transactionQueue (sequencer w))) as [|x l]; [done|].
        injection Hhd as ->. now rewrite sorted_filter_head.
    + unfold w2, s2. simpl.
      assert (unlockTransaction k (ticketId current) (transactionQueue (sequencer w))
              = transactionQueue (sequencer w)) as ->.
      { unfold unlockTransaction.
        destruct (locks (transactionQueue (sequencer w)) !! k) as [tx|] eqn:Hl; [|done].
        case_decide as Ht; [|done]. exfalso. apply Hcur. f_equal.
        apply (seq_lock_unique _ Hseq k k); [|done..].
        apply lastLock_elem_of. now apply (seq_lock_last _ Hseq). }
      apply unqueue_absent.
      destruct (seq_lock_retired _ Hseq _ _ Hev); done.
  - intros Hfree Hnext. eexists. split.
    + now apply (step_Attempted_turn w2 i _ t Hi2).
    + now rewrite advance_lookup.
Qed.

Lemma piggyback_completion_witness :
  EvLock safeX tx1 ∈ history (sequencer (after submitted)) ∧
  (∀ w0 j tkj tj cur0,
      tasks w0 !! j = Some tkj → pc tkj = Waiting tj →
      getCurrentTransaction (safeAddress tkj) (transactionQueue (sequencer w0))
      = Some cur0 →
      step (Attempted j) w0
      = Some (advance j tkj (Probing tj cur0) (sequencer w0) (ledger w0) w0)) ∧
  ∃ w2,
    step (Probed 1 (Replied 1)) (after submitted) = Some w2 ∧
    attemptFinish safeX tx1 (Replied 1) (sequencer (after submitted))
    = (false, sequencer w2) ∧
    pc <$> (tasks w2 !! 1) = Some (Waiting 2) ∧
    (if decide (getCurrentTransaction safeX (transactionQueue (sequencer (after submitted)))
                = Some tx1)
     then isLocked safeX (transactionQueue (sequencer w2)) = false ∧
          line safeX (transactionQueue (sequencer (after submitted)))
          = ticketId tx1 :: line safeX (transactionQueue (sequencer w2))
     else transactionQueue (sequencer w2) = transactionQueue (sequencer (after submitted))) ∧
    (isLocked safeX (transactionQueue (sequencer w2)) = false →
     isNextInQueue safeX 2 (transactionQueue (sequencer w2)) = true →
     ∃ w3, step (Attempted 1) w2 = Some w3 ∧
           pc <$> (tasks w3 !! 1) = Some (Noncing 2)).
Proof.
  apply (piggyback_completion (after submitted) 1
           (mkTask ExecuteTokenSafeTx safeX (Probing 2 tx1)) 2 tx1).
  - reached_by_run.
  - by_computation.
  - reflexivity.
Defined.

(** C4, as first stated, fails: with tickets 1 and 2 in the line and the key
    locked for ticket 1, ticket 2's attempt learns from the relayer that
    ticket 1 is done and retires it; ticket 2 is then head of an unlocked
    key, yet the attempt returns [false] and not what [isNextInQueue] says:
    the call is not let through by the attempt that found out. *)
Lemma piggyback_counterexample :
  attemptStart safeX 2 lockedQueue = Asking tx1 ∧
  (attemptFinish safeX tx1 (Replied 1) lockedSequencer).1 = false ∧
  isLocked safeX
    (transactionQueue (attemptFinish safeX tx1 (Replied 1) lockedSequencer).2)
  = false ∧
  isNextInQueue safeX 2
    (transactionQueue (attemptFinish safeX tx1 (Replied 1) lockedSequencer).2)
  = true ∧
  (attemptFinish safeX tx1 (Replied 1) lockedSequencer).1
  ≠ isNextInQueue safeX 2
      (transactionQueue (attemptFinish safeX tx1 (Replied 1) lockedSequencer).2) ∧
  (∃ w2, run anything [Attempted 1; Probed 1 (Replied 1)] (after justLocked) = Some w2 ∧
         isLocked safeX (transactionQueue (sequencer w2)) = false ∧
         isNextInQueue safeX 2 (transactionQueue (sequencer w2)) = true ∧
         pc <$> (tasks w2 !! 1) = Some (Waiting 2)).
Proof.
  split_and!; [by_computation..| |].
  - vm_compute. discriminate.
  - eexists. split; [by_computation|]. split_and!; by_computation.
Qed.

Lemma quiet_duration {A} (notYet : A) action n :
  Poller.duration (Poller.quiet notYet action n) = Poller.duration (action n).
Proof. unfold Poller.quiet. now destruct (Poller.outcome (action n)). Qed.

Lemma quiet_outcome {A} (notYet : A) action n :
  Poller.outcome (Poller.quiet notYet action n)
  = match Poller.outcome (action n) with
    | Poller.Throws => Poller.Yields notYet
    | Poller.Yields r => Poller.Yields r
    end.
Proof. unfold Poller.quiet. now destruct (Poller.outcome (action n)) eqn:E. Qed.

(** C7 — transient probe failures are swallowed.  Whenever the relayer's
    answer to an attempt of [waitForPendingTransactions] is a failure, the
    attempt returns [false] and changes nothing: the call is back to waiting
    for its next attempt, queue and history as they were.  In the poller a
    throwing attempt counts as a "not yet": the loop gives the same result as
    with that attempt yielding a value that fails the predicate, and unless
    the deadline has passed it goes on to the next attempt. *)
Theorem probe_failure_swallowed (w : World) (i : nat) (tk : Task) (t : nat)
        (current : Transaction) :
  tasks w !! i = Some tk → pc tk = Probing t current →
  step (Probed i Threw) w
  = Some (advance i tk (Waiting t) (sequencer w) (ledger w) w) ∧
  attemptFinish (safeAddress tk) current Threw (sequencer w) = (false, sequencer w) ∧
  (∀ (A : Type) (action : nat → Poller.Attempt A) predicate o fuel n elapsed notYet,
      predicate notYet = false →
      Poller.poll fuel action predicate o n elapsed
      = Poller.poll fuel (Poller.quiet notYet action) predicate o n elapsed) ∧
  (∀ (A : Type) (action : nat → Poller.Attempt A) predicate o fuel n elapsed,
      Poller.outcome (action n) = Poller.Throws →
      Poller.exceeded o (elapsed + Poller.duration (action n)) = false →
      Poller.poll (S fuel) action predicate o n elapsed
      = Poller.poll fuel action predicate o (S n)
          (elapsed + Poller.duration (action n) + Poller.intervalMs o)).
Proof.
  intros Hi Hpc. split_and!.
  - now rewrite (step_Probed w i tk t current).
  - done.
  - intros A action predicate o fuel. induction fuel as [|fuel IH]; [done|].
    intros n elapsed notYet Hno. simpl.
    rewrite quiet_duration, quiet_outcome.
    destruct (Poller.outcome (action n)) as [|r] eqn:Ho.
    + rewrite Hno. destruct (Poller.exceeded _ _); [done|]. now apply IH.
    + destruct (predicate r); [done|].
      destruct (Poller.exceeded _ _); [done|]. now apply IH.
  - intros A action predicate o fuel n elapsed Ho Hex. simpl.
    now rewrite Ho, Hex.
Qed.

Lemma probe_failure_swallowed_witness :
  step (Probed 2 Threw) (after submitted)
  = Some (advance 2 (mkTask ExecuteSafeTx safeX (Probing 3 tx1)) (Waiting 3)
            (sequencer (after submitted)) (ledger (after submitted))
            (after submitted)) ∧
  attemptFinish safeX tx1 Threw (sequencer (after submitted))
  = (false, sequencer (after submitted)) ∧
  (∀ (A : Type) (action : nat → Poller.Attempt A) predicate o fuel n elapsed notYet,
      predicate notYet = false →
      Poller.poll fuel action predicate o n elapsed
      = Poller.poll fuel (Poller.quiet notYet action) predicate o n elapsed) ∧
  (∀ (A : Type) (action : nat → Poller.Attempt A) predicate o fuel n elapsed,
      Poller.outcome (action n) = Poller.Throws →
      Poller.exceeded o (elapsed + Poller.duration (action n)) = false →
      Poller.poll (S fuel) action predicate o n elapsed
      = Poller.poll fuel action predicate o (S n)
          (elapsed + Poller.duration (action n) + Poller.intervalMs o)).
Proof.
  apply (probe_failure_swallowed (after submitted) 2
           (mkTask ExecuteSafeTx safeX (Probing 3 tx1)) 3 tx1).
  - by_computation.
  - reflexivity.
Defined.

(* ===================================================================== *)
(** ** Unlocking, retiring, and the other keys *)
(* ===================================================================== *)

(** C8 — idempotent unlock and retire.  For every key, ticket and queue
    state: unlocking twice is unlocking once, unqueueing twice is unqueueing
    once, and so for the pair as [utils.js] calls it; unlocking a key that
    holds no lock changes nothing; unlocking removes the lock of the named
    ticket on the named key and nothing else, unqueueing removes the named
    ticket from the named key's line and nothing else. *)
Theorem unlock_unqueue_idempotent (k : string) (t : nat) (q : TransactionQueue) :
  unlockTransaction k t (unlockTransaction k t q) = unlockTransaction k t q ∧
  unqueue k t (unqueue k t q) = unqueue k t q ∧
  unqueue k t (unlockTransaction k t (unqueue k t (unlockTransaction k t q)))
  = unqueue k t (unlockTransaction k t q) ∧
  (if isLocked k q then True else unlockTransaction k t q = q) ∧
  (∀ k', getCurrentTransaction k' (unlockTransaction k t q)
         = match getCurrentTransaction k' q with
           | Some tx => if decide (k = k' ∧ ticketId tx = t) then None else Some tx
           | None => None
           end) ∧
  (∀ k', line k' (unlockTransaction k t q) = line k' q) ∧
  (∀ k', line k' (unqueue k t q)
         = if decide (k = k') then filter (λ x, x ≠ t) (line k' q) else line k' q) ∧
  locks (unqueue k t q) = locks q ∧
  lastTicketId (unqueue k t (unlockTransaction k t q)) = lastTicketId q.
Proof.
  split_and!.
  - apply unlockTransaction_idem.
  - apply unqueue_idem.
  - rewrite <- (unqueue_unlockTransaction_comm (unlockTransaction k t q)).
    now rewrite unlockTransaction_idem, unqueue_idem.
  - destruct (isLocked k q) eqn:Hl; [done|].
    apply unlockTransaction_unlocked. now apply isLocked_false.
  - intros k'. apply locks_unlockTransaction.
  - intros k'. apply line_unlockTransaction.
  - intros k'. apply line_unqueue.
  - done.
  - simpl. apply lastTicketId_unlockTransaction.
Qed.

Lemma Move_frame i k m l p p' s s' lg lg' k' :
  Move i k m l p p' s s' lg lg' → k ≠ k' →
  line k' (transactionQueue s') = line k' (transactionQueue s) ∧
  locks (transactionQueue s') !! k' = locks (transactionQueue s) !! k'.
Proof.
  intros Hmv Hne.
  assert (Hretire : ∀ t,
    line k' (transactionQueue (call_unqueue k t (call_unlockTransaction k t s)))
    = line k' (transactionQueue s) ∧
    locks (transactionQueue (call_unqueue k t (call_unlockTransaction k t s))) !! k'
    = locks (transactionQueue s) !! k').
  { intros t. simpl. rewrite line_unqueue, decide_False by done.
    rewrite line_unlockTransaction, locks_unlockTransaction.
    split; [done|]. destruct (locks (transactionQueue s) !! k'); [|done].
    rewrite decide_False; [done|]. now intros [? _]. }
  destruct Hmv; try done.
  - rewrite call_queue_eq. cbn [snd transactionQueue].
    now rewrite line_queue, decide_False by done.
  - simpl. now rewrite lookup_insert_ne.
  - rewrite call_queue_eq. cbn [snd transactionQueue].
    now rewrite line_queue, decide_False by done.
Qed.

(** C9 — failure isolation across keys.  Whatever step a call of key [k]
    takes — taking its ticket, an attempt of [waitForPendingTransactions],
    locking, the unlock and unqueue of the failure path — the line and the
    lock of every other key are what they were, and so is every other call.
    A rejected submission takes the failing call's own ticket out of its
    key's line, leaves the other tickets of the line in place, and leaves a
    lock held for another ticket alone.  The queue's operations themselves
    touch the named key only. *)
Theorem other_keys_untouched (l : Label) (w w' : World) :
  step l w = Some w' →
  (∀ k', (∀ i tk, actor l = Some i → tasks w !! i = Some tk → safeAddress tk ≠ k') →
         line k' (transactionQueue (sequencer w'))
         = line k' (transactionQueue (sequencer w)) ∧
         getCurrentTransaction k' (transactionQueue (sequencer w'))
         = getCurrentTransaction k' (transactionQueue (sequencer w))) ∧
  (∀ j, actor l ≠ Some j → tasks w' !! j = tasks w !! j) ∧
  (∀ i tk t n,
      l = Posted i Threw → tasks w !! i = Some tk → pc tk = Posting t n →
      line (safeAddress tk) (transactionQueue (sequencer w'))
      = filter (λ x, x ≠ t) (line (safeAddress tk) (transactionQueue (sequencer w))) ∧
      ∀ tx, getCurrentTransaction (safeAddress tk) (transactionQueue (sequencer w)) = Some tx →
            ticketId tx ≠ t →
            getCurrentTransaction (safeAddress tk) (transactionQueue (sequencer w')) = Some tx) ∧
  (∀ q k k' t tx, k ≠ k' →
      line k' (queue k q).2 = line k' q ∧
      getCurrentTransaction k' (queue k q).2 = getCurrentTransaction k' q ∧
      line k' (unqueue k t q) = line k' q ∧
      getCurrentTransaction k' (unqueue k t q) = getCurrentTransaction k' q ∧
      line k' (lockTransaction k tx q) = line k' q ∧
      getCurrentTransaction k' (lockTransaction k tx q) = getCurrentTransaction k' q ∧
      line k' (unlockTransaction k t q) = line k' q ∧
      getCurrentTransaction k' (unlockTransaction k t q) = getCurrentTransaction k' q).
Proof.
  intros Hstep. split_and!.
  - intros k' Hk'.
    apply step_Move in Hstep
      as [(k & -> & ->)|[(k & r & n & -> & ->)|(i & tk & p & s & lg & Hi & Hmv & ->)]];
      [done..|].
    assert (actor l = Some i) as Hl by now destruct Hmv.
    unfold getCurrentTransaction. simpl.
    eapply Move_frame; [exact Hmv|]. eauto.
  - intros j Hj.
    apply step_Move in Hstep
      as [(k & -> & ->)|[(k & r & n & -> & ->)|(i & tk & p & s & lg & Hi & Hmv & ->)]];
      [done..|].
    assert (actor l = Some i) as Hl by now destruct Hmv.
    simpl. apply list_lookup_insert_ne. congruence.
  - intros i tk t n -> Hi Hpc. unfold step in Hstep. rewrite Hi in Hstep.
    simpl in Hstep. rewrite Hpc in Hstep. injection Hstep as <-.
    unfold getCurrentTransaction. simpl. split.
    + rewrite line_unqueue, decide_True by done. now rewrite line_unlockTransaction.
    + intros tx Htx Hne. rewrite locks_unlockTransaction, Htx.
      rewrite decide_False; [done|]. now intros [_ ?].
  - intros q k k' t tx Hne. unfold getCurrentTransaction. split_and!.
    + now rewrite line_queue, decide_False.
    + done.
    + now rewrite line_unqueue, decide_False.
    + done.
    + done.
    + simpl. now rewrite lookup_insert_ne.
    + apply line_unlockTransaction.
    + rewrite locks_unlockTransaction. destruct (locks q !! k'); [|done].
      rewrite decide_False; [done|]. now intros [? _].
Qed.

Lemma other_keys_untouched_witness :
  (∀ k', (∀ i tk, actor (Posted 0 Threw) = Some i →
                  tasks (after opening) !! i = Some tk → safeAddress tk ≠ k') →
         line k' (transactionQueue (sequencer (after (opening ++ [Posted 0 Threw]))))
         = line k' (transactionQueue (sequencer (after opening))) ∧
         getCurrentTransaction k' (transactionQueue (sequencer (after (opening ++ [Posted 0 Threw]))))
         = getCurrentTransaction k' (transactionQueue (sequencer (after opening)))) ∧
  (∀ j, actor (Posted 0 Threw) ≠ Some j →
        tasks (after (opening ++ [Posted 0 Threw])) !! j = tasks (after opening) !! j) ∧
  (∀ i tk t n,
      Posted 0 Threw = Posted i Threw → tasks (after opening) !! i = Some tk →
      pc tk = Posting t n →
      line (safeAddress tk) (transactionQueue (sequencer (after (opening ++ [Posted 0 Threw]))))
      = filter (λ x, x ≠ t)
          (line (safeAddress tk) (transactionQueue (sequencer (after opening)))) ∧
      ∀ tx, getCurrentTransaction (safeAddress tk) (transactionQueue (sequencer (after opening))) = Some tx →
            ticketId tx ≠ t →
            getCurrentTransaction (safeAddress tk)
              (transactionQueue (sequencer (after (opening ++ [Posted 0 Threw])))) = Some tx) ∧
  (∀ q k k' t tx, k ≠ k' →
      line k' (queue k q).2 = line k' q ∧
      getCurrentTransaction k' (queue k q).2 = getCurrentTransaction k' q ∧
      line k' (unqueue k t q) = line k' q ∧
      getCurrentTransaction k' (unqueue k t q) = getCurrentTransaction k' q ∧
      line k' (lockTransaction k tx q) = line k' q ∧
      getCurrentTransaction k' (lockTransaction k tx q) = getCurrentTransaction k' q ∧
      line k' (unlockTransaction k t q) = line k' q ∧
      getCurrentTransaction k' (unlockTransaction k t q) = getCurrentTransaction k' q).
Proof.
  apply (other_keys_untouched (Posted 0 Threw) (after opening)
           (after (opening ++ [Posted 0 Threw]))).
  by_computation.
Defined.

(* ===================================================================== *)
(** ** The poller *)
(* ===================================================================== *)

Module PollerFacts.
Import Poller.

Section Poll.
Context {A : Type} (action : nat → Attempt A) (predicate : A → bool) (o : Options).










End Poll.


End PollerFacts.




Example poll_scenario :
  Poller.poll 8 (λ _, Poller.mkAttempt (Poller.Yields false) 0) id
    (Poller.mkOptions 10 (Some 50) "wait") 0 0
  = Some (Poller.TimedOut "wait" 60).
Proof. reflexivity. Qed.

(* ===================================================================== *)
(** ** Circles and Freckles *)
(* ===================================================================== *)

Module FrecklesFacts.
Import Freckles.
Local Open Scope string_scope.

Lemma append_cons c s t : String c s ++ t = String c (s ++ t).
Proof. reflexivity. Qed.

Lemma append_empty_l t : "" ++ t = t.
Proof. reflexivity. Qed.

Lemma append_empty_r s : s ++ "" = s.
Proof.
  induction s as [|c s IH]; [done|]. now rewrite append_cons, IH.
Qed.

Lemma allDigits_NilEmpty d :
  allDigits (DecimalString.NilEmpty.string_of_uint d) = true.
Proof. induction d; simpl; auto. Qed.

Lemma allDigits_decimal n : allDigits (decimal n) = true.
Proof.
  unfold decimal. destruct (N.to_uint n); try apply allDigits_NilEmpty. done.
Qed.

Lemma decimal_cons n : ∃ c rest, decimal n = String c rest ∧ isDigit c = true.
Proof.
  pose proof (allDigits_decimal n) as H. unfold decimal in *.
  destruct (N.to_uint n); simpl in *; eauto.
Qed.

Lemma readDecimal_uint d :
  N.of_uint <$> DecimalString.NilEmpty.uint_of_string
                  (DecimalString.NilZero.string_of_uint d)
  = Some (N.of_uint d).
Proof.
  destruct d; [done|..];
    unfold DecimalString.NilZero.string_of_uint;
    now rewrite DecimalString.NilEmpty.usu.
Qed.

Lemma readDecimal_decimal n : readDecimal (decimal n) = Some n.
Proof.
  unfold readDecimal, decimal. rewrite readDecimal_uint.
  now rewrite DecimalN.Unsigned.of_to.
Qed.

Lemma isDigit_not_sign c : isDigit c = true →
  Ascii.eqb c "-" = false ∧ Ascii.eqb c "+" = false ∧ Ascii.eqb c "." = false.
Proof.
  destruct c as [[] [] [] [] [] [] [] []]; try discriminate; intros _; done.
Qed.

Lemma takeDigits_all s : allDigits s = true → takeDigits s = s.
Proof.
  induction s as [|c s IH]; [done|]. simpl.
  intros [Hc Hs]%andb_true_iff. rewrite Hc. f_equal. auto.
Qed.

Lemma dropDigits_all s : allDigits s = true → dropDigits s = "".
Proof.
  induction s as [|c s IH]; [done|]. simpl.
  intros [Hc Hs]%andb_true_iff. rewrite Hc. auto.
Qed.

Lemma takeDigits_until s c rest :
  allDigits s = true → isDigit c = false →
  takeDigits (s ++ String c rest) = s.
Proof.
  intros Hs Hc. induction s as [|d s IH].
  - rewrite append_empty_l. simpl. now rewrite Hc.
  - rewrite append_cons. simpl in *.
    apply andb_true_iff in Hs as [Hd Hs]. rewrite Hd. f_equal. auto.
Qed.

Lemma splitMinus_decimal n : splitMinus (decimal n) = (false, decimal n).
Proof.
  destruct (decimal_cons n) as (c & rest & -> & Hc). simpl.
  now destruct (isDigit_not_sign _ Hc) as (-> & _).
Qed.

Lemma decimal_not_special n :
  String.eqb (decimal n) "" = false ∧ String.eqb (decimal n) "." = false.
Proof.
  destruct (decimal_cons n) as (c & rest & -> & Hc). simpl. split; [done|].
  now destruct (isDigit_not_sign _ Hc) as (_ & _ & ->).
Qed.

Lemma toNumber_exact n : (n ≤ 2 ^ 53)%N → toNumber n = n.
Proof.
  intros Hn. unfold toNumber. destruct (N.ltb_spec n (2 ^ 53)) as [|Hge]; [done|].
  assert (n = 2 ^ 53)%N as -> by lia. by vm_compute.
Qed.

Lemma fractionPart_tail r :
  fractionPart r = "" ∨ ∃ c rest, fractionPart r = String c rest ∧ isDigit c = false.
Proof.
  unfold fractionPart. simpl. destruct (String.eqb _ "0"); [now left|right].
  eexists _, _. split; [reflexivity|done].
Qed.

(** What [parseInt] reads off a decimal numeral, whatever follows it. *)
Lemma parseInt_decimal n tail :
  (tail = "" ∨ ∃ c rest, tail = String c rest ∧ isDigit c = false) →
  parseInt (decimal n ++ tail) = Num (Z.of_N (toNumber n)).
Proof.
  intros Htail.
  assert (Htake : takeDigits (decimal n ++ tail) = decimal n).
  { destruct Htail as [->|(c & rest & -> & Hc)].
    - rewrite append_empty_r. apply takeDigits_all, allDigits_decimal.
    - apply takeDigits_until; [apply allDigits_decimal|done]. }
  pose proof (readDecimal_decimal n) as Hread.
  destruct (decimal_cons n) as (c & rest & Hdec & Hc).
  unfold parseInt. rewrite Hdec in *. rewrite append_cons in *.
  destruct (isDigit_not_sign _ Hc) as (-> & -> & _).
  rewrite Htake, Hread. done.
Qed.

Lemma parseInt_minus_decimal n tail :
  (tail = "" ∨ ∃ c rest, tail = String c rest ∧ isDigit c = false) →
  parseInt ("-" ++ decimal n ++ tail) = Num (- Z.of_N (toNumber n)).
Proof.
  intros Htail.
  assert (Htake : takeDigits (decimal n ++ tail) = decimal n).
  { destruct Htail as [->|(c & rest & -> & Hc)].
    - rewrite append_empty_r. apply takeDigits_all, allDigits_decimal.
    - apply takeDigits_until; [apply allDigits_decimal|done]. }
  pose proof (readDecimal_decimal n) as Hread.
  destruct (decimal_cons n) as (c & rest & Hdec & Hc).
  unfold parseInt. rewrite append_cons, append_empty_l.
  change (Ascii.eqb "-" "-") with true. cbv iota beta.
  rewrite Htake. rewrite Hdec in *. now rewrite Hread.
Qed.

Lemma fromWei_decimal n :
  fromWei (decimal n) = Some (decimal (n / base) ++ fractionPart (n mod base)).
Proof.
  unfold fromWei. rewrite splitMinus_decimal, allDigits_decimal.
  destruct (decimal_not_special n) as [-> _]. simpl negb. cbn [andb].
  rewrite readDecimal_decimal. done.
Qed.

Lemma fromWei_minus_decimal n :
  n ≠ 0%N →
  fromWei ("-" ++ decimal n)
  = Some ("-" ++ decimal (n / base) ++ fractionPart (n mod base)).
Proof.
  intros Hn. unfold fromWei. rewrite append_cons, append_empty_l.
  change (splitMinus (String "-" (decimal n))) with (true, decimal n).
  cbv iota beta. rewrite allDigits_decimal.
  destruct (decimal_not_special n) as [-> _]. simpl negb. cbn [andb].
  rewrite readDecimal_decimal. cbn [mbind option_bind].
  destruct (N.eqb_spec n 0); [done|]. done.
Qed.

Lemma fromFreckles_decimal n :
  fromFreckles (decimal n) = Some (Num (Z.of_N (toNumber (n / base)))).
Proof.
  unfold fromFreckles. rewrite fromWei_decimal. simpl.
  f_equal. apply parseInt_decimal, fractionPart_tail.
Qed.

Lemma toFreckles_decimal n : toFreckles (decimal n) = Some (decimal (n * base)).
Proof.
  unfold toFreckles, toWei. rewrite splitMinus_decimal.
  destruct (decimal_not_special n) as [-> ->]. cbn [orb].
  rewrite dropDigits_all, takeDigits_all by apply allDigits_decimal.
  rewrite readDecimal_decimal. cbn [mbind option_bind].
  unfold showZ. destruct (Z.ltb_spec (Z.of_N (n * base)) 0) as [Hneg|_]; [lia|].
  now rewrite Zabs2N.id.
Qed.

Lemma fromFreckles_showZ z :
  fromFreckles (showZ z)
  = Some (Num (Z.sgn z * Z.of_N (toNumber (Z.abs_N z / base)))).
Proof.
  unfold showZ. destruct (Z.ltb_spec z 0) as [Hneg|Hpos].
  - unfold fromFreckles. rewrite fromWei_minus_decimal by lia. simpl.
    f_equal. rewrite (parseInt_minus_decimal _ _ (fractionPart_tail _)).
    f_equal. rewrite Z.sgn_neg by done. lia.
  - rewrite fromFreckles_decimal. f_equal. f_equal.
    destruct (Z.eq_dec z 0) as [->|Hne]; [done|].
    rewrite Z.sgn_pos by lia. lia.
Qed.

End FrecklesFacts.

(** C10 (as amended) — round trip and truncation of the unit conversion.
    For every non-negative integer [n] up to [2^53], the range in which the
    number [parseInt] returns is exact, [toFreckles] of its decimal digits
    is [n * 10^18] and [fromFreckles] of that is [n].  [fromFreckles]
    truncates toward zero: for every integer amount of Freckles whose
    Circles part is within that range, it returns the quotient by [10^18]
    rounded toward zero, the fraction discarded; so the round trip is not
    the identity on amounts that are not whole: 1.5 comes back as 1. *)
Theorem freckles_round_trip (n : N) (z : Z) :
  (n ≤ 2 ^ 53)%N →
  (Z.abs_N z / Freckles.base ≤ 2 ^ 53)%N →
  Freckles.toFreckles (Freckles.decimal n)
  = Some (Freckles.decimal (n * 10 ^ 18)) ∧
  Freckles.toFreckles (Freckles.decimal n) ≫= Freckles.fromFreckles
  = Some (Freckles.Num (Z.of_N n)) ∧
  Freckles.fromFreckles (Freckles.showZ z)
  = Some (Freckles.Num (Z.quot z (10 ^ 18))) ∧
  Freckles.toFreckles "1.5" ≫= Freckles.fromFreckles = Some (Freckles.Num 1).
Proof.
  intros Hn Hz. split_and!.
  - apply FrecklesFacts.toFreckles_decimal.
  - rewrite FrecklesFacts.toFreckles_decimal. cbn [mbind option_bind].
    rewrite FrecklesFacts.fromFreckles_decimal.
    rewrite N.div_mul by done. now rewrite FrecklesFacts.toNumber_exact.
  - rewrite FrecklesFacts.fromFreckles_showZ, FrecklesFacts.toNumber_exact by done.
    f_equal. f_equal. change Freckles.base with (Z.to_N (10 ^ 18)).
    rewrite N2Z.inj_div, N2Z.inj_abs_N, Z2N.id by done.
    rewrite Z.quot_div by done.
    change (Z.sgn (10 ^ 18)) with 1%Z. change (Z.abs (10 ^ 18)) with (10 ^ 18)%Z.
    now rewrite Z.mul_1_r.
  - by vm_compute.
Qed.

Lemma freckles_round_trip_witness :
  Freckles.toFreckles (Freckles.decimal 42)
  = Some (Freckles.decimal (42 * 10 ^ 18)) ∧
  Freckles.toFreckles (Freckles.decimal 42) ≫= Freckles.fromFreckles
  = Some (Freckles.Num (Z.of_N 42)) ∧
  Freckles.fromFreckles (Freckles.showZ (-1500000000000000000))
  = Some (Freckles.Num (Z.quot (-1500000000000000000) (10 ^ 18))) ∧
  Freckles.toFreckles "1.5" ≫= Freckles.fromFreckles = Some (Freckles.Num 1).
Proof.
  apply (freckles_round_trip 42 (-1500000000000000000)).
  - by vm_compute.
  - by vm_compute.
Defined.

(** C10, as first stated, fails above [2^53]: the decimal digits of
    [2^53 + 1] go through [toFreckles] and [fromWei] unharmed, and [parseInt]
    returns the nearest number there is, [2^53]. *)
Lemma freckles_counterexample :
  Freckles.decimal 9007199254740993 = "9007199254740993" ∧
  Freckles.toFreckles "9007199254740993"
  = Some "9007199254740993000000000000000000" ∧
  Freckles.fromWei "9007199254740993000000000000000000"
  = Some "9007199254740993" ∧
  Freckles.toFreckles "9007199254740993" ≫= Freckles.fromFreckles
  = Some (Freckles.Num 9007199254740992) ∧
  (9007199254740992 ≠ 9007199254740993)%Z.
Proof. split_and!; by vm_compute. Qed.

(* ===================================================================== *)
(** ** A ticket left behind; the owner of a lock *)
(* ===================================================================== *)

Module BlockingFacts.
Import Blocking.

Implicit Types (s : Sequencer) (k : string) (t : nat) (tx : Transaction) (p : Pc).

(** No step resumes a call that has returned or thrown. *)
Lemma Move_settled i k m l p p' s s' lg lg' :
  Move i k m l p p' s s' lg lg' → settled p = false.
Proof. now destruct 1. Qed.

Lemma step_settled l w w' j tk :
  step l w = Some w' → tasks w !! j = Some tk → settled (pc tk) = true →
  tasks w' !! j = Some tk.
Proof.
  intros Hstep Hj Hs.
  apply step_Move in Hstep
    as [(k & -> & ->)|[(k & r & n & -> & ->)|(i & tk' & p & s & lg & Hi & Hmv & ->)]];
    [done..|].
  simpl. destruct (decide (i = j)) as [->|Hne].
  - rewrite Hj in Hi. injection Hi as <-. apply Move_settled in Hmv. congruence.
  - now rewrite list_lookup_insert_ne.
Qed.

Lemma run_settled ls w w' j tk :
  run anything ls w = Some w' → tasks w !! j = Some tk → settled (pc tk) = true →
  tasks w' !! j = Some tk.
Proof.
  revert w. induction ls as [|l ls IH]; simpl; intros w.
  - now intros [= <-].
  - destruct (step l w) as [w1|] eqn:Hstep; simpl; [|done].
    intros Hrun Hj Hs. apply (IH w1); [done| |done]. eapply step_settled; eauto.
Qed.

(** The ticket of a call after a move: the one it had, none, or a new one. *)
Lemma Move_ticket i k m l p p' s s' lg lg' :
  Move i k m l p p' s s' lg lg' →
  ticketOf p' = ticketOf p ∨ ticketOf p' = None ∨
  ticketOf p' = Some (S (lastTicketId (transactionQueue s))).
Proof.
  destruct 1; simpl; auto.
  - right. right. now destruct m.
  - left. now destruct enough.
  - right. destruct m; [now left|now right].
Qed.

(** The locks a move records: none, or the one of the call that returns its
    hash. *)
Lemma Move_locks i k m l p p' s s' lg lg' k' tx :
  Move i k m l p p' s s' lg lg' →
  EvLock k' tx ∈ history s' →
  EvLock k' tx ∈ history s ∨
  (k' = k ∧ p' = Returned (Some (txHash tx)) ∧ ticketOf p = Some (ticketId tx)).
Proof.
  destruct 1; try (now left).
  - rewrite call_queue_eq. cbn [snd history].
    intros [?|?]%elem_of_cons; [done|now left].
  - cbn [history]. intros [?|?]%elem_of_cons; [done|now left].
  - cbn [history call_unqueue call_unlockTransaction].
    intros [?|[?|?]%elem_of_cons]%elem_of_cons; try done. now left.
  - cbn [history call_lockTransaction].
    intros [[= -> ->]|?]%elem_of_cons; [now right|now left].
  - cbn [history call_unqueue call_unlockTransaction].
    intros [?|[?|?]%elem_of_cons]%elem_of_cons; try done. now left.
  - rewrite call_queue_eq. cbn [snd history].
    intros [?|?]%elem_of_cons; [done|now left].
  - cbn [history call_unqueue call_unlockTransaction].
    intros [?|[?|?]%elem_of_cons]%elem_of_cons; try done. now left.
Qed.

(** The turns a move records: none, or the one of its own key. *)
Lemma Move_turns i k m l p p' s s' lg lg' k' t :
  Move i k m l p p' s s' lg lg' →
  EvTurn k' t ∈ history s' →
  EvTurn k' t ∈ history s ∨ (k' = k ∧ p = Waiting t ∧ p' = Noncing t).
Proof.
  destruct 1; try (now left).
  - rewrite call_queue_eq. cbn [snd history].
    intros [?|?]%elem_of_cons; [done|now left].
  - cbn [history]. intros [[= -> ->]|?]%elem_of_cons; [now right|now left].
  - cbn [history call_unqueue call_unlockTransaction].
    intros [?|[?|?]%elem_of_cons]%elem_of_cons; try done. now left.
  - cbn [history call_lockTransaction].
    intros [?|?]%elem_of_cons; [done|now left].
  - cbn [history call_unqueue call_unlockTransaction].
    intros [?|[?|?]%elem_of_cons]%elem_of_cons; try done. now left.
  - rewrite call_queue_eq. cbn [snd history].
    intros [?|?]%elem_of_cons; [done|now left].
  - cbn [history call_unqueue call_unlockTransaction].
    intros [?|[?|?]%elem_of_cons]%elem_of_cons; try done. now left.
Qed.

Lemma LocksReturned_step l w w' :
  LocksReturned w → step l w = Some w' → LocksReturned w'.
Proof.
  intros Hw Hstep.
  apply step_Move in Hstep
    as [(k0 & -> & ->)|[(k0 & r & n & -> & ->)|(i & tk & p & s & lg & Hi & Hmv & ->)]];
    [done..|].
  intros k tx Hin. simpl.
  assert (Hlen : i < length (tasks w)) by (eapply lookup_lt_Some; exact Hi).
  destruct (Move_locks _ _ _ _ _ _ _ _ _ _ _ _ Hmv Hin) as [Hold|(-> & -> & _)].
  - destruct (Hw _ _ Hold) as (j & tk' & Hj & Hk & Hpc).
    exists j, tk'. split; [|done].
    rewrite list_lookup_insert_ne; [done|]. intros <-.
    rewrite Hj in Hi. injection Hi as <-. apply Move_settled in Hmv.
    rewrite Hpc in Hmv. done.
  - eexists i, _. split; [now apply list_lookup_insert_eq|]. done.
Qed.

Lemma Reach_LocksReturned allowed w : Reach allowed w → LocksReturned w.
Proof.
  induction 1 as [lg calls|w l w' _ IH _ Hstep].
  - intros k tx Hin. simpl in Hin. now apply elem_of_nil in Hin.
  - eapply LocksReturned_step; eauto.
Qed.

(** A ticket left behind stays where it is, and its key admits nobody. *)
Lemma Abandoned_step k t l w w' :
  Inv w → Abandoned k t w → step l w = Some w' →
  Abandoned k t w' ∧
  ∀ t', EvTurn k t' ∈ history (sequencer w') → EvTurn k t' ∈ history (sequencer w).
Proof.
  intros [Hseq Htask Hdist] [Hfree Hhd Hun Hnl] Hstep.
  apply step_Move in Hstep
    as [(k0 & -> & ->)|[(k0 & r & n & -> & ->)|(i & tk & p & s & lg & Hi & Hmv & ->)]].
  { split; [now split|done]. }
  { split; [now split|done]. }
  pose proof (Htask _ _ Hi) as Hme. pose proof (Hun _ _ Hi) as Hmine.
  assert (Hlen : i < length (tasks w)) by (eapply lookup_lt_Some; exact Hi).
  assert (Hin : t ∈ line k (transactionQueue (sequencer w))).
  { destruct (line k (transactionQueue (sequencer w))); [done|].
    injection Hhd as ->. left. }
  (* the key of the move is another one, or the move is not a turn, a lock
     or a removal of one's own ticket *)
  assert (Hkey : safeAddress tk = k →
            (∀ t0, pc tk = Waiting t0 → p ≠ Noncing t0) ∧
            (∀ t0 n, pc tk ≠ Posting t0 n)).
  { intros Hk. split.
    - intros t0 Hpc ->. inversion Hmv as
        [| | |t1 s0 lg0 Hlocked Hnext| | | | | | | | | |]; subst; try congruence.
      apply isNextInQueue_true in Hnext. rewrite Hhd in Hnext.
      injection Hnext as ->. rewrite Hpc in Hmine. done.
    - intros t0 n Hpc. rewrite Hpc in Hme. destruct Hme as [_ (_ & Hhd' & _)].
      rewrite Hk, Hhd in Hhd'. injection Hhd' as ->. rewrite Hpc in Hmine. done. }
  assert (Hp : ticketOf p ≠ Some t).
  { destruct (Move_ticket _ _ _ _ _ _ _ _ _ _ Hmv) as [-> | [-> | ->]]; [done|done|].
    apply (seq_bound _ Hseq) in Hin. intros [= <-]. lia. }
  assert (Hq : locks (transactionQueue s) !! k = None ∧
               head (line k (transactionQueue s)) = Some t).
  { destruct (decide (safeAddress tk = k)) as [Hk|Hk].
    - destruct (Hkey Hk) as [_ Hpost]. clear Hkey.
      inversion Hmv as
        [s0 lg0|s0 lg0|enough t0 s0 lg0|t0 s0 lg0 Hlocked Hnext|t0 s0 lg0
        |t0 cur s0 lg0 Hcur|t0 cur s0 lg0|t0 cur r s0 lg0 Hr
        |t0 latest contract n s0 lg0 Hn|t0 latest contract s0 lg0 Hn
        |t0 n h s0 lg0|t0 n s0 lg0|s0 lg0|t0 n h s0 lg0];
        subst; match goal with H : _ = pc tk |- _ => rename H into Hpc end;
        rewrite <- Hpc in Hme; simpl in Hme; try done.
      + rewrite call_queue_eq. cbn [fst snd transactionQueue].
        rewrite line_queue, decide_True by done. split; [done|].
        now apply head_snoc_Some.
      + destruct Hme as [_ Hev]. apply Hnl in Hev.
        cbn [call_unqueue call_unlockTransaction transactionQueue].
        rewrite locks_unqueue, locks_unlockTransaction, Hfree.
        rewrite line_unqueue, decide_True, line_unlockTransaction by done.
        split; [done|]. apply head_filter_ne; [done|]. congruence.
      + now destruct (Hpost t0 n).
      + now destruct (Hpost t0 n).
      + rewrite call_queue_eq. cbn [fst snd transactionQueue].
        rewrite line_queue, decide_True by done. split; [done|].
        now apply head_snoc_Some.
      + now destruct (Hpost t0 n).
    - now destruct (Move_frame _ _ _ _ _ _ _ _ _ _ k Hmv Hk) as [-> ->]. }
  destruct Hq as (Hfree' & Hhd'). split.
  - split; simpl; [done|done| |].
    + intros j tk'. destruct (decide (i = j)) as [<-|Hne].
      * rewrite list_lookup_insert_eq by done. now intros [= <-].
      * rewrite list_lookup_insert_ne by done. apply Hun.
    + intros k' tx Hev.
      destruct (Move_locks _ _ _ _ _ _ _ _ _ _ _ _ Hmv Hev) as [Hold|(_ & _ & Ht)];
        [eauto|congruence].
  - intros t' Hev. simpl in Hev.
    destruct (Move_turns _ _ _ _ _ _ _ _ _ _ _ _ Hmv Hev) as [Hold|(Hk & Hw & ->)]; [done|].
    destruct (Hkey (eq_sym Hk)) as [Hturn _]. now destruct (Hturn t').
Qed.

Lemma Abandoned_run k t ls w w' :
  Inv w → Abandoned k t w → run anything ls w = Some w' →
  Inv w' ∧ Abandoned k t w' ∧
  ∀ t', EvTurn k t' ∈ history (sequencer w') → EvTurn k t' ∈ history (sequencer w).
Proof.
  revert w. induction ls as [|l ls IH]; simpl; intros w HI Hab.
  - now intros [= <-].
  - destruct (step l w) as [w1|] eqn:Hstep; simpl; [|done]. intros Hrun.
    destruct (Abandoned_step _ _ _ _ _ HI Hab Hstep) as [Hab1 Hturns1].
    destruct (IH w1 (Inv_step _ _ _ HI Hstep) Hab1 Hrun) as (HI' & Hab' & Hturns').
    split_and!; [done..|]. auto.
Qed.

End BlockingFacts.

(** X1 — a ticket left behind by [requestNonce] blocks its Safe for good
    ([executeSafeTx] / [executeTokenSafeTx], lines 390 and 525, with
    [waitForPendingTransactions]).  In every reachable world, when
    [requestNonce] throws for a call that has had its turn with ticket [t]
    (the relayer gave no nonce and the contract call of the fallback path
    was rejected), the call throws with its ticket still in the line:
    whatever happens afterwards, in any interleaving and whatever the
    relayer answers, the call stays rejected, the key stays unlocked with
    [t] at the head of its line, no other call of that key is ever between
    its turn and its POST, and [waitForPendingTransactions] returns for no
    ticket of that key any more. *)
Theorem abandoned_ticket_blocks_key (w w1 w2 : World) (i : nat) (tk : Task)
    (t : nat) (latest : Response (option N)) (contract : Response N)
    (ls : list Label) :
  Reachable w →
  tasks w !! i = Some tk → pc tk = Noncing t →
  requestNonce latest contract = Threw →
  step (Nonced i latest contract) w = Some w1 →
  run anything ls w1 = Some w2 →
  (pc <$> tasks w2 !! i) = Some Rejected ∧
  isLocked (safeAddress tk) (transactionQueue (sequencer w2)) = false ∧
  isNextInQueue (safeAddress tk) t (transactionQueue (sequencer w2)) = true ∧
  (∀ j tk', tasks w2 !! j = Some tk' → safeAddress tk' = safeAddress tk →
            submitting (pc tk') = false) ∧
  (∀ t', EvTurn (safeAddress tk) t' ∈ history (sequencer w2) →
         EvTurn (safeAddress tk) t' ∈ history (sequencer w1)).
Proof.
  intros Hw Hi Hpc Hnonce Hstep Hrun.
  pose proof (Reach_Inv _ _ Hw) as HI. pose proof HI as [Hseq Htask Hdist].
  pose proof (Htask _ _ Hi) as Hme. rewrite Hpc in Hme.
  destruct Hme as [[Hin Hnl] (Hfree & Hhd & Hev)].
  assert (Hw1 : w1 = advance i tk Rejected (sequencer w) (ledger w) w).
  { unfold step in Hstep. rewrite Hi in Hstep. simpl in Hstep.
    rewrite Hpc, Hnonce in Hstep. now injection Hstep as <-. }
  assert (Hlen : i < length (tasks w)) by (eapply lookup_lt_Some; exact Hi).
  assert (Hab : Blocking.Abandoned (safeAddress tk) t w1).
  { subst w1. split; simpl; [done|done| |done].
    intros j tk'. destruct (decide (i = j)) as [<-|Hne].
    - rewrite list_lookup_insert_eq by done. now intros [= <-].
    - rewrite list_lookup_insert_ne by done. intros Hj Ht. apply Hne.
      apply (Hdist i j tk tk' t); [done|done| |done]. now rewrite Hpc. }
  destruct (BlockingFacts.Abandoned_run _ _ _ _ _ (Inv_step _ _ _ HI Hstep) Hab Hrun)
    as ([_ Htask2 _] & [Hfree2 Hhd2 Hun2 _] & Hturns).
  split_and!.
  - rewrite (BlockingFacts.run_settled ls w1 w2 i
               (mkTask (method tk) (safeAddress tk) Rejected)); [done|done| |done].
    subst w1. simpl. now apply list_lookup_insert_eq.
  - now apply isLocked_false.
  - now apply isNextInQueue_true.
  - intros j tk' Hj Hk. specialize (Htask2 _ _ Hj). specialize (Hun2 _ _ Hj).
    rewrite Hk in Htask2.
    destruct (pc tk') as [|t0|t0|t0 cur|t0|t0 n| |]; try done; simpl in *;
      destruct Htask2 as [_ (_ & Hhd' & _)]; congruence.
  - done.
Qed.

Lemma abandoned_ticket_blocks_key_witness :
  (pc <$> tasks Blocking.stalled !! 0) = Some Rejected ∧
  isLocked safeX (transactionQueue (sequencer Blocking.stalled)) = false ∧
  isNextInQueue safeX 1 (transactionQueue (sequencer Blocking.stalled)) = true ∧
  (∀ j tk', tasks Blocking.stalled !! j = Some tk' → safeAddress tk' = safeX →
            submitting (pc tk') = false) ∧
  (∀ t', EvTurn safeX t' ∈ history (sequencer Blocking.stalled) →
         EvTurn safeX t' ∈ history (sequencer Blocking.abandoned)).
Proof.
  apply (abandoned_ticket_blocks_key (after Blocking.admitted) Blocking.abandoned
           Blocking.stalled 0 (mkTask ExecuteTokenSafeTx safeX (Noncing 1)) 1
           Threw Threw Blocking.meanwhile).
  - reached_by_run.
  - by_computation.
  - reflexivity.
  - reflexivity.
  - by_computation.
  - by_computation.
Defined.

(** X2 — a lock outlives the call that set it ([executeSafeTx] /
    [executeTokenSafeTx], lines 430-436 and 565-571).  In every reachable
    world, a key that is locked is locked by a call that has already
    returned the locked hash to its caller, and no suspended call holds the
    lock's ticket: the call that locks never unlocks, so the lock can only
    be released by the poll attempt of another call (lines 206-209). *)
Theorem lock_outlives_its_call (w : World) (k : string) (tx : Transaction) :
  Reachable w →
  getCurrentTransaction k (transactionQueue (sequencer w)) = Some tx →
  (∃ i tk, tasks w !! i = Some tk ∧ safeAddress tk = k ∧
           pc tk = Returned (Some (txHash tx))) ∧
  (∀ j tk', tasks w !! j = Some tk' → ticketOf (pc tk') ≠ Some (ticketId tx)).
Proof.
  intros Hw Hcur. pose proof (Reach_Inv _ _ Hw) as [Hseq Htask _].
  assert (Hev : EvLock k tx ∈ history (sequencer w)).
  { apply lastLock_elem_of. now apply (seq_lock_last _ Hseq). }
  split.
  - now apply (BlockingFacts.Reach_LocksReturned _ _ Hw).
  - intros j tk' Hj Ht.
    destruct (TaskOk_ticket _ _ _ _ (Htask _ _ Hj) Ht) as [_ Hnl].
    now apply Hnl in Hev.
Qed.

Lemma lock_outlives_its_call_witness :
  (∃ i tk, tasks (after justLocked) !! i = Some tk ∧ safeAddress tk = safeX ∧
           pc tk = Returned (Some (txHash tx1))) ∧
  (∀ j tk', tasks (after justLocked) !! j = Some tk' →
            ticketOf (pc tk') ≠ Some (ticketId tx1)).
Proof.
  apply (lock_outlives_its_call (after justLocked) safeX tx1).
  - reached_by_run.
  - by_computation.
Defined.

(* ===================================================================== *)
(** ** Tickets in the line, and the handover of a key *)
(* ===================================================================== *)

Module ProgressFacts.

(** Of two different events on record one came first. *)
Lemma events_ordered (e1 e2 : Event) (h : list Event) :
  e1 ≠ e2 → e1 ∈ h → e2 ∈ h → precedes e1 e2 h ∨ precedes e2 e1 h.
Proof.
  intros Hne. induction h as [|e h IH]; [intros []%elem_of_nil|].
  intros [->|H1]%elem_of_cons [->|H2]%elem_of_cons.
  - done.
  - right. apply precedes_cons. now left.
  - left. apply precedes_cons. now left.
  - destruct (IH H1 H2); [left|right]; apply precedes_cons; now right.
Qed.

(** A ticket was issued for one key only. *)
Lemma queued_once s k k' t :
  SeqInv s → EvQueue k t ∈ history s → EvQueue k' t ∈ history s → k = k'.
Proof.
  intros Hseq H1 H2. destruct (decide (k = k')) as [|Hne]; [done|].
  destruct (events_ordered (EvQueue k t) (EvQueue k' t) (history s)) as [H|H];
    [congruence|done|done|..];
    apply (seq_queue_order _ Hseq) in H; lia.
Qed.

End ProgressFacts.

(** X3 — a ticket is held by one call and waits in one line
    ([executeSafeTx] / [executeTokenSafeTx], lines 379 and 499, with
    [waitForPendingTransactions]).  In every reachable world, the ticket of
    a call that is suspended anywhere between taking it and the answer to
    its POST stands in the line of the call's Safe and in no other line, is
    held by no other call, and is not newer than the last ticket issued;
    and that line is in strictly increasing order of tickets, so no ticket
    stands in it twice. *)
Theorem held_ticket_in_line (w : World) (i : nat) (tk : Task) (t : nat) :
  Reachable w → tasks w !! i = Some tk → ticketOf (pc tk) = Some t →
  t ∈ line (safeAddress tk) (transactionQueue (sequencer w)) ∧
  t ≤ lastTicketId (transactionQueue (sequencer w)) ∧
  (∀ k, t ∈ line k (transactionQueue (sequencer w)) → k = safeAddress tk) ∧
  (∀ j tk', tasks w !! j = Some tk' → ticketOf (pc tk') = Some t → j = i) ∧
  StronglySorted lt (line (safeAddress tk) (transactionQueue (sequencer w))).
Proof.
  intros Hw Hi Ht. pose proof (Reach_Inv _ _ Hw) as [Hseq Htask Hdist].
  destruct (TaskOk_ticket _ _ _ _ (Htask _ _ Hi) Ht) as [Hin _].
  split_and!.
  - done.
  - now apply (seq_bound _ Hseq) in Hin.
  - intros k Hk. apply (seq_line_queued _ Hseq) in Hin, Hk.
    now apply (ProgressFacts.queued_once (sequencer w) k (safeAddress tk) t).
  - intros j tk' Hj Ht'. now apply (Hdist j i tk' tk t).
  - apply (seq_sorted _ Hseq).
Qed.

Lemma held_ticket_in_line_witness :
  2 ∈ line safeX (transactionQueue (sequencer (after submitted))) ∧
  2 ≤ lastTicketId (transactionQueue (sequencer (after submitted))) ∧
  (∀ k, 2 ∈ line k (transactionQueue (sequencer (after submitted))) → k = safeX) ∧
  (∀ j tk', tasks (after submitted) !! j = Some tk' →
            ticketOf (pc tk') = Some 2 → j = 1) ∧
  StronglySorted lt (line safeX (transactionQueue (sequencer (after submitted)))).
Proof.
  apply (held_ticket_in_line (after submitted) 1
           (mkTask ExecuteTokenSafeTx safeX (Probing 2 tx1)) 2).
  - reached_by_run.
  - by_computation.
  - reflexivity.
Defined.



(* ===================================================================== *)
(** ** Requests: URLs, bodies and error statuses *)
(* ===================================================================== *)

Module HttpFacts.
Import Http FrecklesFacts.
Local Open Scope string_scope.

Lemma append_assoc (a b c : string) : (a ++ b) ++ c = a ++ (b ++ c).
Proof.
  induction a as [|x a IH]; [done|]. rewrite !append_cons. now f_equal.
Qed.

Lemma join_slashed (first : string) (rest : list string) :
  join "/" (first :: rest) = first ++ slashed rest.
Proof.
  revert first. induction rest as [|second rest IH]; intros first.
  - simpl. now rewrite append_empty_r.
  - change (join "/" (first :: second :: rest))
      with (first ++ "/" ++ join "/" (second :: rest)).
    now rewrite IH.
Qed.

Section Exchange.
Context {Json Body : Type} (fetch : string → Init → Fetched Json Body).

(** [exchange] resolves exactly on a response below 400 whose JSON, if it
    announces any, can be read. *)
Lemma exchange_Resolves url init :
  (∃ value, exchange fetch url init = Resolves value) ↔
  ∃ response, fetch url init = FetchResolves response ∧
              status response < 400 ∧
              (isJson response = true → json response ≠ Threw).
Proof.
  unfold exchange, respond. split.
  - intros [value H]. destruct (fetch url init) as [m| |response]; try done.
    exists response. split; [done|].
    destruct (isJson response), (json response), (Nat.leb_spec 400 (status response));
      try done; split; try lia; done.
  - intros (response & -> & Hs & Hj).
    destruct (Nat.leb_spec 400 (status response)) as [|_]; [lia|].
    destruct (isJson response); [|eauto].
    destruct (json response); [now destruct Hj|eauto].
Qed.

End Exchange.

(** *** The replacement of white space in a GraphQL query *)

Lemma singleSpaced_cons c query :
  singleSpaced (c :: query)
  = negb (isWhiteSpace c && startsSpaced query) && singleSpaced query.
Proof. destruct query; simpl; [|done]. now rewrite andb_false_r. Qed.

Lemma replaceRuns_inMatch query : startsSpaced (replaceRuns true query) = false.
Proof.
  induction query as [|c query IH]; [done|]. cbn [replaceRuns].
  destruct (isWhiteSpace c) eqn:Hc; [done|]. done.
Qed.

Lemma replaceRuns_start query :
  startsSpaced query = false → startsSpaced (replaceRuns false query) = false.
Proof.
  destruct query as [|c query]; [done|]. cbn [startsSpaced replaceRuns].
  intros Hc. now rewrite Hc.
Qed.

Lemma replaceRuns_singleSpaced inMatch query :
  singleSpaced (replaceRuns inMatch query) = true.
Proof.
  revert inMatch. induction query as [|c query IH]; intros inMatch; [done|].
  cbn [replaceRuns]. destruct (isWhiteSpace c) eqn:Hc.
  - destruct inMatch; [apply IH|].
    destruct query as [|d query]; [done|].
    destruct (isWhiteSpace d) eqn:Hd.
    + rewrite singleSpaced_cons, replaceRuns_inMatch, IH. now rewrite andb_false_r.
    + rewrite singleSpaced_cons, IH, replaceRuns_start; [|done]. now rewrite andb_false_r.
  - rewrite singleSpaced_cons, Hc, IH. done.
Qed.

Lemma replaceRuns_letters inMatch query :
  filter (λ c, isWhiteSpace c = false) (replaceRuns inMatch query)
  = filter (λ c, isWhiteSpace c = false) query.
Proof.
  revert inMatch. induction query as [|c query IH]; intros inMatch; [done|].
  cbn [replaceRuns]. destruct (isWhiteSpace c) eqn:Hc.
  - rewrite (filter_cons_False _ c) by congruence.
    destruct inMatch; [apply IH|].
    destruct query as [|d query]; [now rewrite filter_cons_False by congruence|].
    destruct (isWhiteSpace d) eqn:Hd.
    + rewrite filter_cons_False by done. apply IH.
    + rewrite filter_cons_False by congruence. apply IH.
  - rewrite !filter_cons_True by done. f_equal. apply IH.
Qed.

Lemma replaceRuns_length inMatch query :
  (length (replaceRuns inMatch query) ≤ length query)%nat.
Proof.
  revert inMatch. induction query as [|c query IH]; intros inMatch; [done|].
  cbn [replaceRuns]. destruct (isWhiteSpace c).
  - destruct inMatch; [specialize (IH true); simpl; lia|].
    destruct query as [|d query]; [done|].
    destruct (isWhiteSpace d).
    + specialize (IH true). simpl in *. lia.
    + specialize (IH false). simpl in *. lia.
  - specialize (IH false). simpl. lia.
Qed.

Lemma replaceRuns_fixed query :
  singleSpaced query = true → replaceRuns false query = query.
Proof.
  induction query as [|c query IH]; [done|].
  rewrite singleSpaced_cons. intros [Hc Hq]%andb_true_iff.
  cbn [replaceRuns]. destruct (isWhiteSpace c) eqn:Hw.
  - destruct query as [|d query]; [done|]. simpl in Hc.
    destruct (isWhiteSpace d); [done|]. f_equal. auto.
  - f_equal. auto.
Qed.

End HttpFacts.

(** Unfolds a request down to [Http.exchange] and brings its URL into shape. *)
Ltac route :=
  unfold Http.estimateTransactionCosts, Http.requestRelayer, Http.requestAPI,
    Http.request, Http.urlOf, Http.initOf;
  cbn [Http.path Http.method Http.data Http.isTrailingSlash default app
       Http.relayerPath Http.version Http.relayerMethod Http.relayerData
       Http.estimateSafeAddress Http.estimateTo Http.estimateTxData
       Http.estimateValue Http.estimateGasToken Http.estimateOperation];
  try change (String.eqb "POST" "GET") with false;
  try change (String.eqb "PUT" "GET") with false;
  cbv iota;
  rewrite ?HttpFacts.join_slashed; cbn [Http.slashed foldr];
  rewrite ?HttpFacts.append_assoc.

(** X5 — how [request] ends (lines 55-77).  Whatever [fetch] does: [request]
    resolves only on a response whose status is below 400, to the parsed
    JSON when the response announces JSON and to the raw body otherwise; a
    [RequestError] names the URL that was requested and carries the status
    of the response, which is then 400 or more, or no status at all when
    [fetch] threw on the spot; and a rejection of [fetch] or of
    [response.json()] is passed on as it is, not wrapped. *)
Theorem request_error_status {Value Json Body : Type}
    (parameterize stringify : Http.Data Value → string)
    (fetch : string → Http.Init → Http.Fetched Json Body)
    (endpoint : string) (userOptions : Http.RequestOptions Value) :
  match Http.request parameterize stringify fetch endpoint userOptions with
  | Http.Resolves value =>
      ∃ response,
        fetch (Http.urlOf parameterize endpoint userOptions)
              (Http.initOf stringify userOptions) = Http.FetchResolves response ∧
        Http.status response < 400 ∧
        if Http.isJson response
        then ∃ json, Http.json response = Replied json ∧ value = inl json
        else value = inr (Http.responseBody response)
  | Http.RequestError url body status =>
      url = Http.urlOf parameterize endpoint userOptions ∧
      match status with
      | Some code =>
          400 ≤ code ∧
          ∃ response,
            fetch url (Http.initOf stringify userOptions)
            = Http.FetchResolves response ∧
            Http.status response = code
      | None =>
          ∃ message,
            fetch url (Http.initOf stringify userOptions) = Http.FetchThrows message ∧
            body = Http.OfMessage message
      end
  | Http.Rejects =>
      fetch (Http.urlOf parameterize endpoint userOptions)
            (Http.initOf stringify userOptions) = Http.FetchRejects ∨
      ∃ response,
        fetch (Http.urlOf parameterize endpoint userOptions)
              (Http.initOf stringify userOptions) = Http.FetchResolves response ∧
        Http.isJson response = true ∧ Http.json response = Threw
  end.
Proof.
  unfold Http.request, Http.exchange.
  destruct (fetch _ _) as [message| |response] eqn:Hfetch.
  - split; [done|]. eauto.
  - now left.
  - unfold Http.respond.
    destruct (Http.isJson response) eqn:Hjson.
    + destruct (Http.json response) as [|json] eqn:Hparse.
      * right. eauto.
      * destruct (Nat.leb_spec 400 (Http.status response)).
        -- split; [done|]. split; [done|]. eauto.
        -- exists response. rewrite Hjson. split_and!; [done..|]. eauto.
    + destruct (Nat.leb_spec 400 (Http.status response)).
      * split; [done|]. split; [done|]. eauto.
      * exists response. rewrite Hjson. done.
Qed.

(** X6 — where [request] puts its data (lines 44-53).  The data of a [GET]
    request go into the URL and the request has no body; the data of any
    other request go into the body, as JSON, and leave no trace in the URL:
    two requests that differ in their data only have the same body in the
    first case and the same URL in the second. *)
Theorem request_data_placement {Value : Type}
    (parameterize stringify : Http.Data Value → string)
    (endpoint : string) (path : list string) (method : option string)
    (data data' : option (Http.Data Value)) (isTrailingSlash : option bool) :
  if String.eqb (default "GET"%string method) "GET"
  then
    Http.body (Http.initOf stringify
                 (Http.mkRequestOptions path method data isTrailingSlash)) = None ∧
    Http.initOf stringify (Http.mkRequestOptions path method data isTrailingSlash)
    = Http.initOf stringify (Http.mkRequestOptions path method data' isTrailingSlash)
  else
    Http.body (Http.initOf stringify
                 (Http.mkRequestOptions path method data isTrailingSlash))
    = Some (stringify (default Http.EmptyObject data)) ∧
    Http.urlOf parameterize endpoint
      (Http.mkRequestOptions path method data isTrailingSlash)
    = Http.urlOf parameterize endpoint
        (Http.mkRequestOptions path method data' isTrailingSlash).
Proof.
  unfold Http.initOf, Http.urlOf. simpl.
  destruct (String.eqb (default "GET"%string method) "GET"); done.
Qed.

(** X7 — the routes of [requestRelayer] and [requestAPI] (lines 80-106 and
    590-610).  A relayer request goes to [<endpoint>/api/v<version>],
    version 1 unless stated, and an API request to [<endpoint>/api], each
    followed by the path elements with a slash before each and one more
    slash at the end; after that comes the query string of the data for
    [GET], which is the default method, and nothing for any other method,
    which has the data as its JSON body instead. *)
Theorem relayer_and_api_routes {Value Json Body : Type}
    (parameterize stringify : Http.Data Value → string)
    (fetch : string → Http.Init → Http.Fetched Json Body)
    (endpoint : string) (relayerOptions : Http.RelayerOptions Value)
    (apiOptions : Http.ApiOptions Value) :
  Http.requestRelayer parameterize stringify fetch endpoint relayerOptions
  = Http.exchange fetch
      (endpoint ++ "/api/v"
       ++ Freckles.decimal (default 1%N (Http.version relayerOptions))
       ++ Http.slashed (Http.relayerPath relayerOptions) ++ "/"
       ++ (if String.eqb (default "GET" (Http.relayerMethod relayerOptions)) "GET"
           then parameterize (default Http.EmptyObject (Http.relayerData relayerOptions))
           else ""))%string
      (Http.mkInit (default "GET"%string (Http.relayerMethod relayerOptions))
         "application/json"
         (if String.eqb (default "GET"%string (Http.relayerMethod relayerOptions)) "GET"
          then None
          else Some (stringify (default Http.EmptyObject
                                        (Http.relayerData relayerOptions))))) ∧
  Http.requestAPI parameterize stringify fetch endpoint apiOptions
  = Http.exchange fetch
      (endpoint ++ "/api" ++ Http.slashed (Http.apiPath apiOptions) ++ "/"
       ++ (if String.eqb (default "GET" (Http.apiMethod apiOptions)) "GET"
           then parameterize (default Http.EmptyObject (Http.apiData apiOptions))
           else ""))%string
      (Http.mkInit (default "GET"%string (Http.apiMethod apiOptions))
         "application/json"
         (if String.eqb (default "GET"%string (Http.apiMethod apiOptions)) "GET"
          then None
          else Some (stringify (default Http.EmptyObject
                                        (Http.apiData apiOptions))))).
Proof.
  split.
  - route. fold (Http.slashed (Http.relayerPath relayerOptions)).
    now rewrite ?HttpFacts.append_assoc.
  - route. fold (Http.slashed (Http.apiPath apiOptions)).
    now rewrite ?HttpFacts.append_assoc.
Qed.

(** X8 — the request of [estimateTransactionCosts] (lines 137-161, through
    [requestRelayer] and [request]).  The estimate is a [POST] to
    [<endpoint>/api/v2/safes/<safeAddress>/transactions/estimate/] with no
    query string, whose body is the JSON of the transaction with the Safe
    under [safe]; a [value], [gasToken] or [operation] that is not given is
    sent as [0], [ZERO_ADDRESS] and [CALL_OP]. *)
Theorem estimate_request {Value Json Body : Type}
    (parameterize stringify : Http.Data Value → string)
    (CALL_OP : N) (ZERO_ADDRESS : string)
    (fetch : string → Http.Init → Http.Fetched Json Body)
    (endpoint : string) (o : Http.EstimateOptions) :
  Http.estimateTransactionCosts parameterize stringify CALL_OP ZERO_ADDRESS fetch
                                endpoint o
  = Http.exchange fetch
      (endpoint ++ "/api/v2/safes/" ++ Http.estimateSafeAddress o
       ++ "/transactions/estimate/")%string
      (Http.mkInit "POST" "application/json"
         (Some (stringify
                  (Http.Estimate (Http.estimateSafeAddress o) (Http.estimateTxData o)
                     (Http.estimateTo o)
                     (default 0%Z (Http.estimateValue o))
                     (default CALL_OP (Http.estimateOperation o))
                     (default ZERO_ADDRESS (Http.estimateGasToken o)))))).
Proof. route. reflexivity. Qed.

(** X23 — what [executeTokenSafeTx] and [executeSafeTx] ask before they take
    a ticket (lines 348-376 and 461-496, through [estimateTransactionCosts]).
    [executeTokenSafeTx] asks for an estimate only for a Safe that has a
    token, and with that token as gas token, value 0 and [CALL_OP]; for a
    Safe whose token is [ZERO_ADDRESS] it throws without any request.
    [executeSafeTx] always asks, with the gas token [ZERO_ADDRESS], the data
    ['0x'] and the value 0 where the caller names none.  Both estimates go
    to [<endpoint>/api/v2/safes/<safeAddress>/transactions/estimate/]. *)
Theorem execute_estimates {Value Json Body : Type}
    (parameterize stringify : Http.Data Value → string)
    (CALL_OP : N) (ZERO_ADDRESS : string)
    (fetch : string → Http.Init → Http.Fetched Json Body)
    (endpoint : string) (userToToken : Response string)
    (safeAddress to txData : string)
    (gasToken' txData' : option string) (value' : option Z) :
  Http.executeTokenSafeTxEstimate parameterize stringify CALL_OP ZERO_ADDRESS fetch
    endpoint userToToken safeAddress to txData
  = match userToToken with
    | Threw => Http.HubRejects
    | Replied tokenAddress =>
        if String.eqb tokenAddress ZERO_ADDRESS then Http.TokenNotFound
        else
          Http.Requested
            (Http.exchange fetch
               (endpoint ++ "/api/v2/safes/" ++ safeAddress
                ++ "/transactions/estimate/")%string
               (Http.mkInit "POST" "application/json"
                  (Some (stringify
                           (Http.Estimate safeAddress txData to 0 CALL_OP
                                          tokenAddress)))))
    end ∧
  Http.executeSafeTxEstimate parameterize stringify CALL_OP ZERO_ADDRESS fetch
    endpoint safeAddress to gasToken' txData' value'
  = Http.Requested
      (Http.exchange fetch
         (endpoint ++ "/api/v2/safes/" ++ safeAddress
          ++ "/transactions/estimate/")%string
         (Http.mkInit "POST" "application/json"
            (Some (stringify
                     (Http.Estimate safeAddress (default "0x"%string txData') to
                        (default 0%Z value') CALL_OP
                        (default ZERO_ADDRESS gasToken')))))).
Proof.
  split.
  - unfold Http.executeTokenSafeTxEstimate. cbv zeta.
    destruct userToToken as [|tokenAddress]; [done|].
    destruct (String.eqb tokenAddress ZERO_ADDRESS); [done|].
    f_equal. route. reflexivity.
  - unfold Http.executeSafeTxEstimate. cbv zeta. f_equal. route. reflexivity.
Qed.

(** X9 — [deployForOrganization] of [src/safe.js] (lines 529-545, through
    [utils.requestRelayer]).  The call never returns [false]: it returns
    [true] exactly when the relayer answers the [PUT] on
    [<endpoint>/api/v2/safes/<safeAddress>/organization/], sent with the JSON
    of the empty object as its body, with a status below 400 (and with JSON
    that can be read, if it announces JSON); otherwise it throws. *)
Theorem deployForOrganization_true {Value Json Body : Type}
    (parameterize stringify : Http.Data Value → string)
    (fetch : string → Http.Init → Http.Fetched Json Body)
    (relayServiceEndpoint safeAddress : string) :
  (∀ result,
      Http.deployForOrganization parameterize stringify fetch
        relayServiceEndpoint safeAddress = Http.Resolves result →
      result = true) ∧
  (Http.deployForOrganization parameterize stringify fetch
     relayServiceEndpoint safeAddress = Http.Resolves true ↔
   ∃ response,
     fetch (relayServiceEndpoint ++ "/api/v2/safes/" ++ safeAddress
            ++ "/organization/")%string
           (Http.mkInit "PUT" "application/json" (Some (stringify Http.EmptyObject)))
     = Http.FetchResolves response ∧
     Http.status response < 400 ∧
     (Http.isJson response = true → Http.json response ≠ Threw)).
Proof.
  assert (Hrequest :
    Http.requestRelayer parameterize stringify fetch relayServiceEndpoint
      (Http.mkRelayerOptions ["safes"; safeAddress; "organization"]%string
         (Some 2%N) (Some "PUT"%string) None)
    = Http.exchange fetch
        (relayServiceEndpoint ++ "/api/v2/safes/" ++ safeAddress
         ++ "/organization/")%string
        (Http.mkInit "PUT" "application/json" (Some (stringify Http.EmptyObject)))).
  { route. reflexivity. }
  unfold Http.deployForOrganization. rewrite Hrequest.
  rewrite <- HttpFacts.exchange_Resolves. split.
  - intros result. destruct (Http.exchange _ _ _); [|done..]. now intros [= <-].
  - destruct (Http.exchange _ _ _) as [value| |]; split; try done; eauto.
    + now intros [? ?].
    + now intros [? ?].
Qed.

(** X10 — what [requestGraph] does to the white space of a query (line 119).
    In the query that is sent no two white-space characters stand in a row;
    every other character of the given query is there, in the same order,
    and nothing else but the spaces put in; the query has not grown; and
    replacing once more would change nothing. *)
Theorem graph_query_single_spaced (query : list N) :
  Http.singleSpaced (Http.replaceRuns false query) = true ∧
  filter (λ c, Http.isWhiteSpace c = false) (Http.replaceRuns false query)
  = filter (λ c, Http.isWhiteSpace c = false) query ∧
  length (Http.replaceRuns false query) ≤ length query ∧
  Http.replaceRuns false (Http.replaceRuns false query)
  = Http.replaceRuns false query.
Proof.
  split_and!.
  - apply HttpFacts.replaceRuns_singleSpaced.
  - apply HttpFacts.replaceRuns_letters.
  - apply HttpFacts.replaceRuns_length.
  - apply HttpFacts.replaceRuns_fixed, HttpFacts.replaceRuns_singleSpaced.
Qed.

(** X11 — white space that stands alone is left as it is (line 119).  A query
    in which no two white-space characters stand in a row is sent unchanged:
    a single tab or line break is not turned into a space. *)
Theorem graph_query_fixed (query : list N) :
  Http.singleSpaced query = true → Http.replaceRuns false query = query.
Proof. apply HttpFacts.replaceRuns_fixed. Qed.

Lemma graph_query_fixed_witness :
  Http.replaceRuns false [123; 10; 117; 9; 125]%N = [123; 10; 117; 9; 125]%N.
Proof. apply (graph_query_fixed [123; 10; 117; 9; 125]%N). reflexivity. Defined.

(** X12 — the request of [requestGraph] (lines 108-135).  The query goes by
    [POST] to [<endpoint>/subgraphs/name/<subgraphName>], with no slash and
    no query string after it; the body is the JSON of the query with its
    white space replaced and of the variables, which are left out
    ([undefined]) when none are given or the object given has no key, and
    are never an empty object; the result is the [data] property of what the
    request resolves to. *)
Theorem graph_request {Value Json Body GraphData : Type}
    (parameterize stringify : Http.Data Value → string)
    (dataOf : Json + Body → Response GraphData)
    (fetch : string → Http.Init → Http.Fetched Json Body)
    (endpoint subgraphName : string) (userOptions : Http.GraphOptions) :
  ∃ variables,
    variables ≠ Some [] ∧
    (∀ entries, variables = Some entries →
                Http.graphVariables userOptions = Some entries) ∧
    (variables = None →
     Http.graphVariables userOptions = None ∨
     Http.graphVariables userOptions = Some []) ∧
    Http.requestGraph parameterize stringify dataOf fetch endpoint subgraphName
                      userOptions
    = match Http.exchange fetch
              (endpoint ++ "/subgraphs/name/" ++ subgraphName)%string
              (Http.mkInit "POST" "application/json"
                 (Some (stringify
                          (Http.GraphQuery
                             (Http.replaceRuns false (Http.graphQuery userOptions))
                             variables)))) with
      | Http.Resolves response =>
          match dataOf response with
          | Replied data => Http.Resolves data
          | Threw => Http.Rejects
          end
      | Http.RequestError url body status => Http.RequestError url body status
      | Http.Rejects => Http.Rejects
      end.
Proof.
  exists (match Http.graphVariables userOptions with
          | Some (entry :: entries) => Some (entry :: entries)
          | _ => None
          end).
  split_and!.
  - now destruct (Http.graphVariables userOptions) as [[|]|].
  - destruct (Http.graphVariables userOptions) as [[|]|]; try done.
  - destruct (Http.graphVariables userOptions) as [[|]|]; try done; auto.
  - unfold Http.requestGraph, Http.graphRequest, Http.request, Http.urlOf,
      Http.initOf.
    cbn [Http.path Http.method Http.data Http.isTrailingSlash default].
    change (String.eqb "POST" "GET") with false. cbv iota.
    rewrite HttpFacts.join_slashed. cbn [Http.slashed foldr].
    rewrite !HttpFacts.append_assoc, !FrecklesFacts.append_empty_r.
    now destruct (Http.graphVariables userOptions) as [[|]|].
Qed.

(* ===================================================================== *)
(** ** The Safe module and the organization module *)
(* ===================================================================== *)

Module ScriptFacts.
Import Script.

Lemma bind_await_inr {A B} (answer : Error + A) (a : A) (f : A → Script B) :
  answer = inr a → (await answer ≫= f) = f a.
Proof. intros ->. unfold await, mbind, Script_bind. now destruct (f a). Qed.

Lemma bind_await_inl {A B} (answer : Error + A) (e : Error) (f : A → Script B) :
  answer = inl e → (await answer ≫= f) = ([], inl e).
Proof. now intros ->. Qed.

Lemma bind_perform {A B} effect (answer : Error + A) (f : A → Script B) :
  (perform effect answer ≫= f)
  = match answer with
    | inr a => (effect :: (f a).1, (f a).2)
    | inl e => ([effect], inl e)
    end.
Proof.
  unfold perform, mbind, Script_bind. destruct answer as [e|a]; [done|].
  now destruct (f a).
Qed.

End ScriptFacts.

Module SafeFacts.
Import Script Safe ScriptFacts.

Section Module.
Context {Receipt : Type} (ZERO_ADDRESS : string)
        (env : Collaborators (Receipt := Receipt)).

(** What [_sendTransaction] does, in one piece. *)
Lemma _sendTransaction_eq signer safeAddress target transactionData :
  _sendTransaction env signer safeAddress target transactionData
  = match prepare env signer safeAddress
            (mkSafeTransactionData (txTo transactionData)
               (default 0%Z (txValue transactionData)) (txData transactionData)) with
    | inr data =>
        ([UtilsSendTransaction (targetOr target safeAddress) data],
         sendTransaction env (targetOr target safeAddress) data)
    | inl error => ([], inl error)
    end.
Proof.
  unfold _sendTransaction, _createTransaction.
  destruct (prepare _ _ _ _) as [error|data] eqn:Hp.
  - now apply bind_await_inl.
  - erewrite bind_await_inr by done. done.
Qed.

Lemma targetOr_sendTransaction safeAddress userTarget :
  targetOr (if String.eqb (default ZERO_ADDRESS userTarget) ZERO_ADDRESS
            then None else Some (default ZERO_ADDRESS userTarget)) safeAddress
  = match userTarget with
    | Some address =>
        if String.eqb address ZERO_ADDRESS || String.eqb address ""
        then safeAddress else address
    | None => safeAddress
    end.
Proof.
  destruct userTarget as [address|]; simpl.
  - destruct (String.eqb address ZERO_ADDRESS); [done|]. simpl. done.
  - now rewrite String.eqb_refl.
Qed.

End Module.
End SafeFacts.

(** X13 — where [sendTransaction] of the Safe module sends ([part_000],
    lines 135-183 and 562-584).  The transaction is prepared with the value
    0 unless [transactionData] names one; if the preparation fails nothing
    is sent and its error is thrown; otherwise exactly one call of
    [utils.sendTransaction] is made, with the prepared data, and its answer
    is the result.  The target is the option [target] when that is given
    and is neither [ZERO_ADDRESS] nor empty, and the Safe itself otherwise:
    the zero address is never the target of a Safe other than itself. *)
Theorem sendTransaction_target {Receipt : Type} (ZERO_ADDRESS : string)
    (env : Safe.Collaborators (Receipt := Receipt))
    (account safeAddress : string) (userTarget : option string)
    (transactionData : Safe.TransactionData) :
  ∃ target,
    target = match userTarget with
             | Some address =>
                 if String.eqb address ZERO_ADDRESS || String.eqb address ""
                 then safeAddress else address
             | None => safeAddress
             end ∧
    (target = ZERO_ADDRESS → safeAddress = ZERO_ADDRESS) ∧
    Safe.sendTransactionOf ZERO_ADDRESS env account safeAddress userTarget
                           transactionData
    = match Safe.prepare env account safeAddress
              (Safe.mkSafeTransactionData (Safe.txTo transactionData)
                 (default 0%Z (Safe.txValue transactionData))
                 (Safe.txData transactionData)) with
      | inr data =>
          ([Script.UtilsSendTransaction target data],
           Safe.sendTransaction env target data)
      | inl error => ([], inl error)
      end.
Proof.
  eexists. split; [reflexivity|]. split.
  - destruct userTarget as [address|]; [|done].
    destruct (String.eqb_spec address ZERO_ADDRESS) as [|Hne]; [done|]. simpl.
    destruct (String.eqb address ""); [done|]. done.
  - unfold Safe.sendTransactionOf.
    rewrite SafeFacts._sendTransaction_eq, SafeFacts.targetOr_sendTransaction.
    done.
Qed.

Module OrganizationFacts.
Import Script Safe Organization ScriptFacts SafeFacts.

Section Module.
Context {Receipt : Type} (ZERO_ADDRESS hubAddress : string)
        (encodeABI : ContractCall → string)
        (toChecksumAddress : string → string)
        (env : Organization.Collaborators (Receipt := Receipt)).

Lemma safeSendTransaction_eq account safeAddress transactionData :
  safeSendTransaction ZERO_ADDRESS env account safeAddress None transactionData
  = match prepare (safe env) account safeAddress
            (mkSafeTransactionData (txTo transactionData)
               (default 0%Z (txValue transactionData)) (txData transactionData)) with
    | inr data =>
        ([UtilsSendTransaction safeAddress data],
         sendTransaction (safe env) safeAddress data)
    | inl error => ([], inl error)
    end.
Proof.
  unfold safeSendTransaction, sendTransactionOf.
  rewrite _sendTransaction_eq. simpl. now rewrite String.eqb_refl.
Qed.

(** [prefund], one answer after the other. *)
Lemma prefund_eq account from to value :
  prefund ZERO_ADDRESS hubAddress encodeABI env account from to value
  = match organizations env to with
    | inl error => ([], inl error)
    | inr false => ([], inl (CoreError "Given address is not an organization" None))
    | inr true =>
        match userToToken env from with
        | inl error => ([], inl error)
        | inr tokenAddress =>
            if String.eqb tokenAddress ZERO_ADDRESS
            then ([], inl (CoreError "No token given to pay transaction"
                                     (Some INSUFFICIENT_FUNDS)))
            else
              match balanceOf env tokenAddress from with
              | inl error => ([], inl error)
              | inr balance =>
                  if (value <=? balance)%Z then
                    match addConnection env from to with
                    | inl error => ([TrustAddConnection from to], inl error)
                    | inr _ =>
                        match awaitFullTrust env to from with
                        | inl error => ([TrustAddConnection from to], inl error)
                        | inr _ =>
                            match prepare (safe env) account from
                                    (mkSafeTransactionData hubAddress 0
                                       (encodeABI
                                          (TransferThrough [from] [from] [to]
                                             [Freckles.showZ value]))) with
                            | inl error => ([TrustAddConnection from to], inl error)
                            | inr data =>
                                ([TrustAddConnection from to;
                                  UtilsSendTransaction from data],
                                 sendTransaction (safe env) from data)
                            end
                        end
                    end
                  else ([], inl (CoreError "No sufficient funds to pay transaction"
                                           (Some INSUFFICIENT_FUNDS)))
              end
        end
    end.
Proof.
  unfold prefund.
  destruct (organizations env to) as [e|[|]] eqn:Horg;
    [now apply bind_await_inl| |now erewrite bind_await_inr by done].
  erewrite bind_await_inr by done. cbn [negb].
  destruct (userToToken env from) as [e|tokenAddress] eqn:Htoken;
    [now apply bind_await_inl|].
  erewrite bind_await_inr by done.
  destruct (String.eqb tokenAddress ZERO_ADDRESS); [done|].
  destruct (balanceOf env tokenAddress from) as [e|balance] eqn:Hbalance;
    [now apply bind_await_inl|].
  erewrite bind_await_inr by done.
  destruct (value <=? balance)%Z; cbn [negb]; [|done].
  rewrite bind_perform.
  destruct (addConnection env from to) as [e|[]]; [done|].
  destruct (awaitFullTrust env to from) as [e|[]] eqn:Hloop.
  - erewrite bind_await_inl by done. done.
  - erewrite bind_await_inr by done.
    rewrite safeSendTransaction_eq. cbn [txTo txData txValue default].
    now destruct (prepare _ _ _ _).
Qed.

(** The inner [reduce] of [getMembers] filters and maps. *)
Lemma safeAddressesOf_filter user :
  safeAddressesOf toChecksumAddress user
  = (toChecksumAddress ∘ safeId) <$> filter (λ s, organization s = false) (safes user).
Proof.
  unfold safeAddressesOf.
  assert (H : ∀ entries acc,
    foldl (λ acc safe, if negb (organization safe)
                       then acc ++ [toChecksumAddress (safeId safe)] else acc)
          acc entries
    = acc ++ ((toChecksumAddress ∘ safeId)
                <$> filter (λ s, organization s = false) entries)).
  { induction entries as [|entry entries IH]; intros acc; simpl.
    - now rewrite app_nil_r.
    - rewrite IH. destruct (organization entry) eqn:Ho; simpl.
      + now rewrite filter_cons_False by congruence.
      + rewrite filter_cons_True by done. simpl. now rewrite <- app_assoc. }
  apply H.
Qed.

(** Results that all have a user are collected in order. *)
Lemma reduce_known users members :
  reduce toChecksumAddress ((λ u, Some (mkStatus (Some u))) <$> users) (Some members)
  = inr (Some (members ++ (memberOf toChecksumAddress <$> users))).
Proof.
  revert members. induction users as [|u users IH]; intros members; simpl.
  - now rewrite app_nil_r.
  - rewrite IH. now rewrite <- app_assoc.
Qed.

(** Once the accumulator is [undefined] no list comes back. *)
Lemma reduce_undefined results members :
  reduce toChecksumAddress results None ≠ inr (Some members).
Proof.
  induction results as [|[[[u|]]|] results IH]; simpl; try done.
Qed.

(** A result without a user leaves no list. *)
Lemma reduce_unknown results acc members :
  (∃ result, result ∈ results ∧ (result = None ∨ result = Some (mkStatus None))) →
  reduce toChecksumAddress results acc ≠ inr (Some members).
Proof.
  revert acc. induction results as [|result results IH]; intros acc.
  - intros (r & Hin & _). now apply elem_of_nil in Hin.
  - intros (r & Hin & Hr). simpl.
    destruct result as [[[u|]]|]; simpl; try apply reduce_undefined.
    destruct acc as [acc|]; [|done].
    apply IH. exists r. split; [|done].
    apply elem_of_cons in Hin as [->|Hin]; [|done]. now destruct Hr.
Qed.

Lemma all_inr {A} (promises : list (Error + A)) (results : list A) :
  all promises = inr results ↔ promises = inr <$> results.
Proof.
  revert results. induction promises as [|[e|a] promises IH]; intros results; simpl.
  - split; [intros [= <-]|]; [done|]. destruct results; [done|]. done.
  - split; [done|]. now destruct results.
  - destruct (all promises) as [e|rest] eqn:Hall.
    + split; [done|]. destruct results as [|r results]; [done|]. simpl.
      intros [= -> Hp]. now apply IH in Hp.
    + split.
      * intros [= <-]. simpl. f_equal. now apply IH.
      * destruct results as [|r results]; [done|]. simpl. intros [= -> Hp].
        apply IH in Hp. now injection Hp as ->.
Qed.

End Module.
End OrganizationFacts.

(** X14 — [deploy] of [src/organization.js] (lines 29-45, through
    [sendTransaction] of the Safe module).  An organization signs up through
    its own Safe: the call of [organizationSignup] on the hub, with value 0,
    is prepared for the Safe and handed to [utils.sendTransaction] with the
    Safe itself as target; this is the only call made on the outside, and
    none is made when the preparation fails. *)
Theorem organization_deploy {Receipt : Type} (ZERO_ADDRESS hubAddress : string)
    (encodeABI : Safe.ContractCall → string)
    (env : Organization.Collaborators (Receipt := Receipt))
    (account safeAddress : string) :
  Organization.deploy ZERO_ADDRESS hubAddress encodeABI env account safeAddress
  = match Safe.prepare (Organization.safe env) account safeAddress
            (Safe.mkSafeTransactionData hubAddress 0
               (encodeABI Safe.OrganizationSignup)) with
    | inr data =>
        ([Script.UtilsSendTransaction safeAddress data],
         Safe.sendTransaction (Organization.safe env) safeAddress data)
    | inl error => ([], inl error)
    end.
Proof.
  unfold Organization.deploy.
  now rewrite OrganizationFacts.safeSendTransaction_eq.
Qed.



(** X16 — when [prefund] succeeds (lines 85-167).  [prefund] returns a
    receipt exactly when the receiver is an organization, the sender has a
    token whose balance covers the value, the trust connection was added,
    the wait for the trust limit came to an end, the transfer was prepared
    and [utils.sendTransaction] accepted it.  Then exactly two calls were
    made on the outside, the trust connection from the organization to the
    sender and then the transaction through the sender's Safe, which calls
    [transferThrough] on the hub with the sender as only token owner and
    source, the organization as only destination and the value as only
    amount. *)
Theorem prefund_success {Receipt : Type} (ZERO_ADDRESS hubAddress : string)
    (encodeABI : Safe.ContractCall → string)
    (env : Organization.Collaborators (Receipt := Receipt))
    (account from to : string) (value : Z) (receipt : Receipt) :
  Script.result (Organization.prefund ZERO_ADDRESS hubAddress encodeABI env
                                      account from to value) = inr receipt ↔
  Organization.organizations env to = inr true ∧
  ∃ tokenAddress balance data,
    Organization.userToToken env from = inr tokenAddress ∧
    tokenAddress ≠ ZERO_ADDRESS ∧
    Organization.balanceOf env tokenAddress from = inr balance ∧
    (value ≤ balance)%Z ∧
    Organization.addConnection env from to = inr () ∧
    Organization.awaitFullTrust env to from = inr () ∧
    Safe.prepare (Organization.safe env) account from
      (Safe.mkSafeTransactionData hubAddress 0
         (encodeABI (Safe.TransferThrough [from] [from] [to]
                       [Freckles.showZ value]))) = inr data ∧
    Safe.sendTransaction (Organization.safe env) from data = inr receipt ∧
    Script.effects (Organization.prefund ZERO_ADDRESS hubAddress encodeABI env
                                         account from to value)
    = [Script.TrustAddConnection from to; Script.UtilsSendTransaction from data].
Proof.
  rewrite OrganizationFacts.prefund_eq. unfold Script.result, Script.effects.
  split.
  - destruct (Organization.organizations env to) as [e|[|]]; try done.
    destruct (Organization.userToToken env from) as [e|tokenAddress]; [done|].
    destruct (String.eqb_spec tokenAddress ZERO_ADDRESS) as [|Htoken]; [done|].
    destruct (Organization.balanceOf env tokenAddress from) as [e|balance] eqn:Hb;
      [done|].
    destruct (Z.leb_spec value balance) as [Hle|]; [|done].
    destruct (Organization.addConnection env from to) as [e|[]]; [done|].
    destruct (Organization.awaitFullTrust env to from) as [e|[]]; [done|].
    destruct (Safe.prepare _ _ _ _) as [e|data]; [done|].
    simpl. intros Hsent. split; [done|].
    exists tokenAddress, balance, data. split_and!; done.
  - intros (-> & tokenAddress & balance & data & -> & Htoken & -> & Hle
            & -> & -> & -> & Hsent & _).
    destruct (String.eqb_spec tokenAddress ZERO_ADDRESS) as [|_]; [done|].
    destruct (Z.leb_spec value balance) as [_|]; [|lia]. done.
Qed.

(** X17 — [getMembers] when every owner is known (lines 177-213).  If the
    index has a user for every owner of the organization's Safe, the
    members come back one per owner, in the order of the owners: the
    checksummed address of the user, and the checksummed addresses of those
    of the user's Safes that are not organizations, in their order. *)
Theorem getMembers_known {Receipt : Type} (toChecksumAddress : string → string)
    (env : Organization.Collaborators (Receipt := Receipt))
    (safeAddress : string) (owners : list string)
    (users : list Organization.User) :
  Organization.getOwners env safeAddress = inr owners →
  Organization.organizationStatus env <$> owners
  = (λ u, inr (Some (Organization.mkStatus (Some u)))) <$> users →
  Organization.getMembers toChecksumAddress env safeAddress
  = ([], inr (Some ((λ u, Organization.mkMember
                            (toChecksumAddress (Organization.userId u))
                            ((toChecksumAddress ∘ Organization.safeId)
                               <$> filter (λ s, Organization.organization s = false)
                                          (Organization.safes u)))
                      <$> users))) ∧
  length users = length owners.
Proof.
  intros Howners Hstatus. split.
  - unfold Organization.getMembers.
    erewrite ScriptFacts.bind_await_inr by done.
    assert (Hall : Organization.all (Organization.organizationStatus env <$> owners)
                   = inr ((λ u, Some (Organization.mkStatus (Some u))) <$> users)).
    { apply OrganizationFacts.all_inr. rewrite Hstatus.
      now rewrite <- list_fmap_compose. }
    erewrite ScriptFacts.bind_await_inr by exact Hall.
    unfold Script.await. rewrite OrganizationFacts.reduce_known. simpl.
    do 3 f_equal. apply list_fmap_ext. intros _ u _.
    unfold Organization.memberOf. f_equal.
    apply OrganizationFacts.safeAddressesOf_filter.
  - apply (f_equal length) in Hstatus. now rewrite !length_fmap in Hstatus.
Qed.

Lemma getMembers_known_witness :
  Organization.getMembers (λ address, address) SafeScenario.organizationModule
                          "0xOrg"
  = ([], inr (Some ((λ u, Organization.mkMember
                            (Organization.userId u)
                            (((λ address, address) ∘ Organization.safeId)
                               <$> filter (λ s, Organization.organization s = false)
                                          (Organization.safes u)))
                      <$> [SafeScenario.alice]))) ∧
  length [SafeScenario.alice] = length ["0xA"%string].
Proof.
  apply (getMembers_known (λ address, address) SafeScenario.organizationModule
           "0xOrg" ["0xA"%string] [SafeScenario.alice]).
  - reflexivity.
  - reflexivity.
Defined.

(** X18 — [getMembers] when an owner is unknown (lines 196-212).  If the
    index has no answer or no user for some owner of the Safe, [getMembers]
    returns no list, whatever the index knows about the other owners: the
    callback of [reduce] returns [undefined] for that owner, so the call
    returns [undefined], or throws (the [TypeError] of [push] when a known
    owner follows, or the rejection of a request). *)
Theorem getMembers_unknown_owner {Receipt : Type}
    (toChecksumAddress : string → string)
    (env : Organization.Collaborators (Receipt := Receipt))
    (safeAddress : string) (owners : list string) (owner : string) :
  Organization.getOwners env safeAddress = inr owners →
  owner ∈ owners →
  Organization.organizationStatus env owner = inr None ∨
  Organization.organizationStatus env owner = inr (Some (Organization.mkStatus None)) →
  Script.result (Organization.getMembers toChecksumAddress env safeAddress)
  = inr None ∨
  ∃ error,
    Script.result (Organization.getMembers toChecksumAddress env safeAddress)
    = inl error.
Proof.
  intros Howners Hin Hunknown.
  assert (Hnone : ∀ members,
    Script.result (Organization.getMembers toChecksumAddress env safeAddress)
    ≠ inr (Some members)).
  { intros members. unfold Organization.getMembers, Script.result.
    erewrite ScriptFacts.bind_await_inr by done.
    destruct (Organization.all (Organization.organizationStatus env <$> owners))
      as [e|results] eqn:Hall; [done|].
    erewrite ScriptFacts.bind_await_inr by done. unfold Script.await. simpl.
    apply OrganizationFacts.reduce_unknown.
    apply OrganizationFacts.all_inr in Hall.
    assert (Hr : Organization.organizationStatus env owner
                 ∈ Organization.organizationStatus env <$> owners)
      by now apply list_elem_of_fmap_2.
    rewrite Hall in Hr. apply list_elem_of_fmap in Hr as (result & Heq & Hres).
    exists result. split; [done|].
    destruct Hunknown as [H|H]; rewrite H in Heq; injection Heq as <-; auto. }
  destruct (Script.result _) as [error|[members|]]; [eauto| |auto].
  now destruct (Hnone members).
Qed.

Lemma getMembers_unknown_owner_witness :
  Script.result (Organization.getMembers (λ address, address)
                   SafeScenario.organizationModule "0xShop")
  = inr None ∨
  ∃ error,
    Script.result (Organization.getMembers (λ address, address)
                     SafeScenario.organizationModule "0xShop")
    = inl error.
Proof.
  apply (getMembers_unknown_owner (λ address, address)
           SafeScenario.organizationModule "0xShop" ["0xA"; "0xB"] "0xB")%string.
  - reflexivity.
  - apply (bool_decide_unpack _). by_computation.
  - left. reflexivity.
Defined.

Module DeployFacts.
Import Script Safe ScriptFacts SafeFacts.
Local Open Scope string_scope.

Section Module.
Context {Receipt : Type} (ZERO_ADDRESS : string) (DEFAULT_TRUST_LIMIT : nat)
        (proxyFactoryAddress safeMasterAddress fallbackHandlerAddress : string)
        (encodeABI : ContractCall → string) (toLowerCase : string → string)
        (env : Collaborators (Receipt := Receipt)).

Lemma sendOwnTransaction_eq account data :
  sendOwnTransaction proxyFactoryAddress env account data
  = match getTransactionCount env account with
    | inl error => ([], inl error)
    | inr _ =>
        match signTransaction env
                (mkOwnTransaction account proxyFactoryAddress 0 data) account with
        | inl error => ([], inl error)
        | inr raw => ([SendSignedTransaction raw], sendSignedTransaction env raw)
        end
    end.
Proof.
  unfold sendOwnTransaction.
  destruct (getTransactionCount env account) as [e|count] eqn:Hc;
    [now apply bind_await_inl|].
  erewrite bind_await_inr by done.
  destruct (signTransaction _ _ _) as [e|raw] eqn:Hs; [now apply bind_await_inl|].
  now erewrite bind_await_inr by done.
Qed.

(** [deploySafe], one answer after the other. *)
Lemma deploySafe_eq account nonce :
  deploySafe ZERO_ADDRESS DEFAULT_TRUST_LIMIT proxyFactoryAddress safeMasterAddress
             fallbackHandlerAddress encodeABI toLowerCase env account nonce
  = let data := deploymentData ZERO_ADDRESS safeMasterAddress fallbackHandlerAddress
                               encodeABI account nonce in
    let own := sendOwnTransaction proxyFactoryAddress env account data in
    match predictSafeAddress env account nonce with
    | inl error => ([], inl error)
    | inr safeAddress =>
        match isContractDeployed env safeAddress with
        | inl error => ([], inl error)
        | inr true =>
            ([], inl (SafeAlreadyDeployedError
                        ("Safe with nonce " ++ Freckles.decimal nonce
                         ++ " is already deployed.")))
        | inr false =>
            match own.2 with
            | inr _ => (own.1, inr safeAddress)
            | inl error =>
                if bool_decide (codeOf error = Some (-32003)%Z) then
                  match trustNetwork env (toLowerCase safeAddress) with
                  | inl error' => (own.1, inl error')
                  | inr trusts =>
                      if (DEFAULT_TRUST_LIMIT <=? length (default [] trusts))%nat
                      then
                        ((own.1 ++ [UtilsSendTransaction proxyFactoryAddress data])%list,
                         match sendTransaction env proxyFactoryAddress data with
                         | inl error' => inl error'
                         | inr _ => inr safeAddress
                         end)
                      else
                        (own.1,
                         inl (SafeNotTrustError
                                "The Safe has no minimun required trusts to be fund."))
                  end
                else (own.1, inl error)
            end
        end
    end.
Proof.
  cbv zeta. unfold deploySafe.
  destruct (predictSafeAddress env account nonce) as [e|safeAddress] eqn:Hp;
    [now apply bind_await_inl|].
  erewrite bind_await_inr by done.
  destruct (isContractDeployed env safeAddress) as [e|[|]] eqn:Hd;
    [now apply bind_await_inl|now erewrite bind_await_inr by done|].
  erewrite bind_await_inr by done. cbv zeta.
  destruct (sendOwnTransaction _ _ _ _) as [sent [error|[]]]; cbn [fst snd].
  - unfold catch.
    destruct (bool_decide (codeOf error = Some (-32003)%Z)).
    + destruct (trustNetwork env (toLowerCase safeAddress)) as [e|trusts] eqn:Ht.
      * erewrite bind_await_inl by done. simpl. now rewrite app_nil_r.
      * erewrite bind_await_inr by done.
        destruct (DEFAULT_TRUST_LIMIT <=? length (default [] trusts))%nat.
        -- rewrite bind_perform.
           destruct (sendTransaction env proxyFactoryAddress _) as [e|receipt];
             simpl; [done|]. now rewrite app_nil_r.
        -- simpl. now rewrite app_nil_r.
    + simpl. now rewrite app_nil_r.
  - simpl. now rewrite app_nil_r.
Qed.

End Module.

(** A loop that ends with a result ends with one that satisfies its
    predicate. *)
Lemma poll_Satisfied {A} fuel (action : nat → Poller.Attempt A) predicate o n elapsed
    result e :
  Poller.poll fuel action predicate o n elapsed = Some (Poller.Satisfied result e) →
  predicate result = true.
Proof.
  revert n elapsed. induction fuel as [|fuel IH]; intros n elapsed; [done|].
  simpl. destruct (Poller.outcome (action n)) as [|r].
  - destruct (Poller.exceeded _ _); [done|]. apply IH.
  - destruct (predicate r) eqn:Hr; [now intros [= <- _]|].
    destruct (Poller.exceeded _ _); [done|]. apply IH.
Qed.

End DeployFacts.

(** X24 — [deploySafe] of [src/safe.js] (lines 232-272).  The call acts on
    the outside only for an address it has predicted and found not deployed,
    and then exactly once: it hands the [createProxyWithNonce] call, whose
    initializer sets the account up as only owner with threshold 1, to
    [utils.sendTransaction] with the proxy factory as target.  It returns an
    address exactly when that is the predicted address, nothing is deployed
    there and [utils.sendTransaction] accepted the deployment. *)
Theorem deploySafe_relayed {Receipt : Type} (ZERO_ADDRESS : string)
    (proxyFactoryAddress safeMasterAddress fallbackHandlerAddress : string)
    (encodeABI : Safe.ContractCall → string)
    (env : Safe.Collaborators (Receipt := Receipt))
    (account : string) (nonce : N) (address : string) :
  Script.effects
    (Safe.deploySafeRelayed ZERO_ADDRESS proxyFactoryAddress safeMasterAddress
       fallbackHandlerAddress encodeABI env account nonce)
  = match Safe.predictSafeAddress env account nonce with
    | inr safeAddress =>
        match Safe.isContractDeployed env safeAddress with
        | inr false =>
            [Script.UtilsSendTransaction proxyFactoryAddress
               (encodeABI
                  (Safe.CreateProxyWithNonce safeMasterAddress
                     (encodeABI
                        (Safe.Setup [account] 1 ZERO_ADDRESS "0x"
                           fallbackHandlerAddress ZERO_ADDRESS 0 ZERO_ADDRESS))
                     nonce))]
        | _ => []
        end
    | inl _ => []
    end ∧
  (Script.result
     (Safe.deploySafeRelayed ZERO_ADDRESS proxyFactoryAddress safeMasterAddress
        fallbackHandlerAddress encodeABI env account nonce) = inr address ↔
   Safe.predictSafeAddress env account nonce = inr address ∧
   Safe.isContractDeployed env address = inr false ∧
   ∃ receipt,
     Safe.sendTransaction env proxyFactoryAddress
       (Safe.deploymentData ZERO_ADDRESS safeMasterAddress fallbackHandlerAddress
          encodeABI account nonce) = inr receipt).
Proof.
  unfold Safe.deploySafeRelayed, Script.effects, Script.result.
  destruct (Safe.predictSafeAddress env account nonce) as [e|safeAddress] eqn:Hp.
  { erewrite ScriptFacts.bind_await_inl by done. split; [done|]. split; [done|].
    now intros ([= ] & _). }
  erewrite ScriptFacts.bind_await_inr by done.
  destruct (Safe.isContractDeployed env safeAddress) as [e|[|]] eqn:Hd.
  - erewrite ScriptFacts.bind_await_inl by done. split; [done|]. split; [done|].
    intros ([= <-] & Hd' & _). congruence.
  - erewrite ScriptFacts.bind_await_inr by done. split; [done|]. split; [done|].
    intros ([= <-] & Hd' & _). congruence.
  - erewrite ScriptFacts.bind_await_inr by done. cbv zeta.
    rewrite ScriptFacts.bind_perform.
    destruct (Safe.sendTransaction env proxyFactoryAddress _) as [e|receipt] eqn:Hs;
      cbn [fst snd].
    + split; [done|]. split; [done|]. intros ([= <-] & _ & receipt & Hr).
      unfold Safe.deploymentData in Hr. congruence.
    + split; [done|]. split.
      * intros [= <-]. split_and!; [done..|]. eauto.
      * now intros ([= <-] & _).
Qed.

(** X19 — what [deploySafe] does on the outside ([part_000], lines 309-383).
    Whatever the collaborators answer, [deploySafe] acts only for an address
    that it has predicted and found not deployed, and in two ways only: it
    sends the deployment signed by the owner; and it hands the same
    deployment to [utils.sendTransaction], with the proxy factory as target,
    when the owner's own attempt has failed with the error code -32003 and
    the trust network of the Safe has at least [DEFAULT_TRUST_LIMIT]
    entries. *)
Theorem deploySafe_effects {Receipt : Type} (ZERO_ADDRESS : string)
    (DEFAULT_TRUST_LIMIT : nat)
    (proxyFactoryAddress safeMasterAddress fallbackHandlerAddress : string)
    (encodeABI : Safe.ContractCall → string) (toLowerCase : string → string)
    (env : Safe.Collaborators (Receipt := Receipt))
    (account : string) (nonce : N) (effect : Script.Effect) :
  effect ∈ Script.effects
             (Safe.deploySafe ZERO_ADDRESS DEFAULT_TRUST_LIMIT proxyFactoryAddress
                safeMasterAddress fallbackHandlerAddress encodeABI toLowerCase
                env account nonce) →
  ∃ safeAddress,
    Safe.predictSafeAddress env account nonce = inr safeAddress ∧
    Safe.isContractDeployed env safeAddress = inr false ∧
    ((∃ raw,
        effect = Script.SendSignedTransaction raw ∧
        Safe.signTransaction env
          (Safe.mkOwnTransaction account proxyFactoryAddress 0
             (Safe.deploymentData ZERO_ADDRESS safeMasterAddress
                fallbackHandlerAddress encodeABI account nonce))
          account = inr raw) ∨
     (effect = Script.UtilsSendTransaction proxyFactoryAddress
                 (Safe.deploymentData ZERO_ADDRESS safeMasterAddress
                    fallbackHandlerAddress encodeABI account nonce) ∧
      (∃ error,
          Script.result
            (Safe.sendOwnTransaction proxyFactoryAddress env account
               (Safe.deploymentData ZERO_ADDRESS safeMasterAddress
                  fallbackHandlerAddress encodeABI account nonce)) = inl error ∧
          Script.codeOf error = Some (-32003)%Z) ∧
      ∃ trusts,
        Safe.trustNetwork env (toLowerCase safeAddress) = inr trusts ∧
        DEFAULT_TRUST_LIMIT ≤ length (default [] trusts))).
Proof.
  rewrite DeployFacts.deploySafe_eq. cbv zeta. unfold Script.effects, Script.result.
  destruct (Safe.predictSafeAddress env account nonce) as [e|safeAddress];
    [intros []%elem_of_nil|].
  destruct (Safe.isContractDeployed env safeAddress) as [e|[|]] eqn:Hd;
    [intros []%elem_of_nil|intros []%elem_of_nil|].
  intros Hin. exists safeAddress. split; [done|]. split; [done|].
  assert (Hown : effect ∈ (Safe.sendOwnTransaction proxyFactoryAddress env account
                   (Safe.deploymentData ZERO_ADDRESS safeMasterAddress
                      fallbackHandlerAddress encodeABI account nonce)).1 →
                 ∃ raw, effect = Script.SendSignedTransaction raw ∧
                   Safe.signTransaction env
                     (Safe.mkOwnTransaction account proxyFactoryAddress 0
                        (Safe.deploymentData ZERO_ADDRESS safeMasterAddress
                           fallbackHandlerAddress encodeABI account nonce))
                     account = inr raw).
  { rewrite DeployFacts.sendOwnTransaction_eq.
    destruct (Safe.getTransactionCount env account); [intros []%elem_of_nil|].
    destruct (Safe.signTransaction _ _ _) as [e|raw]; [intros []%elem_of_nil|].
    intros ->%list_elem_of_singleton. eauto. }
  destruct (Safe.sendOwnTransaction _ _ _ _).2 as [error|[]] eqn:Hresult;
    [|now left; apply Hown].
  destruct (bool_decide_reflect (Script.codeOf error = Some (-32003)%Z)) as [Hcode|];
    [|now left; apply Hown].
  destruct (Safe.trustNetwork env (toLowerCase safeAddress)) as [e|trusts] eqn:Ht;
    [now left; apply Hown|].
  destruct (Nat.leb_spec DEFAULT_TRUST_LIMIT (length (default [] trusts)));
    [|now left; apply Hown].
  cbn [fst] in Hin. apply elem_of_app in Hin as [Hin|Hin]; [now left; apply Hown|].
  apply list_elem_of_singleton in Hin as ->. right. eauto 10.
Qed.

Lemma deploySafe_effects_witness :
  ∃ safeAddress,
    Safe.predictSafeAddress SafeScenario.safeModule "0xOwner" 5 = inr safeAddress ∧
    Safe.isContractDeployed SafeScenario.safeModule safeAddress = inr false ∧
    ((∃ raw,
        Script.UtilsSendTransaction SafeScenario.factory "createProxyWithNonce"
        = Script.SendSignedTransaction raw ∧
        Safe.signTransaction SafeScenario.safeModule
          (Safe.mkOwnTransaction "0xOwner" SafeScenario.factory 0
             (Safe.deploymentData SafeScenario.zero SafeScenario.master
                SafeScenario.handler SafeScenario.encode "0xOwner" 5))
          "0xOwner" = inr raw) ∨
     (Script.UtilsSendTransaction SafeScenario.factory "createProxyWithNonce"
      = Script.UtilsSendTransaction SafeScenario.factory
          (Safe.deploymentData SafeScenario.zero SafeScenario.master
             SafeScenario.handler SafeScenario.encode "0xOwner" 5) ∧
      (∃ error,
          Script.result
            (Safe.sendOwnTransaction SafeScenario.factory SafeScenario.safeModule
               "0xOwner"
               (Safe.deploymentData SafeScenario.zero SafeScenario.master
                  SafeScenario.handler SafeScenario.encode "0xOwner" 5))
          = inl error ∧
          Script.codeOf error = Some (-32003)%Z) ∧
      ∃ trusts,
        Safe.trustNetwork SafeScenario.safeModule ((λ address, address) safeAddress)
        = inr trusts ∧
        3 ≤ length (default [] trusts))).
Proof.
  apply (deploySafe_effects SafeScenario.zero 3 SafeScenario.factory
           SafeScenario.master SafeScenario.handler SafeScenario.encode
           (λ address, address) SafeScenario.safeModule "0xOwner" 5
           (Script.UtilsSendTransaction SafeScenario.factory "createProxyWithNonce")).
  apply (bool_decide_unpack _). by_computation.
Defined.

(** X20 — when [deploySafe] returns ([part_000], lines 309-383).  The call
    returns an address exactly when that is the address predicted for the
    owner and the nonce, no contract is deployed there, and the deployment
    went out: either the owner's own transaction was sent and accepted, or
    the attempt failed with the error code -32003, the trust network of the
    Safe has at least [DEFAULT_TRUST_LIMIT] entries and
    [utils.sendTransaction] accepted the deployment. *)
Theorem deploySafe_returns {Receipt : Type} (ZERO_ADDRESS : string)
    (DEFAULT_TRUST_LIMIT : nat)
    (proxyFactoryAddress safeMasterAddress fallbackHandlerAddress : string)
    (encodeABI : Safe.ContractCall → string) (toLowerCase : string → string)
    (env : Safe.Collaborators (Receipt := Receipt))
    (account : string) (nonce : N) (address : string) :
  Script.result
    (Safe.deploySafe ZERO_ADDRESS DEFAULT_TRUST_LIMIT proxyFactoryAddress
       safeMasterAddress fallbackHandlerAddress encodeABI toLowerCase env
       account nonce) = inr address ↔
  Safe.predictSafeAddress env account nonce = inr address ∧
  Safe.isContractDeployed env address = inr false ∧
  (Script.result
     (Safe.sendOwnTransaction proxyFactoryAddress env account
        (Safe.deploymentData ZERO_ADDRESS safeMasterAddress
           fallbackHandlerAddress encodeABI account nonce)) = inr () ∨
   ∃ error trusts receipt,
     Script.result
       (Safe.sendOwnTransaction proxyFactoryAddress env account
          (Safe.deploymentData ZERO_ADDRESS safeMasterAddress
             fallbackHandlerAddress encodeABI account nonce)) = inl error ∧
     Script.codeOf error = Some (-32003)%Z ∧
     Safe.trustNetwork env (toLowerCase address) = inr trusts ∧
     DEFAULT_TRUST_LIMIT ≤ length (default [] trusts) ∧
     Safe.sendTransaction env proxyFactoryAddress
       (Safe.deploymentData ZERO_ADDRESS safeMasterAddress
          fallbackHandlerAddress encodeABI account nonce) = inr receipt).
Proof.
  rewrite DeployFacts.deploySafe_eq. cbv zeta. unfold Script.result.
  split.
  - destruct (Safe.predictSafeAddress env account nonce) as [e|safeAddress]; [done|].
    destruct (Safe.isContractDeployed env safeAddress) as [e|[|]] eqn:Hd; try done.
    destruct (Safe.sendOwnTransaction _ _ _ _).2 as [error|[]] eqn:Hresult.
    + destruct (bool_decide_reflect (Script.codeOf error = Some (-32003)%Z))
        as [Hcode|]; [|done].
      destruct (Safe.trustNetwork env (toLowerCase safeAddress)) as [e|trusts] eqn:Ht;
        [done|].
      destruct (Nat.leb_spec DEFAULT_TRUST_LIMIT (length (default [] trusts)));
        [|done].
      cbn [snd].
      destruct (Safe.sendTransaction env proxyFactoryAddress _) as [e|receipt] eqn:Hs;
        [done|].
      intros [= <-]. split_and!; [done..|]. right. eauto 10.
    + intros [= <-]. split_and!; [done..|]. now left.
  - intros (-> & -> & [->|(error & trusts & receipt & -> & Hcode & -> & Hle & ->)]);
      [done|].
    rewrite bool_decide_true by done.
    destruct (Nat.leb_spec DEFAULT_TRUST_LIMIT (length (default [] trusts)));
      [done|lia].
Qed.

(** X21 — what [updateToLastVersion] returns ([part_000], lines 595-646;
    [src/safe.js], lines 437-512; the loop is [~/common/loop] as the spec
    describes it).  A Safe that is at [SAFE_LAST_VERSION] is left alone and
    that version is returned at once.  For any other Safe, whenever the call
    returns a version it is [SAFE_LAST_VERSION], and exactly two
    transactions have been handed to [utils.sendTransaction] before the
    polling began, both with the Safe as target and as receiver: the change
    of the master copy, then the new fallback handler. *)
Theorem updateToLastVersion_returns {Receipt : Type}
    (SAFE_LAST_VERSION fallbackHandlerAddress safeMasterContractAddress : string)
    (encodeABI : Safe.ContractCall → string)
    (loopIntervalMs : nat) (loopTimeoutMs : option nat)
    (env : Safe.Collaborators (Receipt := Receipt))
    (fuel : nat) (account safeAddress : string)
    (sent : list Script.Effect) (version : string) :
  Safe.updateToLastVersion SAFE_LAST_VERSION fallbackHandlerAddress
    safeMasterContractAddress encodeABI loopIntervalMs loopTimeoutMs env fuel
    account safeAddress = Some (sent, inr version) →
  version = SAFE_LAST_VERSION ∧
  ((Safe.getContractVersion env safeAddress = inr SAFE_LAST_VERSION ∧ sent = []) ∨
   (∃ found changed handled,
       Safe.getContractVersion env safeAddress = inr found ∧
       found ≠ SAFE_LAST_VERSION ∧
       Safe.prepare env account safeAddress
         (Safe.mkSafeTransactionData safeAddress 0
            (encodeABI (Safe.ChangeMasterCopy safeMasterContractAddress)))
       = inr changed ∧
       Safe.prepare env account safeAddress
         (Safe.mkSafeTransactionData safeAddress 0
            (encodeABI (Safe.SetFallbackHandler fallbackHandlerAddress)))
       = inr handled ∧
       sent = [Script.UtilsSendTransaction safeAddress changed;
               Script.UtilsSendTransaction safeAddress handled])).
Proof.
  unfold Safe.updateToLastVersion.
  destruct (Safe.getContractVersion env safeAddress) as [e|found]; [done|].
  destruct (String.eqb_spec found SAFE_LAST_VERSION) as [->|Hold].
  { intros [= <- <-]. split; [done|]. now left. }
  rewrite !SafeFacts._sendTransaction_eq. cbn [Safe.txTo Safe.txData Safe.txValue default].
  unfold Safe.targetOr.
  destruct (Safe.prepare env account safeAddress
              (Safe.mkSafeTransactionData safeAddress 0
                 (encodeABI (Safe.ChangeMasterCopy safeMasterContractAddress))))
    as [e|changed] eqn:Hc; [done|].
  unfold mbind, Script.Script_bind.
  destruct (Safe.sendTransaction env safeAddress changed) as [e|receipt]; [done|].
  destruct (Safe.prepare env account safeAddress
              (Safe.mkSafeTransactionData safeAddress 0
                 (encodeABI (Safe.SetFallbackHandler fallbackHandlerAddress))))
    as [e|handled] eqn:Hh; [done|].
  cbn [fst snd].
  destruct (Safe.sendTransaction env safeAddress handled) as [e|receipt']; [done|].
  destruct (Poller.poll _ _ _ _ _ _) as [[result elapsed|label elapsed]|] eqn:Hpoll;
    [|done..].
  intros [= <- <-]. split.
  - apply DeployFacts.poll_Satisfied in Hpoll. now apply String.eqb_eq in Hpoll.
  - right. exists found, changed, handled. done.
Qed.

Lemma updateToLastVersion_returns_witness :
  SafeScenario.lastVersion = SafeScenario.lastVersion ∧
  ((Safe.getContractVersion SafeScenario.safeModule "0xSafe"
    = inr SafeScenario.lastVersion ∧
    [Script.UtilsSendTransaction "0xSafe" "exec:changeMasterCopy";
     Script.UtilsSendTransaction "0xSafe" "exec:setFallbackHandler"] = []) ∨
   (∃ found changed handled,
       Safe.getContractVersion SafeScenario.safeModule "0xSafe" = inr found ∧
       found ≠ SafeScenario.lastVersion ∧
       Safe.prepare SafeScenario.safeModule "0xOwner" "0xSafe"
         (Safe.mkSafeTransactionData "0xSafe" 0
            (SafeScenario.encode (Safe.ChangeMasterCopy SafeScenario.master)))
       = inr changed ∧
       Safe.prepare SafeScenario.safeModule "0xOwner" "0xSafe"
         (Safe.mkSafeTransactionData "0xSafe" 0
            (SafeScenario.encode (Safe.SetFallbackHandler SafeScenario.handler)))
       = inr handled ∧
       [Script.UtilsSendTransaction "0xSafe" "exec:changeMasterCopy";
        Script.UtilsSendTransaction "0xSafe" "exec:setFallbackHandler"]
       = [Script.UtilsSendTransaction "0xSafe" changed;
          Script.UtilsSendTransaction "0xSafe" handled])).
Proof.
  apply (updateToLastVersion_returns SafeScenario.lastVersion SafeScenario.handler
           SafeScenario.master SafeScenario.encode 10 (Some 100)
           SafeScenario.safeModule 5 "0xOwner" "0xSafe"
           [Script.UtilsSendTransaction "0xSafe" "exec:changeMasterCopy";
            Script.UtilsSendTransaction "0xSafe" "exec:setFallbackHandler"]
           SafeScenario.lastVersion).
  by_computation.
Defined.

(* ===================================================================== *)
(** ** Decimal places of [toFreckles] *)
(* ===================================================================== *)

Module DigitFacts.
Import Freckles FrecklesFacts.
Local Open Scope string_scope.

(** The value of a numeral that starts with a digit: the digit, moved to
    its place, plus the value of the rest. *)
Lemma of_uint_digit (digit : N) (d : Decimal.uint) (one : Decimal.uint) :
  DecimalPos.Unsigned.of_lu one = digit →
  DecimalPos.Unsigned.of_lu (Decimal.revapp d one)
  = (N.of_uint d + digit * 10 ^ DecimalPos.Unsigned.usize d)%N.
Proof.
  intros <-. rewrite DecimalPos.Unsigned.of_lu_revapp.
  unfold N.of_uint. now rewrite DecimalPos.Unsigned.of_uint_alt.
Qed.

Lemma readDecimal_cons c rest n :
  isDigit c = true → readDecimal rest = Some n →
  (N.of_nat (nat_of_ascii c) - 48 < 10)%N ∧
  readDecimal (String c rest)
  = Some ((N.of_nat (nat_of_ascii c) - 48) * 10 ^ N.of_nat (String.length rest)
          + n)%N.
Proof.
  unfold readDecimal. intros Hc.
  assert (Hsize : ∀ s d, DecimalString.NilEmpty.uint_of_string s = Some d →
                         DecimalPos.Unsigned.usize d = N.of_nat (String.length s)).
  { induction s as [|a s IH]; intros d; simpl.
    - now intros [= <-].
    - destruct (DecimalString.NilEmpty.uint_of_string s) as [d'|]; [|done].
      specialize (IH d' eq_refl). unfold DecimalString.uint_of_char.
      destruct a as [[] [] [] [] [] [] [] []]; try done;
        intros [= <-]; cbn [DecimalPos.Unsigned.usize]; lia. }
  simpl. destruct (DecimalString.NilEmpty.uint_of_string rest) as [d|] eqn:Hd;
    [|done].
  simpl. intros [= <-]. rewrite <- (Hsize _ _ Hd).
  destruct c as [[] [] [] [] [] [] [] []]; try discriminate Hc;
    cbn [DecimalString.uint_of_char fmap option_fmap option_map];
    unfold N.of_uint; rewrite (DecimalPos.Unsigned.of_uint_alt (_ d));
    unfold Decimal.rev; cbn [Decimal.revapp];
    (split; [by vm_compute|]); f_equal;
    erewrite of_uint_digit by reflexivity; unfold N.of_uint;
    cbn [DecimalPos.Unsigned.of_lu];
    match goal with
    | |- context [N.of_nat (nat_of_ascii ?a)] =>
        let v := eval vm_compute in (N.of_nat (nat_of_ascii a) - 48)%N in
        change (N.of_nat (nat_of_ascii a) - 48)%N with v
    end; lia.
Qed.

(** A string of digits reads as a number below the power of ten of its
    length. *)
Lemma readDecimal_digits s :
  allDigits s = true →
  ∃ n, readDecimal s = Some n ∧ (n < 10 ^ N.of_nat (String.length s))%N.
Proof.
  induction s as [|c s IH]; simpl.
  - intros _. exists 0%N. split; [done|]. cbn. lia.
  - intros [Hc Hs]%andb_true_iff. destruct (IH Hs) as (n & Hn & Hlt).
    destruct (readDecimal_cons c s n Hc Hn) as (Hd & ->).
    eexists. split; [reflexivity|].
    rewrite Nat2N.inj_succ, N.pow_succ_r'. nia.
Qed.

Lemma readDecimal_zeros k : readDecimal (zeros k) = Some 0%N.
Proof.
  induction k as [|k IH]; [done|]. simpl zeros.
  destruct (readDecimal_cons "0" (zeros k) 0 eq_refl IH) as (_ & ->).
  reflexivity.
Qed.

Lemma length_zeros k : String.length (zeros k) = k.
Proof. induction k; simpl; auto. Qed.

Lemma length_append (s t : string) :
  String.length (s ++ t) = (String.length s + String.length t)%nat.
Proof. induction s; simpl; auto. Qed.

Lemma allDigits_append (s t : string) :
  allDigits (s ++ t) = allDigits s && allDigits t.
Proof.
  induction s as [|c s IH]; [done|]. rewrite append_cons. simpl.
  now rewrite IH, andb_assoc.
Qed.

Lemma allDigits_zeros k : allDigits (zeros k) = true.
Proof. induction k; simpl; auto. Qed.

(** Zeros on the right multiply by a power of ten. *)
Lemma readDecimal_padded s n k :
  allDigits s = true → readDecimal s = Some n →
  readDecimal (s ++ zeros k) = Some (n * 10 ^ N.of_nat k)%N.
Proof.
  revert n. induction s as [|c s IH]; intros n.
  - intros _ [= <-]. rewrite append_empty_l. now rewrite readDecimal_zeros.
  - simpl allDigits. intros [Hc Hs]%andb_true_iff Hn.
    destruct (readDecimal_digits s Hs) as (m & Hm & _).
    destruct (readDecimal_cons c s m Hc Hm) as (_ & Hcons).
    rewrite Hcons in Hn. injection Hn as <-.
    rewrite append_cons.
    destruct (readDecimal_cons c (s ++ zeros k) _ Hc (IH m Hs Hm)) as (_ & ->).
    f_equal. rewrite length_append, length_zeros, Nat2N.inj_add, N.pow_add_r. lia.
Qed.

Lemma dropDigits_until s c rest :
  allDigits s = true → isDigit c = false →
  dropDigits (s ++ String c rest) = String c rest.
Proof.
  intros Hs Hc. induction s as [|d s IH].
  - rewrite append_empty_l. simpl. now rewrite Hc.
  - rewrite append_cons. simpl in *.
    apply andb_true_iff in Hs as [Hd Hs]. rewrite Hd. auto.
Qed.

End DigitFacts.

(** X22 — the decimal places of [toFreckles] (lines 284-297).  An amount
    written as an integer, a dot and up to 18 decimals is converted exactly:
    the Freckles are the integer part times [10^18] plus the decimals read
    as a number and scaled to 18 places; [fromFreckles] gives back the
    integer part, the decimals lost (for integer parts up to [2^53]).  With
    more than 18 decimals [toFreckles] throws. *)
Theorem toFreckles_decimals (whole : N) (fraction : string) (value : N) :
  Freckles.allDigits fraction = true →
  Freckles.readDecimal fraction = Some value →
  if (String.length fraction <=? 18)%nat then
    Freckles.toFreckles (Freckles.decimal whole ++ "." ++ fraction)%string
    = Some (Freckles.decimal
              (whole * 10 ^ 18
               + value * 10 ^ N.of_nat (18 - String.length fraction))) ∧
    ((whole ≤ 2 ^ 53)%N →
     Freckles.toFreckles (Freckles.decimal whole ++ "." ++ fraction)%string
       ≫= Freckles.fromFreckles
     = Some (Freckles.Num (Z.of_N whole)))
  else
    Freckles.toFreckles (Freckles.decimal whole ++ "." ++ fraction)%string = None.
Proof.
  intros Hdigits Hvalue.
  assert (Hwei : Freckles.toWei (Freckles.decimal whole ++ "." ++ fraction)%string
    = if (String.length fraction <=? 18)%nat
      then f ← Freckles.readDecimal
                 (fraction ++ Freckles.zeros (18 - String.length fraction))%string;
           Some (Freckles.decimal (whole * Freckles.base + f))
      else None).
  { change ("." ++ fraction)%string with (String.String "." fraction).
    destruct (FrecklesFacts.decimal_cons whole) as (c & rest & Hdec & Hc).
    destruct (FrecklesFacts.isDigit_not_sign _ Hc) as (Hminus & _ & Hdot).
    assert (Hsplit :
      Freckles.splitMinus (Freckles.decimal whole ++ String.String "." fraction)%string
      = (false, (Freckles.decimal whole ++ String.String "." fraction)%string)).
    { rewrite Hdec, FrecklesFacts.append_cons. cbn [Freckles.splitMinus].
      now rewrite Hminus. }
    assert (Hspecial :
      String.eqb (Freckles.decimal whole ++ String.String "." fraction)%string ""
      || String.eqb (Freckles.decimal whole ++ String.String "." fraction)%string "."
      = false).
    { rewrite Hdec, FrecklesFacts.append_cons. cbn [String.eqb]. now rewrite Hdot. }
    unfold Freckles.toWei. rewrite Hsplit. cbv iota beta. rewrite Hspecial.
    rewrite FrecklesFacts.takeDigits_until, DigitFacts.dropDigits_until
      by (apply FrecklesFacts.allDigits_decimal || done).
    change (Ascii.eqb "." ".") with true. rewrite Hdigits. cbn [andb].
    unfold Freckles.baseLength.
    destruct (String.length fraction <=? 18)%nat; [|done].
    rewrite FrecklesFacts.readDecimal_decimal. cbn [mbind option_bind].
    destruct (Freckles.readDecimal
                (fraction ++ Freckles.zeros (18 - String.length fraction))%string)
      as [f|]; [|done].
    cbn [mbind option_bind]. unfold Freckles.showZ.
    destruct (Z.ltb_spec (Z.of_N (whole * Freckles.base + f)) 0) as [Hneg|_]; [lia|].
    now rewrite Zabs2N.id. }
  unfold Freckles.toFreckles. rewrite Hwei.
  destruct (Nat.leb_spec (String.length fraction) 18) as [Hle|]; [|done].
  rewrite (DigitFacts.readDecimal_padded _ _ _ Hdigits Hvalue).
  cbn [mbind option_bind]. split; [done|]. intros Hwhole.
  rewrite FrecklesFacts.fromFreckles_decimal. do 3 f_equal.
  destruct (DigitFacts.readDecimal_digits _ Hdigits) as (n & Hn & Hlt).
  rewrite Hvalue in Hn. injection Hn as <-.
  assert (Hsmall : (value * 10 ^ N.of_nat (18 - String.length fraction)
                    < Freckles.base)%N).
  { unfold Freckles.base.
    replace 18%N with (N.of_nat (String.length fraction)
                       + N.of_nat (18 - String.length fraction))%N by lia.
    rewrite N.pow_add_r. apply N.mul_lt_mono_pos_r; [|done].
    apply N.neq_0_lt_0, N.pow_nonzero. done. }
  rewrite N.div_add_l by done. rewrite N.div_small by done.
  rewrite N.add_0_r. now apply FrecklesFacts.toNumber_exact.
Qed.

Lemma toFreckles_decimals_witness :
  Freckles.toFreckles (Freckles.decimal 12 ++ "." ++ "0345")%string
  = Some (Freckles.decimal (12 * 10 ^ 18 + 345 * 10 ^ N.of_nat (18 - 4))) ∧
  ((12 ≤ 2 ^ 53)%N →
   Freckles.toFreckles (Freckles.decimal 12 ++ "." ++ "0345")%string
     ≫= Freckles.fromFreckles
   = Some (Freckles.Num (Z.of_N 12))).
Proof.
  apply (toFreckles_decimals 12 "0345" 345); reflexivity.
Defined.
